(** * context-window: ingestion and retrieval pipeline

    A shallow embedding of the TypeScript sources of the context-window
    library (chunker, fingerprinting, ingestion, context packing, the
    ask orchestrator and the window registry) together with the properties
    its specification states about them. *)

From Stdlib Require Import ZArith Lia String Ascii DecimalString QArith.
From stdpp Require Import base option list gmap.

Local Open Scope Z_scope.

(** ** JavaScript strings

    A JS string is a sequence of UTF-16 code units; [length], [slice],
    [trim] and the regular expression class [\s] all work on code units. *)

Abbreviation jsstring := (list Z).

Definition js (s : string) : jsstring :=
  map (fun a => Z.of_N (N_of_ascii a)) (list_ascii_of_string s).

Definition jslen {A} (s : list A) : Z := Z.of_nat (length s).

(** [String.prototype.slice] / [Array.prototype.slice]: a negative index
    counts from the end, indices are clamped to [0, length]. *)
Definition relIndex (len k : Z) : Z :=
  if k <? 0 then Z.max (len + k) 0 else Z.min k len.

Definition slice {A} (s : list A) (start end_ : Z) : list A :=
  let len := jslen s in
  let from := relIndex len start in
  let to := relIndex len end_ in
  take (Z.to_nat (to - from)) (drop (Z.to_nat from) s).

(** White space and line terminators, the class matched by [\s] and
    stripped by [trim]. *)
Definition isWhiteSpace (c : Z) : bool :=
  ((9 <=? c) && (c <=? 13)) || (c =? 32) || (c =? 160) || (c =? 5760)
  || ((8192 <=? c) && (c <=? 8202)) || (c =? 8232) || (c =? 8233)
  || (c =? 8239) || (c =? 8287) || (c =? 12288) || (c =? 65279).

Fixpoint trimStart (s : jsstring) : jsstring :=
  match s with
  | [] => []
  | c :: s' => if isWhiteSpace c then trimStart s' else s
  end.

Definition trimEnd (s : jsstring) : jsstring := reverse (trimStart (reverse s)).

Definition trim (s : jsstring) : jsstring := trimEnd (trimStart s).

(** [s.replace(/\s+/g, " ")]: every maximal run of white space becomes one
    space; [inRun] records that the previous code unit was white space. *)
Fixpoint replaceWhitespaceRuns (inRun : bool) (s : jsstring) : jsstring :=
  match s with
  | [] => []
  | c :: s' =>
      if isWhiteSpace c then
        if inRun then replaceWhitespaceRuns true s'
        else 32 :: replaceWhitespaceRuns true s'
      else c :: replaceWhitespaceRuns false s'
  end.

(** [Array.prototype.join]. *)
Fixpoint joinWith (sep : jsstring) (parts : list jsstring) : jsstring :=
  match parts with
  | [] => []
  | [p] => p
  | p :: rest => p ++ sep ++ joinWith sep rest
  end.

(** A non-negative integer inside a template literal. *)
Definition decimal (n : nat) : jsstring := js (NilZero.string_of_uint (Nat.to_uint n)).

(** The [utf8] encoding Node applies to a string before hashing it: surrogate
    pairs become one four-byte sequence, a lone surrogate becomes U+FFFD. *)
Definition isHighSurrogate (c : Z) : bool := (0xD800 <=? c) && (c <=? 0xDBFF).
Definition isLowSurrogate (c : Z) : bool := (0xDC00 <=? c) && (c <=? 0xDFFF).

Definition utf8CodePoint (cp : Z) : list Z :=
  if cp <? 0x80 then [cp]
  else if cp <? 0x800 then
    [Z.lor 0xC0 (Z.shiftr cp 6); Z.lor 0x80 (Z.land cp 0x3F)]
  else if cp <? 0x10000 then
    [Z.lor 0xE0 (Z.shiftr cp 12); Z.lor 0x80 (Z.land (Z.shiftr cp 6) 0x3F);
     Z.lor 0x80 (Z.land cp 0x3F)]
  else
    [Z.lor 0xF0 (Z.shiftr cp 18); Z.lor 0x80 (Z.land (Z.shiftr cp 12) 0x3F);
     Z.lor 0x80 (Z.land (Z.shiftr cp 6) 0x3F); Z.lor 0x80 (Z.land cp 0x3F)].

Fixpoint utf8 (s : jsstring) : list Z :=
  match s with
  | [] => []
  | c :: rest =>
      if isHighSurrogate c then
        match rest with
        | d :: rest' =>
            if isLowSurrogate d then
              utf8CodePoint (0x10000 + (c - 0xD800) * 0x400 + (d - 0xDC00)) ++ utf8 rest'
            else utf8CodePoint 0xFFFD ++ utf8 rest
        | [] => utf8CodePoint 0xFFFD
        end
      else if isLowSurrogate c then utf8CodePoint 0xFFFD ++ utf8 rest
      else utf8CodePoint c ++ utf8 rest
  end.

(** ** SHA-1 (FIPS 180-4), as computed by [createHash("sha1")] *)

Module Sha1.

Definition w32 (x : Z) : Z := x mod 2 ^ 32.
Definition rotl (n x : Z) : Z :=
  w32 (Z.lor (Z.shiftl x n) (Z.shiftr x (32 - n))).
Definition add32 (a b : Z) : Z := w32 (a + b).

Definition bigEndian (nbytes : nat) (x : Z) : list Z :=
  map (fun k => Z.shiftr x (8 * Z.of_nat k) mod 256) (reverse (seq 0 nbytes)).

Definition pad (msg : list Z) : list Z :=
  let len := Z.of_nat (length msg) in
  msg ++ [128] ++ replicate (Z.to_nat ((55 - len) mod 64)) 0
      ++ bigEndian 8 (8 * len).

Fixpoint wordsOf (n : nat) (bytes : list Z) : list Z :=
  match n, bytes with
  | S n', b0 :: b1 :: b2 :: b3 :: rest =>
      (b0 * 2 ^ 24 + b1 * 2 ^ 16 + b2 * 2 ^ 8 + b3) :: wordsOf n' rest
  | _, _ => []
  end.

Fixpoint schedule (n : nat) (w : list Z) : list Z :=
  match n with
  | O => w
  | S n' =>
      let t := length w in
      let g k := nth (t - k) w 0 in
      schedule n'
        (w ++ [rotl 1 (Z.lxor (Z.lxor (g 3%nat) (g 8%nat))
                               (Z.lxor (g 14%nat) (g 16%nat)))])
  end.

Definition f (t : nat) (b c d : Z) : Z :=
  if (t <? 20)%nat then Z.lor (Z.land b c) (Z.land (Z.lxor b (2 ^ 32 - 1)) d)
  else if (t <? 40)%nat then Z.lxor (Z.lxor b c) d
  else if (t <? 60)%nat then Z.lor (Z.lor (Z.land b c) (Z.land b d)) (Z.land c d)
  else Z.lxor (Z.lxor b c) d.

Definition K (t : nat) : Z :=
  if (t <? 20)%nat then 0x5A827999
  else if (t <? 40)%nat then 0x6ED9EBA1
  else if (t <? 60)%nat then 0x8F1BBCDC
  else 0xCA62C1D6.

Record regs := Regs { ra : Z; rb : Z; rc : Z; rd : Z; re : Z }.

Definition round (s : regs * nat) (w : Z) : regs * nat :=
  let '(Regs a b c d e, t) := s in
  let temp := add32 (add32 (add32 (add32 (rotl 5 a) (f t b c d)) e) (K t)) w in
  (Regs temp a (rotl 30 b) c d, S t).

Definition compress (h : regs) (block : list Z) : regs :=
  let w := schedule 64 (wordsOf 16 block) in
  let '(Regs a b c d e, _) := foldl round (h, O) w in
  Regs (add32 (ra h) a) (add32 (rb h) b) (add32 (rc h) c)
       (add32 (rd h) d) (add32 (re h) e).

Fixpoint blocks (n : nat) (bytes : list Z) : list (list Z) :=
  match n with
  | O => []
  | S n' =>
      match bytes with
      | [] => []
      | _ => take 64 bytes :: blocks n' (drop 64 bytes)
      end
  end.

Definition init : regs :=
  Regs 0x67452301 0xEFCDAB89 0x98BADCFE 0x10325476 0xC3D2E1F0.

Definition digest (msg : list Z) : regs :=
  let p := pad msg in foldl compress init (blocks (length p) p).

Definition hexDigit (d : Z) : Z := if d <? 10 then 48 + d else 87 + d.

Definition hexWord (x : Z) : jsstring :=
  map (fun k => hexDigit (Z.shiftr x (4 * Z.of_nat k) mod 16)) (reverse (seq 0 8)).

Definition hex (h : regs) : jsstring :=
  hexWord (ra h) ++ hexWord (rb h) ++ hexWord (rc h) ++ hexWord (rd h)
    ++ hexWord (re h).

End Sha1.

(** ** util/hash.ts *)

Definition stableHash (input : jsstring) : jsstring :=
  Sha1.hex (Sha1.digest (utf8 input)).

(** ** util/chunker.ts *)

(** The [while (start < text.length)] loop of [chunkText]; [fuel] bounds the
    number of iterations and [None] means the bound was reached. What the
    call does when no bound is enough is given by [chunkTextRun] below. *)
Fixpoint chunkLoop (fuel : nat) (text : jsstring) (size overlap start : Z)
    (chunks : list jsstring) : option (list jsstring) :=
  match fuel with
  | O => None
  | S fuel' =>
      if start <? jslen text then
        let end_ := start + size in
        let chunk := slice text start end_ in
        let chunks := chunks ++ [chunk] in
        if end_ >=? jslen text then Some chunks
        else chunkLoop fuel' text size overlap (start + (size - overlap)) chunks
      else Some chunks
  end.

Definition chunkText (fuel : nat) (text : jsstring) (size overlap : Z)
    : option (list jsstring) :=
  if jslen text =? 0 then Some []
  else if jslen text <=? size then Some [text]
  else chunkLoop fuel text size overlap 0 [].

(** ** adapters/store/types.ts, adapters/ai/types.ts, types.ts

    Numbers that count characters or matches are integers; scores and
    embedding components are rationals. An absent optional field, and
    [undefined] in general, is [None]. *)

Record Metadata := { md_text : jsstring; md_source : jsstring }.

Record VectorRecord := {
  vr_id : jsstring;
  vr_values : option (list Q);
  vr_metadata : Metadata
}.

Record QueryArgs := {
  qa_vector : option (list Q);
  qa_topK : Z;
  qa_namespace : jsstring;
  qa_scoreThreshold : Q
}.

Record QueryMatch := {
  qm_id : jsstring;
  qm_score : Q;
  qm_metadata : Metadata
}.

Record ChatArgs := { ca_model : jsstring; ca_system : jsstring; ca_user : jsstring }.

Record AskResult := { ar_text : jsstring; ar_sources : list jsstring }.

Record AIConfig := { ai_model : option jsstring }.
Record VectorStoreConfig := { vs_namespace : option jsstring }.
Record ChunkConfig := { ck_size : option Z; ck_overlap : option Z }.
Record LimitsConfig := {
  lim_topK : option Z;
  lim_maxContextChars : option Z;
  lim_scoreThreshold : option Q
}.

(** [data: string | string[]]; [NoData] is an options object without the
    field. *)
Inductive DataPaths :=
| OnePath (path : jsstring)
| ManyPaths (paths : list jsstring)
| NoData.

(** The options object. The declared type has the field [namespace]
    ([co_namespace] here); the field [normalizeOptions] and [createCtxWindow]
    read for the required name of the window, which doubles as the default
    vector-store namespace, is [opts.indexName]. *)
Record CreateContextWindowOptions := {
  co_namespace : option jsstring;
  indexName : option jsstring;
  data : DataPaths;
  ai : option AIConfig;
  vectorStore : option VectorStoreConfig;
  chunk : option ChunkConfig;
  limits : option LimitsConfig
}.

Record NormalizedOptions := {
  no_indexName : jsstring;
  dataPaths : list (option jsstring);
  aiModel : jsstring;
  namespace : jsstring;
  chunkSize : Z;
  chunkOverlap : Z;
  topK : Z;
  maxContextChars : Z;
  scoreThreshold : Q
}.

Record GetContextWindowOptions := {
  gco_aiModel : option jsstring;
  gco_namespace : option jsstring;
  gco_topK : option Z;
  gco_maxContextChars : option Z;
  gco_scoreThreshold : option Q
}.

(** ** Effects

    Every collaborator is an asynchronous function. A call either resolves,
    rejects with the value thrown, or never settles. The program threads the
    state of the outside world through its calls and records each call, with
    its arguments and its outcome, in a trace. Console output is not
    modelled. *)

(** A thrown value. [JsError message] is [new Error(message)], the only kind
    the library makes itself. Any other value, such as an instance of a
    subclass of [Error] that prints its own name, an error of Node that
    prints its code, or a value that is no [Error] at all, is given by what
    the library can observe of it: whether it is an instance of [Error], its
    [message], and the string that [`${error}`] gives. *)
Inductive jserror :=
| JsError (message : jsstring)
| JsThrown (instanceOfError : bool) (message : jsstring) (text : jsstring).

(** [`${error}`]. For [new Error(message)] this is [Error.prototype.toString]:
    the name alone when the message is empty. *)
Definition errorToString (e : jserror) : jsstring :=
  match e with
  | JsError [] => js "Error"
  | JsError message => js "Error: " ++ message
  | JsThrown _ _ text => text
  end.

(** [error instanceof Error] and [error.message]. *)
Definition instanceOfErr (e : jserror) : bool :=
  match e with
  | JsError _ => true
  | JsThrown isError _ _ => isError
  end.

Definition errorMessage (e : jserror) : jsstring :=
  match e with
  | JsError message => message
  | JsThrown _ message _ => message
  end.

Inductive outcome (A : Type) :=
| Ok (a : A)
| Throw (e : jserror)
| Diverge.
Arguments Ok {A} a.
Arguments Throw {A} e.
Arguments Diverge {A}.

(** What evaluating a call gives to its caller: the value returned, or an
    exception thrown at the call. *)
Inductive completion (A : Type) :=
| Returns (a : A)
| Raises (e : jserror).
Arguments Returns {A} a.
Arguments Raises {A} e.

Record Stats := { st_isFile : bool; st_isDirectory : bool }.
Record Dirent := { de_name : jsstring; de_isDirectory : bool; de_isFile : bool }.

Inductive event :=
| EEmbed (texts : list jsstring) (res : outcome (list (list Q)))
| EChat (args : ChatArgs) (res : outcome jsstring)
| EUpsert (records : list VectorRecord) (ns : jsstring) (res : outcome unit)
| EQuery (args : QueryArgs) (res : outcome (list QueryMatch))
| EEnsureIndex (dimension : Z) (res : outcome unit)
| EStat (path : option jsstring) (res : outcome Stats)
| EReaddir (path : jsstring) (res : outcome (list Dirent))
| EReadAsText (path : jsstring) (res : outcome jsstring).

(** The collaborator an event is a call of. *)
Definition eventName (e : event) : jsstring :=
  match e with
  | EEmbed _ _ => js "embed"
  | EChat _ _ => js "chat"
  | EUpsert _ _ _ => js "upsert"
  | EQuery _ _ => js "query"
  | EEnsureIndex _ _ => js "ensurePineconeIndex"
  | EStat _ _ => js "stat"
  | EReaddir _ _ => js "readdir"
  | EReadAsText _ _ => js "readAsText"
  end.

Definition isUpsert (e : event) : bool :=
  match e with EUpsert _ _ _ => true | _ => false end.
Definition isChat (e : event) : bool :=
  match e with EChat _ _ => true | _ => false end.
Definition isFailedEmbed (e : event) : bool :=
  match e with EEmbed _ (Throw _) => true | _ => false end.
Definition isFileSystem (e : event) : bool :=
  match e with EStat _ _ | EReaddir _ _ => true | _ => false end.
Definition isRead (e : event) : bool :=
  match e with EReadAsText _ _ => true | _ => false end.
Definition isEmbed (e : event) : bool :=
  match e with EEmbed _ _ => true | _ => false end.

Section Effects.
Context {World : Type}.

Definition Async (A : Type) : Type := World -> outcome A * World.

Definition EmbedFn : Type := list jsstring -> Async (list (list Q)).
Definition ChatFn : Type := ChatArgs -> Async jsstring.
Definition UpsertFn : Type := list VectorRecord -> jsstring -> Async unit.
Definition QueryFn : Type := QueryArgs -> Async (list QueryMatch).

Record state := { world : World; trace : list event }.

Definition M (A : Type) : Type := state -> outcome A * state.

Definition ret {A} (a : A) : M A := fun s => (Ok a, s).
Definition throw {A} (e : jserror) : M A := fun s => (Throw e, s).
Definition diverge {A} : M A := fun s => (Diverge, s).

Definition bind {A B} (m : M A) (k : A -> M B) : M B :=
  fun s =>
    match m s with
    | (Ok a, s') => k a s'
    | (Throw e, s') => (Throw e, s')
    | (Diverge, s') => (Diverge, s')
    end.

(** [try { body } catch (error) { handler }]. *)
Definition tryCatch {A} (body : M A) (handler : jserror -> M A) : M A :=
  fun s =>
    match body s with
    | (Throw e, s') => handler e s'
    | r => r
    end.

(** [await collaborator(args)], recorded in the trace. *)
Definition call {A} (ev : outcome A -> event) (h : Async A) : M A :=
  fun s =>
    let '(r, w) := h (world s) in
    (r, {| world := w; trace := trace s ++ [ev r] |}).

Definition liftOutcome {A} (r : outcome A) : M A := fun s => (r, s).

(** The call of an [async function]. Nothing is thrown at the caller:
    whatever the body throws, before its first [await] as well as after it,
    settles the promise that the call returns. The promise is given by the
    outcome it settles with. *)
Definition asyncFunction {A} (body : M A)
    : state -> completion (outcome A) * state :=
  fun s => let '(r, s') := body s in (Returns r, s').

End Effects.
Arguments state World : clear implicits.
Arguments M World A : clear implicits.
Arguments Async World A : clear implicits.
Arguments EmbedFn World : clear implicits.
Arguments ChatFn World : clear implicits.
Arguments UpsertFn World : clear implicits.
Arguments QueryFn World : clear implicits.

Declare Scope js_scope.
Delimit Scope js_scope with js.
Notation "x <- m ;; k" := (bind m (fun x => k))
  (at level 100, m at next level, right associativity) : js_scope.
Notation "m ;;; k" := (bind m (fun _ => k))
  (at level 100, right associativity) : js_scope.

(** [for (const x of xs) { acc = body(acc, x) }]. *)
Fixpoint forEachM {World A S} (body : S -> A -> M World S) (xs : list A) (acc : S)
    : M World S :=
  match xs with
  | [] => ret acc
  | x :: xs' => bind (body acc x) (forEachM body xs')
  end.

(** What the library takes from its environment: the OpenAI and Pinecone
    adapters, the file system, the text extractor and Node's [path]. *)
Class Platform (World : Type) := {
  createOpenAIEmbed : EmbedFn World;
  createOpenAIChat : ChatFn World;
  createPineconeUpsert : UpsertFn World;
  createPineconeQuery : QueryFn World;
  ensurePineconeIndex : Z -> Async World unit;
  stat : jsstring -> Async World Stats;
  readdir : jsstring -> Async World (list Dirent);
  readAsText : jsstring -> Async World jsstring;
  join : jsstring -> jsstring -> jsstring;
  basename : jsstring -> jsstring;
  extname : jsstring -> jsstring;
  toLowerCase : jsstring -> jsstring
}.

(** ** io/readers.ts *)

Definition isSupportedFile {World : Type} {P : Platform World}
    (filepath : jsstring) : bool :=
  let ext := toLowerCase (extname filepath) in
  bool_decide (ext ∈ [js ".txt"; js ".md"; js ".pdf"]).

(** ** io/ingest.ts *)

Record IngestOptions (World : Type) := {
  inputs : list (option jsstring);
  io_namespace : jsstring;
  io_chunkSize : Z;
  io_chunkOverlap : Z;
  embed : EmbedFn World;
  upsert : UpsertFn World
}.
Arguments inputs {World} _.
Arguments io_namespace {World} _.
Arguments io_chunkSize {World} _.
Arguments io_chunkOverlap {World} _.
Arguments embed {World} _.
Arguments upsert {World} _.

(** The id of chunk [i] of [filepath]:
    [stableHash(`${filepath}#${i}:${preview}`)] where [preview] is
    [chunk.slice(0, 64).replace(/\s+/g, " ")]. *)
Definition preview (chunk : jsstring) : jsstring :=
  replaceWhitespaceRuns false (slice chunk 0 64).

Definition chunkId (filepath : jsstring) (i : nat) (chunk : jsstring) : jsstring :=
  stableHash (filepath ++ js "#" ++ decimal i ++ js ":" ++ preview chunk).

Definition makeRecord (filepath source : jsstring) (i : nat) (chunk : jsstring)
    : VectorRecord :=
  {| vr_id := chunkId filepath i chunk;
     vr_values := Some [];
     vr_metadata := {| md_text := chunk; md_source := source |} |}.

Definition setValues (v : option (list Q)) (r : VectorRecord) : VectorRecord :=
  {| vr_id := vr_id r; vr_values := v; vr_metadata := vr_metadata r |}.

Definition batchSize : nat := 100.

(** The values [i] takes in [for (let i = 0; i < n; i += batchSize)]. *)
Definition batchStarts (n : nat) : list nat :=
  map (fun k => k * batchSize)%nat (seq 0 ((n + batchSize - 1) / batchSize)).

(** What [chunks.push] throws when the array cannot grow any more. *)
Definition rangeError : jserror :=
  JsThrown true (js "Invalid array length") (js "RangeError: Invalid array length").

(** The call [chunkText(text, { size, overlap })] as it ends: with its
    chunks, or with [rangeError] when the window never advances and the loop
    pushes chunks until the array is full. A loop that ends by itself does
    so within one iteration for each code unit of the text and one more
    ([chunkText_decided]). *)
Definition chunkTextRun (text : jsstring) (size overlap : Z)
    : outcome (list jsstring) :=
  match chunkText (S (length text)) text size overlap with
  | Some chunks => Ok chunks
  | None => Throw rangeError
  end.

(** What [stat] of [fs/promises] rejects with when its argument is
    [undefined]: the argument is checked before the file system is touched,
    and an error of Node prints its code after its name. *)
Definition invalidPathError : jserror :=
  let message :=
    js "The " ++ [34] ++ js "path" ++ [34]
    ++ js " argument must be of type string or an instance of Buffer or URL. Received undefined" in
  JsThrown true message (js "TypeError [ERR_INVALID_ARG_TYPE]: " ++ message).

Section Ingest.
Context {World : Type} {P : Platform World}.

Local Open Scope js_scope.

(** [fuel] bounds the depth of the directory walk. An input is [None] when
    the options had no [data]: [stat(undefined)] is then called and rejects
    with [invalidPathError]. *)
Fixpoint collectFiles (fuel : nat) (paths : list (option jsstring))
    : M World (list jsstring) :=
  match fuel with
  | O => diverge
  | S fuel' =>
      forEachM (fun files input =>
        match input with
        | None =>
            call (EStat None) (fun w => (Throw invalidPathError, w));;;
            ret files
        | Some path =>
            stats <- call (EStat (Some path)) (stat path);;
            if st_isFile stats then
              if isSupportedFile path then ret (files ++ [path]) else ret files
            else if st_isDirectory stats then
              entries <- call (EReaddir path) (readdir path);;
              forEachM (fun files entry =>
                let fullPath := join path (de_name entry) in
                if de_isDirectory entry then
                  subFiles <- collectFiles fuel' [Some fullPath];;
                  ret (files ++ subFiles)
                else if de_isFile entry && isSupportedFile fullPath then
                  ret (files ++ [fullPath])
                else ret files) entries files
            else ret files
        end) paths []
  end.

(** The body of the loop over files: read, chunk, and append one record per
    chunk; a failure to read or to chunk is caught and the file skipped. *)
Definition processFile (chunkSize chunkOverlap : Z)
    (allRecords : list VectorRecord) (filepath : jsstring)
    : M World (list VectorRecord) :=
  tryCatch
    (text <- call (EReadAsText filepath) (readAsText filepath);;
     if (jslen text =? 0) || (jslen (trim text) =? 0) then ret allRecords
     else
       chunks <- liftOutcome (chunkTextRun text chunkSize chunkOverlap);;
       let source := basename filepath in
       ret (allRecords ++ imap (makeRecord filepath source) chunks))
    (fun error => ret allRecords).

(** The body of the loop over batches. [batch] shares its records with
    [allRecords], so assigning [batch[j].values] updates the record at
    index [i + j] of [allRecords]; [embeddings[j]] is [undefined] past the
    end of the reply. *)
Definition embedBatch (embed : EmbedFn World)
    (allRecords : list VectorRecord) (i : nat) : M World (list VectorRecord) :=
  let batch := slice allRecords (Z.of_nat i) (Z.of_nat i + Z.of_nat batchSize) in
  let texts := map (fun r => md_text (vr_metadata r)) batch in
  tryCatch
    (embeddings <- call (EEmbed texts) (embed texts);;
     ret (foldl (fun recs j => alter (setValues (embeddings !! j)) (i + j)%nat recs)
            allRecords (seq 0 (length batch))))
    (fun error =>
       throw (JsError (js "Embedding batch failed: " ++ errorToString error))).

Definition ingestPaths (fuel : nat) (options : IngestOptions World) : M World unit :=
  files <- collectFiles fuel (inputs options);;
  if (length files =? 0)%nat then ret tt
  else
    allRecords <-
      forEachM (processFile (io_chunkSize options) (io_chunkOverlap options))
        files [];;
    if (length allRecords =? 0)%nat then ret tt
    else
      allRecords <-
        forEachM (embedBatch (embed options)) (batchStarts (length allRecords))
          allRecords;;
      call (EUpsert allRecords (io_namespace options))
        (upsert options allRecords (io_namespace options)).

End Ingest.

(** ** core/ContextWindow.ts *)

(** [a?.f]. *)
Definition optChain {A B} (o : option A) (f : A -> option B) : option B :=
  match o with Some a => f a | None => None end.

(** [v || d]: the default replaces [undefined] and every falsy value, that
    is the empty string and the number 0. *)
Definition orString (v : option jsstring) (d : jsstring) : jsstring :=
  match v with
  | Some s => if (jslen s =? 0) then d else s
  | None => d
  end.

Definition orNumber (v : option Z) (d : Z) : Z :=
  match v with
  | Some n => if n =? 0 then d else n
  | None => d
  end.

Definition orScore (v : option Q) (d : Q) : Q :=
  match v with
  | Some q => if Qeq_bool q 0 then d else q
  | None => d
  end.

(** [!s] for an optional string. *)
Definition isFalsyString (v : option jsstring) : bool :=
  match v with
  | Some s => jslen s =? 0
  | None => true
  end.

Definition normalizeOptions (opts : CreateContextWindowOptions)
    : outcome NormalizedOptions :=
  let dataPaths :=
    match data opts with
    | ManyPaths paths => map Some paths
    | OnePath path => [Some path]
    | NoData => [None]
    end in
  let aiModel := orString (optChain (ai opts) ai_model) (js "gpt-4o-mini") in
  let namespace :=
    orString (optChain (vectorStore opts) vs_namespace)
      (default [] (indexName opts)) in
  let chunkSize := orNumber (optChain (chunk opts) ck_size) 1000 in
  let chunkOverlap := orNumber (optChain (chunk opts) ck_overlap) 150 in
  let topK := orNumber (optChain (limits opts) lim_topK) 8 in
  let maxContextChars := orNumber (optChain (limits opts) lim_maxContextChars) 8000 in
  let scoreThreshold := orScore (optChain (limits opts) lim_scoreThreshold) 0 in
  if isFalsyString (indexName opts) then
    Throw (JsError (js "indexName is required"))
  else if (length dataPaths =? 0)%nat then
    Throw (JsError (js "at least one data path is required"))
  else
    Ok {| no_indexName := default [] (indexName opts);
          dataPaths := dataPaths;
          aiModel := aiModel;
          namespace := namespace;
          chunkSize := chunkSize;
          chunkOverlap := chunkOverlap;
          topK := topK;
          maxContextChars := maxContextChars;
          scoreThreshold := scoreThreshold |}.

Record PackState := {
  ps_chunks : list jsstring;
  ps_sources : list jsstring;
  ps_seenSources : gset jsstring;
  ps_totalChars : Z
}.

(** The [for (const match of matches)] loop of [packContext], with its
    [break]. *)
Fixpoint packLoop (matches : list QueryMatch) (maxContextChars : Z)
    (st : PackState) : PackState :=
  match matches with
  | [] => st
  | m :: rest =>
      let chunk := md_text (qm_metadata m) in
      let source := md_source (qm_metadata m) in
      if ps_totalChars st + jslen chunk >? maxContextChars then st
      else
        let seen := bool_decide (source ∈ ps_seenSources st) in
        packLoop rest maxContextChars
          {| ps_chunks := ps_chunks st ++ [chunk];
             ps_sources := if seen then ps_sources st else ps_sources st ++ [source];
             ps_seenSources :=
               if seen then ps_seenSources st else {[ source ]} ∪ ps_seenSources st;
             ps_totalChars := ps_totalChars st + jslen chunk |}
  end.

Definition packInit : PackState :=
  {| ps_chunks := []; ps_sources := []; ps_seenSources := ∅; ps_totalChars := 0 |}.

Definition separator : jsstring := [10; 10] ++ js "---" ++ [10; 10].

Record PackedContext := { context : jsstring; sources : list jsstring }.

Definition packContext (matches : list QueryMatch) (maxContextChars : Z)
    : PackedContext :=
  let st := packLoop matches maxContextChars packInit in
  {| context := joinWith separator (ps_chunks st); sources := ps_sources st |}.

Definition unknownAnswer : jsstring := js "I don't know based on the uploaded files.".

Definition buildSystemPrompt (context : jsstring) : jsstring :=
  js "You are a strict RAG assistant." ++ [10; 10]
  ++ js "Answer ONLY using the provided context. If not fully supported," ++ [10]
  ++ js "say: " ++ [34] ++ unknownAnswer ++ [34] ++ [10]
  ++ js "Cite sources like [filename]. Keep answers concise." ++ [10; 10]
  ++ js "Context:" ++ [10]
  ++ context.

(** A context window is an object with one method. *)
Record ContextWindow (World : Type) := {
  ask : jsstring -> M World AskResult
}.
Arguments ask {World} _ _.

Section ContextWindow.
Context {World : Type} {P : Platform World}.

Local Open Scope js_scope.

(** The body [createContextWindow] and [createContextWindowWithoutIngestion]
    both give to [ask]; it closes over the configuration and over the
    [embed], [query] and [chat] adapters. *)
Definition askWith (aiModel namespace : jsstring) (topK maxContextChars : Z)
    (scoreThreshold : Q) (question : jsstring) : M World AskResult :=
  vectors <- call (EEmbed [question]) (createOpenAIEmbed [question]);;
  let questionVector := head vectors in
  let args := {| qa_vector := questionVector; qa_topK := topK;
                 qa_namespace := namespace;
                 qa_scoreThreshold := scoreThreshold |} in
  matches <- call (EQuery args) (createPineconeQuery args);;
  let packed := packContext matches maxContextChars in
  if (jslen (context packed) =? 0) || (jslen (trim (context packed)) =? 0) then
    ret {| ar_text := unknownAnswer; ar_sources := [] |}
  else
    let systemPrompt := buildSystemPrompt (context packed) in
    let cargs := {| ca_model := aiModel; ca_system := systemPrompt;
                    ca_user := question |} in
    answer <- call (EChat cargs) (createOpenAIChat cargs);;
    ret {| ar_text := answer; ar_sources := sources packed |}.

Definition createContextWindowWithoutIngestion (indexName : jsstring)
    (options : option GetContextWindowOptions) : ContextWindow World :=
  let aiModel := orString (optChain options gco_aiModel) (js "gpt-4o-mini") in
  let namespace := orString (optChain options gco_namespace) indexName in
  let topK := orNumber (optChain options gco_topK) 8 in
  let maxContextChars := orNumber (optChain options gco_maxContextChars) 8000 in
  let scoreThreshold := orScore (optChain options gco_scoreThreshold) 0 in
  {| ask := askWith aiModel namespace topK maxContextChars scoreThreshold |}.

(** [fuel] bounds the depth of the directory walk of the ingestion. *)
Definition createContextWindow (fuel : nat) (opts : CreateContextWindowOptions)
    : M World (ContextWindow World) :=
  config <- liftOutcome (normalizeOptions opts);;
  call (EEnsureIndex 1536) (ensurePineconeIndex 1536);;;
  ingestPaths fuel
    {| inputs := dataPaths config;
       io_namespace := namespace config;
       io_chunkSize := chunkSize config;
       io_chunkOverlap := chunkOverlap config;
       embed := createOpenAIEmbed;
       upsert := createPineconeUpsert |};;;
  ret {| ask := askWith (aiModel config) (namespace config) (topK config)
                  (maxContextChars config) (scoreThreshold config) |}.

End ContextWindow.

(** ** core/registry.ts

    The module-level [Map] from names to context windows, passed explicitly.
    [createCtxWindow] is the one that registers under [opts.indexName], the
    field that [createContextWindow] requires. *)

Section Registry.
Context {World : Type} {P : Platform World}.

Local Open Scope js_scope.

Definition createCtxWindow (fuel : nat) (opts : CreateContextWindowOptions)
    (registry : gmap jsstring (ContextWindow World))
    : M World (ContextWindow World * gmap jsstring (ContextWindow World)) :=
  cw <- createContextWindow fuel opts;;
  ret (cw, <[default [] (indexName opts) := cw]> registry).

Definition getCtxWindow (namespace : jsstring)
    (options : option GetContextWindowOptions)
    (registry : gmap jsstring (ContextWindow World))
    : ContextWindow World * gmap jsstring (ContextWindow World) :=
  match registry !! namespace with
  | Some cw => (cw, registry)
  | None =>
      let cw := createContextWindowWithoutIngestion namespace options in
      (cw, <[namespace := cw]> registry)
  end.

Definition hasCtxWindow (namespace : jsstring)
    (registry : gmap jsstring (ContextWindow World)) : bool :=
  bool_decide (is_Some (registry !! namespace)).

Definition deleteCtxWindow (namespace : jsstring)
    (registry : gmap jsstring (ContextWindow World))
    : bool * gmap jsstring (ContextWindow World) :=
  (hasCtxWindow namespace registry, delete namespace registry).

Definition clearCtxWindows (registry : gmap jsstring (ContextWindow World))
    : gmap jsstring (ContextWindow World) := ∅.

End Registry.

(** * Vocabulary of the properties *)

Definition matchText (m : QueryMatch) : jsstring := md_text (qm_metadata m).

(** Total number of code units of a list of texts. *)
Definition totalLength (texts : list jsstring) : Z :=
  foldr (fun c n => jslen c + n) 0 texts.

Definition isBlank (s : jsstring) : Prop := Forall (fun c => isWhiteSpace c = true) s.

(** The arguments [ask] gives to the query collaborator. *)
Definition queryArgsOf (ns : jsstring) (topK : Z) (threshold : Q)
    (vectors : list (list Q)) : QueryArgs :=
  {| qa_vector := head vectors; qa_topK := topK; qa_namespace := ns;
     qa_scoreThreshold := threshold |}.

Definition isHexDigit (c : Z) : Prop := 48 <= c <= 57 \/ 97 <= c <= 102.

(** The files a run read, with what reading them gave, and the ids of the
    records each upsert call received. *)
Definition readsOf (tr : list event) : list (jsstring * outcome jsstring) :=
  omap (fun e => match e with EReadAsText path res => Some (path, res) | _ => None end) tr.

Definition upsertedIds (tr : list event) : list (list jsstring) :=
  omap (fun e => match e with EUpsert records _ _ => Some (map vr_id records) | _ => None end) tr.

(** The ids one read file contributes: none when the read failed or the
    text is blank, otherwise the id of each of its chunks in order; none
    again when no number of iterations ends the chunker's loop: the call
    then throws and the file is skipped. *)
Definition readIds (size overlap : Z) (read : jsstring * outcome jsstring)
    (ids : list jsstring) : Prop :=
  match read with
  | (path, Ok text) =>
      if (jslen text =? 0) || (jslen (trim text) =? 0) then ids = []
      else (exists fuel chunks,
              chunkText fuel text size overlap = Some chunks
              /\ ids = imap (chunkId path) chunks)
           \/ ((forall fuel, chunkText fuel text size overlap = None) /\ ids = [])
  | _ => ids = []
  end.

(** What reaches the store: nothing when no record was made, otherwise one
    call with all the ids. *)
Definition handedOver (idss : list (list jsstring)) : list (list jsstring) :=
  match concat idss with
  | [] => []
  | ids => [ids]
  end.

Section TraceVocabulary.
Context {World : Type}.

(** [m] only adds events satisfying [ok] to the trace. *)
Definition emits {A} (ok : event -> Prop) (m : M World A) : Prop :=
  forall s r s', m s = (r, s') ->
    exists evs, trace s' = trace s ++ evs /\ Forall ok evs.

(** [m] only adds [ok] events, and rejects whenever it added a [bad] one. *)
Definition failsOn {A} (ok bad : event -> Prop) (m : M World A) : Prop :=
  forall s r s', m s = (r, s') ->
    exists evs, trace s' = trace s ++ evs /\ Forall ok evs
      /\ (Exists bad evs -> exists err, r = Throw err).

(** [m] rejects whenever it added a [bad] event, and then all the events it
    added are [ok]. *)
Definition guards {A} (ok bad : event -> Prop) (m : M World A) : Prop :=
  forall s r s', m s = (r, s') ->
    exists evs, trace s' = trace s ++ evs
      /\ (Exists bad evs -> (exists err, r = Throw err) /\ Forall ok evs).

End TraceVocabulary.

(** * Test doubles

    A platform whose collaborators answer from a script; its world counts
    the calls made. Every path names a regular file. *)

Record Script := {
  sc_embed : list jsstring -> outcome (list (list Q));
  sc_query : outcome (list QueryMatch);
  sc_chat : outcome jsstring;
  sc_files : list (jsstring * jsstring);
  sc_dirs : list (jsstring * list Dirent)
}.

Definition lookupPath {A} (table : list (jsstring * A)) (path : jsstring) : option A :=
  snd <$> find (fun entry => bool_decide (fst entry = path)) table.

Definition readScripted (files : list (jsstring * jsstring)) (path : jsstring)
    : outcome jsstring :=
  match lookupPath files path with
  | Some text => Ok text
  | None => Throw (JsError (js "ENOENT"))
  end.

(** The part of a path from its last dot on. *)
Fixpoint fromLastDot (s : jsstring) (found : jsstring) : jsstring :=
  match s with
  | [] => found
  | c :: s' => fromLastDot s' (if c =? 46 then s else found)
  end.

Definition scripted (sc : Script) : Platform nat :=
  {| createOpenAIEmbed texts w := (sc_embed sc texts, S w);
     createOpenAIChat args w := (sc_chat sc, S w);
     createPineconeUpsert records ns w := (Ok tt, S w);
     createPineconeQuery args w := (sc_query sc, S w);
     ensurePineconeIndex dimension w := (Ok tt, S w);
     stat path w :=
       (let isDir := bool_decide (is_Some (lookupPath (sc_dirs sc) path)) in
        Ok {| st_isFile := negb isDir; st_isDirectory := isDir |}, S w);
     readdir path w := (Ok (default [] (lookupPath (sc_dirs sc) path)), S w);
     readAsText path w := (readScripted (sc_files sc) path, S w);
     join dir name := dir ++ js "/" ++ name;
     basename path := path;
     extname path := fromLastDot path [];
     toLowerCase s := s |}.

Definition start (w : nat) : state nat := {| world := w; trace := [] |}.

Definition mkMatch (text source : jsstring) : QueryMatch :=
  {| qm_id := source; qm_score := 1;
     qm_metadata := {| md_text := text; md_source := source |} |}.

Definition unitEmbedding (texts : list jsstring) : outcome (list (list Q)) :=
  Ok (map (fun _ => [1%Q]) texts).

Definition scriptedIngest (sc : Script) (paths : list jsstring) : IngestOptions nat :=
  {| inputs := map Some paths; io_namespace := js "ns";
     io_chunkSize := 1000; io_chunkOverlap := 150;
     embed := createOpenAIEmbed (Platform := scripted sc);
     upsert := createPineconeUpsert (Platform := scripted sc) |}.

Definition otherEmbed : EmbedFn nat :=
  fun texts w => (Ok (map (fun _ => [2%Q; 3%Q]) texts), (w + 5)%nat).

Definition noMatchesScript : Script :=
  {| sc_embed := unitEmbedding; sc_query := Ok [];
     sc_chat := Ok (js "unused"); sc_files := []; sc_dirs := [] |}.

Definition blankPairScript : Script :=
  {| sc_embed := unitEmbedding;
     sc_query := Ok [mkMatch [] (js "a.txt"); mkMatch [] (js "b.txt")];
     sc_chat := Ok (js "answer"); sc_files := []; sc_dirs := [] |}.

Definition blankMatchScript : Script :=
  {| sc_embed := unitEmbedding;
     sc_query := Ok [mkMatch (js "  ") (js "a.txt")];
     sc_chat := Ok (js "answer"); sc_files := []; sc_dirs := [] |}.

Definition failingEmbedScript : Script :=
  {| sc_embed := fun _ => Throw (JsError (js "rate limit"));
     sc_query := Ok []; sc_chat := Ok [];
     sc_files := [(js "a.txt", js "America was founded in 1776.")];
     sc_dirs := [] |}.

Definition bookScript : Script :=
  {| sc_embed := unitEmbedding; sc_query := Ok []; sc_chat := Ok [];
     sc_files := [(js "a.txt", js "America was founded in 1776.")];
     sc_dirs := [] |}.

Definition optionsWithoutName : CreateContextWindowOptions :=
  {| co_namespace := None; indexName := None; data := ManyPaths [js "book.txt"];
     ai := None; vectorStore := None; chunk := None; limits := None |}.

(** Options of the declared type, with [namespace] and without [indexName];
    options with [indexName] and without [namespace]; options without
    [data]. *)
Definition optionsWithNamespaceOnly : CreateContextWindowOptions :=
  {| co_namespace := Some (js "my-book"); indexName := None;
     data := ManyPaths [js "a.txt"];
     ai := None; vectorStore := None; chunk := None; limits := None |}.

Definition optionsWithoutNamespace : CreateContextWindowOptions :=
  {| co_namespace := None; indexName := Some (js "my-book");
     data := ManyPaths [js "a.txt"];
     ai := None; vectorStore := None; chunk := None; limits := None |}.

Definition optionsWithoutDataField : CreateContextWindowOptions :=
  {| co_namespace := Some (js "my-book"); indexName := Some (js "my-book");
     data := NoData;
     ai := None; vectorStore := None; chunk := None; limits := None |}.

Definition optionsWithoutData : CreateContextWindowOptions :=
  {| co_namespace := None; indexName := Some (js "my-book"); data := ManyPaths [];
     ai := None; vectorStore := None; chunk := None; limits := None |}.


Definition treeScript : Script :=
  {| sc_embed := unitEmbedding; sc_query := Ok []; sc_chat := Ok [];
     sc_files := [];
     sc_dirs :=
       [(js "docs",
         [{| de_name := js "a.txt"; de_isDirectory := false; de_isFile := true |};
          {| de_name := js "sub"; de_isDirectory := true; de_isFile := false |};
          {| de_name := js "logo.png"; de_isDirectory := false; de_isFile := true |}]);
        (js "docs/sub",
         [{| de_name := js "b.md"; de_isDirectory := false; de_isFile := true |}])] |}.

Definition firstOptions : IngestOptions nat :=
  {| inputs := [Some (js "a.txt")]; io_namespace := js "ns";
     io_chunkSize := 16; io_chunkOverlap := 4;
     embed := createOpenAIEmbed (Platform := scripted bookScript);
     upsert := createPineconeUpsert (Platform := scripted bookScript) |}.

Definition secondOptions : IngestOptions nat :=
  {| inputs := [Some (js "a.txt")]; io_namespace := js "ns";
     io_chunkSize := 16; io_chunkOverlap := 4;
     embed := otherEmbed;
     upsert := createPineconeUpsert (Platform := scripted bookScript) |}.

Definition firstRun : outcome unit * state nat :=
  ingestPaths (P := scripted bookScript) 50 firstOptions (start 0).

Definition secondRun : outcome unit * state nat :=
  ingestPaths (P := scripted bookScript) 60 secondOptions (start 7).

(** * The adapters over their clients

    The OpenAI and Pinecone adapters and the file reader, written over the
    calls they make to the SDK clients, to [fs/promises] and to [pdf-parse].
    The world of the adapters holds the two module-level client variables
    and a log of the calls made; [process.env] is a parameter. *)

Record Env := {
  OPENAI_API_KEY : option jsstring;
  PINECONE_API_KEY : option jsstring;
  PINECONE_INDEX : option jsstring;
  PINECONE_ENVIRONMENT : option jsstring
}.

(** [response.choices[i]] of a chat completion: the message may be absent
    and its content may be [null]. *)
Record ChatMessage := { cm_content : option jsstring }.
Record ChatChoice := { cc_message : option ChatMessage }.

(** [response.matches[i]] of a Pinecone query. *)
Record RawMetadata := { rm_text : option jsstring; rm_source : option jsstring }.
Record RawMatch := {
  rw_id : jsstring;
  rw_score : option Q;
  rw_metadata : option RawMetadata
}.

Inductive sdkCall :=
| SEmbeddingsCreate (client model : jsstring) (input : list jsstring)
| SChatCreate (client model system user : jsstring) (temperature : Q)
| SListIndexes (client : jsstring)
| SCreateIndex (client name : jsstring) (dimension : Z) (metric cloud region : jsstring)
| SDescribeIndex (client name : jsstring)
| SSleep (ms : Z)
| SIndexUpsert (client indexName ns : jsstring) (batch : list VectorRecord)
| SIndexQuery (client indexName ns : jsstring) (vector : option (list Q)) (topK : Z)
    (includeMetadata : bool)
| SReadFile (path : jsstring) (encoding : option jsstring)
| SPdf (buffer : list Z)
| SStat (path : jsstring)
| SReaddir (path : jsstring).

(** The calls the adapters make; a client is identified by the API key it
    was built with. *)
Class Sdk (W : Type) := {
  embeddingsCreate : jsstring -> jsstring -> list jsstring -> Async W (list (list Q));
  chatCompletionsCreate :
    jsstring -> jsstring -> jsstring -> jsstring -> Q -> Async W (list ChatChoice);
  listIndexes : jsstring -> Async W (option (list jsstring));
  createIndex : jsstring -> jsstring -> Z -> jsstring -> Async W unit;
  describeIndex : jsstring -> jsstring -> Async W (option bool);
  sleep : Z -> W -> W;
  indexUpsert : jsstring -> jsstring -> jsstring -> list VectorRecord -> Async W unit;
  indexQuery :
    jsstring -> jsstring -> jsstring -> option (list Q) -> Z
    -> Async W (option (list RawMatch));
  readFileText : jsstring -> Async W jsstring;
  readFileBuffer : jsstring -> Async W (list Z);
  pdf : list Z -> Async W jsstring;
  fsStat : jsstring -> Async W Stats;
  fsReaddir : jsstring -> Async W (list Dirent);
  pathJoin : jsstring -> jsstring -> jsstring;
  pathBasename : jsstring -> jsstring;
  pathExtname : jsstring -> jsstring;
  stringToLowerCase : jsstring -> jsstring
}.

Record NodeWorld (W : Type) := {
  nw_inner : W;
  nw_openaiClient : option jsstring;
  nw_pineconeClient : option jsstring;
  nw_calls : list sdkCall
}.
Arguments nw_inner {W} _.
Arguments nw_openaiClient {W} _.
Arguments nw_pineconeClient {W} _.
Arguments nw_calls {W} _.

Section AsyncCombinators.
Context {W : Type}.

Definition resolve {A} (a : A) : Async W A := fun w => (Ok a, w).
Definition reject {A} (e : jserror) : Async W A := fun w => (Throw e, w).

Definition andThen {A B} (m : Async W A) (k : A -> Async W B) : Async W B :=
  fun w =>
    match m w with
    | (Ok a, w') => k a w'
    | (Throw e, w') => (Throw e, w')
    | (Diverge, w') => (Diverge, w')
    end.

(** [try { body } catch (error) { handler }]. *)
Definition catch {A} (body : Async W A) (handler : jserror -> Async W A) : Async W A :=
  fun w =>
    match body w with
    | (Throw e, w') => handler e w'
    | r => r
    end.

Definition fromOutcome {A} (r : outcome A) : Async W A := fun w => (r, w).

(** [for (const x of xs) { await body(x) }]. *)
Fixpoint forEachAsync {A} (body : A -> Async W unit) (xs : list A) : Async W unit :=
  match xs with
  | [] => resolve tt
  | x :: xs' => andThen (body x) (fun _ => forEachAsync body xs')
  end.

End AsyncCombinators.

Declare Scope node_scope.
Delimit Scope node_scope with node.
Notation "x <- m ;; k" := (andThen m (fun x => k))
  (at level 100, m at next level, right associativity) : node_scope.
Notation "m ;;; k" := (andThen m (fun _ => k))
  (at level 100, right associativity) : node_scope.

(** A call to the SDK, logged. *)
Definition sdk {W A} (c : sdkCall) (h : Async W A) : Async (NodeWorld W) A :=
  fun st =>
    let '(r, w) := h (nw_inner st) in
    (r, {| nw_inner := w; nw_openaiClient := nw_openaiClient st;
           nw_pineconeClient := nw_pineconeClient st;
           nw_calls := nw_calls st ++ [c] |}).

(** [needle] occurs in [hay]: [hay.includes(needle)]. *)
Fixpoint startsWith (needle hay : jsstring) : bool :=
  match needle, hay with
  | [], _ => true
  | c :: needle', d :: hay' => (c =? d) && startsWith needle' hay'
  | _ :: _, [] => false
  end.

Fixpoint includes (needle hay : jsstring) : bool :=
  startsWith needle hay
  || match hay with
     | [] => false
     | _ :: hay' => includes needle hay'
     end.

(** ** adapters/ai/openai.ts *)

Module OpenAI.
Section OpenAI.
Context {W : Type} {K : Sdk W} (env : Env).

Local Open Scope node_scope.

Definition getOpenAIKey : outcome jsstring :=
  if isFalsyString (OPENAI_API_KEY env) then
    Throw (JsError (js "OPENAI_API_KEY environment variable is required. Get your key from https://platform.openai.com/api-keys"))
  else Ok (default [] (OPENAI_API_KEY env)).

Definition getClient : Async (NodeWorld W) jsstring :=
  fun st =>
    match nw_openaiClient st with
    | Some client => (Ok client, st)
    | None =>
        match getOpenAIKey with
        | Ok key =>
            (Ok key, {| nw_inner := nw_inner st; nw_openaiClient := Some key;
                        nw_pineconeClient := nw_pineconeClient st;
                        nw_calls := nw_calls st |})
        | Throw e => (Throw e, st)
        | Diverge => (Diverge, st)
        end
    end.

Definition createOpenAIEmbed (model : jsstring) : EmbedFn (NodeWorld W) :=
  fun texts =>
    if (length texts =? 0)%nat then resolve []
    else
      client <- getClient;;
      catch
        (sdk (SEmbeddingsCreate client model texts) (embeddingsCreate client model texts))
        (fun error =>
           reject (JsError (js "OpenAI embedding failed: " ++ errorToString error))).

Definition firstContent (choices : list ChatChoice) : option jsstring :=
  optChain (optChain (head choices) cc_message) cm_content.

Definition createOpenAIChat : ChatFn (NodeWorld W) :=
  fun args =>
    client <- getClient;;
    catch
      (choices <-
         sdk (SChatCreate client (ca_model args) (ca_system args) (ca_user args) (1 # 10))
           (chatCompletionsCreate client (ca_model args) (ca_system args)
              (ca_user args) (1 # 10));;
       resolve (orString (firstContent choices) []))
      (fun error =>
         reject (JsError (js "OpenAI chat completion failed: " ++ errorToString error))).

End OpenAI.
End OpenAI.

(** ** adapters/store/pinecone.ts *)

Record PineconeConfig := {
  pc_apiKey : jsstring;
  pc_indexName : jsstring;
  pc_environment : jsstring
}.

Module Pinecone.
Section Pinecone.
Context {W : Type} {K : Sdk W} (env : Env).

Local Open Scope node_scope.

Definition getPineconeConfig : outcome PineconeConfig :=
  let indexName := orString (PINECONE_INDEX env) (js "context-window") in
  let environment := orString (PINECONE_ENVIRONMENT env) (js "us-east-1") in
  if isFalsyString (PINECONE_API_KEY env) then
    Throw (JsError (js "PINECONE_API_KEY environment variable is required. Get your key from https://app.pinecone.io/"))
  else
    Ok {| pc_apiKey := default [] (PINECONE_API_KEY env);
          pc_indexName := indexName; pc_environment := environment |}.

Definition getClient : Async (NodeWorld W) jsstring :=
  fun st =>
    match nw_pineconeClient st with
    | Some client => (Ok client, st)
    | None =>
        match getPineconeConfig with
        | Ok config =>
            (Ok (pc_apiKey config),
             {| nw_inner := nw_inner st; nw_openaiClient := nw_openaiClient st;
                nw_pineconeClient := Some (pc_apiKey config);
                nw_calls := nw_calls st |})
        | Throw e => (Throw e, st)
        | Diverge => (Diverge, st)
        end
    end.

(** The [while (!ready && attempts < maxAttempts)] loop; [remaining] is
    [maxAttempts - attempts]. It returns the last value of [ready]. *)
Fixpoint waitUntilReady (client indexName : jsstring) (remaining : nat)
    : Async (NodeWorld W) bool :=
  match remaining with
  | O => resolve false
  | S remaining' =>
      description <- sdk (SDescribeIndex client indexName) (describeIndex client indexName);;
      if default false description then resolve true
      else
        sdk (SSleep 2000) (fun w => (Ok tt, sleep 2000 w));;;
        waitUntilReady client indexName remaining'
  end.

Definition maxAttempts : nat := 30.

Definition ensurePineconeIndex (dimension : Z) : Async (NodeWorld W) unit :=
  client <- getClient;;
  config <- fromOutcome getPineconeConfig;;
  catch
    (indexes <- sdk (SListIndexes client) (listIndexes client);;
     let indexExists :=
       match indexes with
       | Some names => bool_decide (pc_indexName config ∈ names)
       | None => false
       end in
     if indexExists then resolve tt
     else
       sdk (SCreateIndex client (pc_indexName config) dimension (js "cosine") (js "aws")
              (pc_environment config))
         (createIndex client (pc_indexName config) dimension (pc_environment config));;;
       ready <- waitUntilReady client (pc_indexName config) maxAttempts;;
       if ready then resolve tt
       else
         reject (JsError (js "Index " ++ pc_indexName config
                            ++ js " creation timed out after "
                            ++ decimal (maxAttempts * 2) ++ js " seconds")))
    (fun error =>
       reject (JsError (js "Failed to ensure Pinecone index: " ++ errorToString error))).

Definition createPineconeUpsert : UpsertFn (NodeWorld W) :=
  fun records namespace =>
    if (length records =? 0)%nat then resolve tt
    else
      client <- getClient;;
      config <- fromOutcome getPineconeConfig;;
      catch
        (forEachAsync
           (fun i =>
              let batch := slice records (Z.of_nat i) (Z.of_nat i + Z.of_nat batchSize) in
              sdk (SIndexUpsert client (pc_indexName config) namespace batch)
                (indexUpsert client (pc_indexName config) namespace batch))
           (batchStarts (length records)))
        (fun error =>
           reject (JsError (js "Pinecone upsert failed: " ++ errorToString error))).

(** [match.score !== undefined && match.score >= scoreThreshold]. *)
Definition scoreAtLeast (scoreThreshold : Q) (m : RawMatch) : bool :=
  match rw_score m with
  | Some score => Qle_bool scoreThreshold score
  | None => false
  end.

Definition toQueryMatch (m : RawMatch) : QueryMatch :=
  {| qm_id := rw_id m;
     qm_score := default 0%Q (rw_score m);
     qm_metadata :=
       {| md_text := orString (optChain (rw_metadata m) rm_text) [];
          md_source := orString (optChain (rw_metadata m) rm_source) [] |} |}.

Definition createPineconeQuery : QueryFn (NodeWorld W) :=
  fun args =>
    client <- getClient;;
    config <- fromOutcome getPineconeConfig;;
    catch
      (response <-
         sdk (SIndexQuery client (pc_indexName config) (qa_namespace args)
                (qa_vector args) (qa_topK args) true)
           (indexQuery client (pc_indexName config) (qa_namespace args)
              (qa_vector args) (qa_topK args));;
       resolve (map toQueryMatch
                  (filter (fun m => scoreAtLeast (qa_scoreThreshold args) m = true)
                     (default [] response))))
      (fun error =>
         reject (JsError (js "Pinecone query failed: " ++ errorToString error))).

End Pinecone.
End Pinecone.

(** ** io/readers.ts *)

Module Readers.
Section Readers.
Context {W : Type} {K : Sdk W}.

Local Open Scope node_scope.

Definition unsupportedError (ext : jsstring) : jserror :=
  JsError (js "Unsupported file type: " ++ ext
             ++ js ". Supported types: .txt, .md, .pdf").

Definition readAsText (filepath : jsstring) : Async (NodeWorld W) jsstring :=
  let ext := stringToLowerCase (pathExtname filepath) in
  catch
    (if bool_decide (ext = js ".txt") || bool_decide (ext = js ".md") then
       sdk (SReadFile filepath (Some (js "utf-8"))) (readFileText filepath)
     else if bool_decide (ext = js ".pdf") then
       dataBuffer <- sdk (SReadFile filepath None) (readFileBuffer filepath);;
       sdk (SPdf dataBuffer) (pdf dataBuffer)
     else reject (unsupportedError ext))
    (fun error =>
       if instanceOfErr error && includes (js "Unsupported") (errorMessage error)
       then reject error
       else
         reject (JsError (js "Failed to read file " ++ filepath ++ js ": "
                            ++ errorToString error))).

Definition isSupportedFile (filepath : jsstring) : bool :=
  let ext := stringToLowerCase (pathExtname filepath) in
  bool_decide (ext ∈ [js ".txt"; js ".md"; js ".pdf"]).

End Readers.
End Readers.

(** The library on Node: the platform made of the adapters above. *)
Definition nodePlatform {W : Type} {K : Sdk W} (env : Env) : Platform (NodeWorld W) :=
  {| createOpenAIEmbed := OpenAI.createOpenAIEmbed env (js "text-embedding-3-small");
     createOpenAIChat := OpenAI.createOpenAIChat env;
     createPineconeUpsert := Pinecone.createPineconeUpsert env;
     createPineconeQuery := Pinecone.createPineconeQuery env;
     ensurePineconeIndex := Pinecone.ensurePineconeIndex env;
     stat path := sdk (SStat path) (fsStat path);
     readdir path := sdk (SReaddir path) (fsReaddir path);
     readAsText := Readers.readAsText;
     join := pathJoin;
     basename := pathBasename;
     extname := pathExtname;
     toLowerCase := stringToLowerCase |}.

(** * Further vocabulary *)

Definition matchSource (m : QueryMatch) : jsstring := md_source (qm_metadata m).

(** A list without its repetitions, each element at its first occurrence. *)
Definition firstSeen (l : list jsstring) : list jsstring :=
  reverse (remove_dups (reverse l)).

(** The error a recorded call rejected with, if it did. *)
Definition outcomeError {A} (r : outcome A) : option jserror :=
  match r with Throw e => Some e | _ => None end.

Definition eventError (e : event) : option jserror :=
  match e with
  | EEmbed _ r => outcomeError r
  | EChat _ r => outcomeError r
  | EUpsert _ _ r => outcomeError r
  | EQuery _ r => outcomeError r
  | EEnsureIndex _ r => outcomeError r
  | EStat _ r => outcomeError r
  | EReaddir _ r => outcomeError r
  | EReadAsText _ r => outcomeError r
  end.

(** The error [ingestPaths] rejects with after a call that is fatal to it:
    a rejected [stat], [readdir] or [upsert] passes its error on, a rejected
    embedding call has it wrapped. A rejected [readAsText] is not fatal. *)
Definition ingestError (e : event) : option jserror :=
  match e with
  | EStat _ (Throw err) | EReaddir _ (Throw err) | EUpsert _ _ (Throw err) => Some err
  | EEmbed _ (Throw err) =>
      Some (JsError (js "Embedding batch failed: " ++ errorToString err))
  | _ => None
  end.

Section MoreTraceVocabulary.
Context {World : Type}.

(** [m] rejects exactly when the last event it added is a rejected call
    that [errOf] maps to the error. *)
Definition rejectsExactly {A} (errOf : event -> option jserror) (m : M World A) : Prop :=
  forall s r s', m s = (r, s') ->
    exists evs, trace s' = trace s ++ evs
      /\ forall err, r = Throw err <-> exists ev, last evs = Some ev /\ errOf ev = Some err.

(** [m] rejects with errors of [Q] only. *)
Definition rejectsOnly {A} (Q : jserror -> Prop) (m : M World A) : Prop :=
  forall s e s', m s = (Throw e, s') -> Q e.

End MoreTraceVocabulary.

(** An error made by wrapping another one behind [prefix]. *)
Definition wrapped (prefix : jsstring) (e : jserror) : Prop :=
  exists cause, e = JsError (prefix ++ errorToString cause).

(** An event that is not the reading of an unsupported file. *)
Definition readsSupported {World : Type} {P : Platform World} (e : event) : Prop :=
  forall path res, e = EReadAsText path res -> isSupportedFile path = true.

Definition recordText (r : VectorRecord) : jsstring := md_text (vr_metadata r).

(** The batches of texts a run sent to the embedding collaborator, the
    replies it got, and the records each upsert call received. *)
Definition embeddedTexts (tr : list event) : list (list jsstring) :=
  omap (fun e => match e with EEmbed texts _ => Some texts | _ => None end) tr.

Definition embedReplies (tr : list event) : list (list (list Q)) :=
  omap (fun e => match e with EEmbed _ (Ok reply) => Some reply | _ => None end) tr.

Definition upsertedRecords (tr : list event) : list (list VectorRecord) :=
  omap (fun e => match e with EUpsert records _ _ => Some records | _ => None end) tr.

(** * Further test doubles *)

Definition rejectingQueryScript : Script :=
  {| sc_embed := unitEmbedding; sc_query := Throw (JsError (js "503"));
     sc_chat := Ok (js "unused"); sc_files := []; sc_dirs := [] |}.

Definition answeringScript : Script :=
  {| sc_embed := unitEmbedding;
     sc_query := Ok [mkMatch (js "America was founded in 1776.") (js "a.txt");
                     mkMatch (js "It has fifty states.") (js "a.txt")];
     sc_chat := Ok (js "In 1776 [a.txt]"); sc_files := []; sc_dirs := [] |}.

Definition missingPathScript : Script :=
  {| sc_embed := unitEmbedding; sc_query := Ok []; sc_chat := Ok [];
     sc_files := [(js "a.txt", js "America was founded in 1776.")];
     sc_dirs := [] |}.

Definition missingPathOptions : IngestOptions nat :=
  {| inputs := [Some (js "b.txt"); Some (js "a.txt")]; io_namespace := js "ns";
     io_chunkSize := 16; io_chunkOverlap := 4;
     embed := createOpenAIEmbed (Platform := scripted missingPathScript);
     upsert := createPineconeUpsert (Platform := scripted missingPathScript) |}.

Definition missingPathRun : outcome unit * state nat :=
  ingestPaths (P := scripted missingPathScript) 50 missingPathOptions (start 0).

Definition treeOptions : IngestOptions nat :=
  {| inputs := [Some (js "docs"); Some (js "logo.png")]; io_namespace := js "ns";
     io_chunkSize := 1000; io_chunkOverlap := 150;
     embed := createOpenAIEmbed (Platform := scripted treeScript);
     upsert := createPineconeUpsert (Platform := scripted treeScript) |}.

Definition treeRun : outcome unit * state nat :=
  ingestPaths (P := scripted treeScript) 5 treeOptions (start 0).

Definition stuckScript : Script :=
  {| sc_embed := unitEmbedding; sc_query := Ok []; sc_chat := Ok [];
     sc_files := [(js "a.txt", js "abcdefghij")]; sc_dirs := [] |}.

(** An embedding collaborator that answers with one vector only, whatever
    the number of texts. *)
Definition shortEmbed (texts : list jsstring) : outcome (list (list Q)) :=
  Ok [[7%Q]].

Definition shortReplyScript : Script :=
  {| sc_embed := shortEmbed; sc_query := Ok []; sc_chat := Ok [];
     sc_files := [(js "a.txt", js "America was founded in 1776.")];
     sc_dirs := [] |}.

Definition shortReplyOptions : IngestOptions nat :=
  {| inputs := [Some (js "a.txt")]; io_namespace := js "ns";
     io_chunkSize := 16; io_chunkOverlap := 4;
     embed := createOpenAIEmbed (Platform := scripted shortReplyScript);
     upsert := createPineconeUpsert (Platform := scripted shortReplyScript) |}.

Definition shortReplyRun : outcome unit * state nat :=
  ingestPaths (P := scripted shortReplyScript) 50 shortReplyOptions (start 0).

Definition bookOptions : CreateContextWindowOptions :=
  {| co_namespace := None; indexName := Some (js "my-book"); data := ManyPaths [js "a.txt"];
     ai := None; vectorStore := None;
     chunk := Some {| ck_size := Some 16; ck_overlap := Some 4 |};
     limits := None |}.


Definition bookWindowRun : outcome (ContextWindow nat) * state nat :=
  createContextWindow (P := scripted bookScript) 50 bookOptions (start 0).

Definition bookRegistryRun
    : outcome (ContextWindow nat * gmap jsstring (ContextWindow nat)) * state nat :=
  createCtxWindow (P := scripted bookScript) 50 bookOptions ∅ (start 0).






Definition openaiKeyError : jserror :=
  JsError (js "OPENAI_API_KEY environment variable is required. Get your key from https://platform.openai.com/api-keys").

Definition pineconeKeyError : jserror :=
  JsError (js "PINECONE_API_KEY environment variable is required. Get your key from https://app.pinecone.io/").

(** A scripted SDK over a world that counts the calls made. *)
Record SdkScript := {
  ss_embeddings : outcome (list (list Q));
  ss_choices : outcome (list ChatChoice);
  ss_indexes : outcome (option (list jsstring));
  ss_ready : nat -> option bool;
  ss_upsert : nat -> outcome unit;
  ss_matches : outcome (option (list RawMatch));
  ss_text : outcome jsstring
}.

Definition scriptedSdk (sc : SdkScript) : Sdk nat :=
  {| embeddingsCreate client model input w := (ss_embeddings sc, S w);
     chatCompletionsCreate client model system user temperature w :=
       (ss_choices sc, S w);
     listIndexes client w := (ss_indexes sc, S w);
     createIndex client name dimension region w := (Ok tt, S w);
     describeIndex client name w := (Ok (ss_ready sc w), S w);
     sleep ms w := S w;
     indexUpsert client indexName ns batch w := (ss_upsert sc w, S w);
     indexQuery client indexName ns vector topK w := (ss_matches sc, S w);
     readFileText path w := (ss_text sc, S w);
     readFileBuffer path w := (Ok [37; 80; 68; 70], S w);
     pdf buffer w := (ss_text sc, S w);
     fsStat path w := (Ok {| st_isFile := true; st_isDirectory := false |}, S w);
     fsReaddir path w := (Ok [], S w);
     pathJoin dir name := dir ++ js "/" ++ name;
     pathBasename path := path;
     pathExtname path := fromLastDot path [];
     stringToLowerCase s := s |}.

Definition fresh (w : nat) : NodeWorld nat :=
  {| nw_inner := w; nw_openaiClient := None; nw_pineconeClient := None;
     nw_calls := [] |}.

Definition fullEnv : Env :=
  {| OPENAI_API_KEY := Some (js "sk-test"); PINECONE_API_KEY := Some (js "pc-test");
     PINECONE_INDEX := None; PINECONE_ENVIRONMENT := None |}.

Definition emptyEnv : Env :=
  {| OPENAI_API_KEY := None; PINECONE_API_KEY := None;
     PINECONE_INDEX := None; PINECONE_ENVIRONMENT := None |}.

Definition rawMatch (id : jsstring) (score : option Q) (metadata : option RawMetadata)
    : RawMatch :=
  {| rw_id := id; rw_score := score; rw_metadata := metadata |}.

Definition quietSdk : SdkScript :=
  {| ss_embeddings := Ok [[1%Q]]; ss_choices := Ok [];
     ss_indexes := Ok (Some [js "context-window"]);
     ss_ready := fun _ => Some true; ss_upsert := fun _ => Ok tt;
     ss_matches :=
       Ok (Some [rawMatch (js "1") (Some (9 # 10))
                   (Some {| rm_text := Some (js "kept"); rm_source := None |});
                 rawMatch (js "2") (Some (1 # 10)) None;
                 rawMatch (js "3") None None;
                 rawMatch (js "4") (Some (1 # 2)) None]);
     ss_text := Ok (js "text") |}.

Definition thresholdArgs : QueryArgs :=
  {| qa_vector := Some [1%Q]; qa_topK := 8; qa_namespace := js "ns";
     qa_scoreThreshold := 1 # 2 |}.






(** A PDF the parser rejects with an exception of its own. *)
Definition brokenPdf : SdkScript :=
  {| ss_embeddings := Ok [[1%Q]]; ss_choices := Ok [];
     ss_indexes := Ok None;
     ss_ready := fun _ => Some true;
     ss_upsert := fun _ => Ok tt; ss_matches := Ok None;
     ss_text := Throw (JsThrown true (js "Invalid PDF structure")
                         (js "InvalidPDFException: Invalid PDF structure")) |}.

Definition openaiOnlyEnv : Env :=
  {| OPENAI_API_KEY := Some (js "sk-test"); PINECONE_API_KEY := Some [];
     PINECONE_INDEX := None; PINECONE_ENVIRONMENT := None |}.

(** An error the file system rejected a [stat] or a [readdir] with; for
    [stat], also the one it rejects an undefined path with. *)
Definition fsError {W : Type} {K : Sdk W} (e : jserror) : Prop :=
  (exists path w w', fsStat path w = (Throw e, w'))
  \/ (exists path w w', fsReaddir path w = (Throw e, w'))
  \/ e = invalidPathError.

(** A chat model that is down. *)
Definition chatDown : SdkScript :=
  {| ss_embeddings := Ok [[1%Q]]; ss_choices := Throw (JsError (js "503"));
     ss_indexes := Ok (Some [js "context-window"]);
     ss_ready := fun _ => Some true; ss_upsert := fun _ => Ok tt;
     ss_matches :=
       Ok (Some [rawMatch (js "1") (Some (9 # 10))
                   (Some {| rm_text := Some (js "kept"); rm_source := Some (js "a.txt") |})]);
     ss_text := Ok (js "text") |}.

(** An embedding model that is down. *)
Definition embedDown : SdkScript :=
  {| ss_embeddings := Throw (JsError (js "503")); ss_choices := Ok [];
     ss_indexes := Ok (Some [js "context-window"]);
     ss_ready := fun _ => Some true; ss_upsert := fun _ => Ok tt;
     ss_matches := Ok None; ss_text := Ok (js "some text to embed") |}.

Definition freshState (w : nat) : state (NodeWorld nat) :=
  {| world := fresh w; trace := [] |}.

(** * Properties *)

(** ** The model on the library's own examples *)

Example stableHash_abc :
  stableHash (js "abc") = js "a9993e364706816aba3e25717850c26c9cd0d89d".
Proof. vm_compute. reflexivity. Qed.

Example stableHash_empty :
  stableHash [] = js "da39a3ee5e6b4b0d3255bfef95601890afd80709".
Proof. vm_compute. reflexivity. Qed.

Example chunkText_short :
  chunkText 1 (js "Short text") 100 10 = Some [js "Short text"].
Proof. reflexivity. Qed.

Example chunkText_sliding :
  chunkText 10 (js "abcdefghij") 4 1 = Some [js "abcd"; js "defg"; js "ghij"].
Proof. reflexivity. Qed.

Example collectFiles_walk :
  fst (collectFiles (P := scripted treeScript) 3 [Some (js "docs"); Some (js "c.pdf")] (start 0))
  = Ok [js "docs/a.txt"; js "docs/sub/b.md"; js "c.pdf"].
Proof. vm_compute. reflexivity. Qed.

Example packContext_sources :
  sources (packContext [mkMatch (js "x") (js "a"); mkMatch (js "y") (js "b");
                        mkMatch (js "z") (js "a")] 8000)
  = [js "a"; js "b"].
Proof. vm_compute. reflexivity. Qed.

(** ** The chunker *)

Section ChunkerFacts.
Variables (text : jsstring) (size overlap : Z).

Lemma slice_nonneg {A} (s : list A) (a b : Z) :
  0 <= a -> 0 <= b ->
  slice s a b
  = take (Z.to_nat (Z.min b (jslen s) - Z.min a (jslen s)))
      (drop (Z.to_nat (Z.min a (jslen s))) s).
Proof.
  intros Ha Hb. unfold slice, relIndex.
  destruct (Z.ltb_spec a 0); [lia|]. destruct (Z.ltb_spec b 0); [lia|]. done.
Qed.

(** Running the loop longer does not change a result already reached. *)
Lemma chunkLoop_mono fuel fuel' start acc res :
  chunkLoop fuel text size overlap start acc = Some res ->
  (fuel <= fuel')%nat ->
  chunkLoop fuel' text size overlap start acc = Some res.
Proof.
  revert fuel' start acc. induction fuel as [|fuel IH]; intros fuel' start acc; [done|].
  destruct fuel' as [|fuel']; [lia|]. simpl.
  destruct (start <? jslen text); [|done].
  destruct (start + size >=? jslen text); [done|].
  intros Hrun Hle. apply IH; [done|lia].
Qed.

(** What the loop appends: window [k] starts [k] strides after [start], and
    every window but the last ends before the end of the text. *)
Lemma chunkLoop_windows fuel start acc res :
  chunkLoop fuel text size overlap start acc = Some res ->
  exists new : list jsstring,
    res = acc ++ new /\
    forall (k : nat) (c : jsstring), new !! k = Some c ->
      c = slice text (start + Z.of_nat k * (size - overlap))
            (start + Z.of_nat k * (size - overlap) + size)
      /\ ((S k < length new)%nat ->
          start + Z.of_nat k * (size - overlap) + size < jslen text).
Proof.
  revert start acc res. induction fuel as [|fuel IH]; intros start acc res; [done|].
  simpl. destruct (start <? jslen text).
  - destruct (Z.geb_spec (start + size) (jslen text)) as [Hend|Hend].
    + intros [= <-]. exists [slice text start (start + size)]. split; [done|].
      intros [|k] c; [|done]. intros [= <-]. simpl. split; [|lia].
      f_equal; lia.
    + intros Hrun. apply IH in Hrun as (new & -> & Hnew).
      exists (slice text start (start + size) :: new).
      split; [by rewrite <- app_assoc|].
      intros [|k] c Hk; simpl in Hk.
      * injection Hk as <-. split; [f_equal; lia|]. intros _. lia.
      * apply Hnew in Hk as [-> Hlt]. split; [f_equal; lia|].
        simpl. intros Hlen. specialize (Hlt ltac:(lia)). lia.
  - intros [= <-]. exists []. split; [by rewrite app_nil_r|]. by intros k c.
Qed.

(** Under the chunker's contract the start advances by at least one code
    unit per iteration, so [length text] iterations are enough. *)
Lemma chunkLoop_total fuel start acc :
  0 < size -> 0 <= overlap < size -> 0 <= start ->
  (Z.to_nat (jslen text - start) < fuel)%nat ->
  exists res, chunkLoop fuel text size overlap start acc = Some res.
Proof.
  intros Hsize Hov. revert start acc.
  induction fuel as [|fuel IH]; intros start acc Hstart Hfuel; [lia|].
  simpl. destruct (Z.ltb_spec start (jslen text)); [|by eexists].
  destruct (start + size >=? jslen text); [by eexists|].
  apply IH; lia.
Qed.

(** The start advances as soon as the overlap is smaller than the size. *)
Lemma chunkLoop_advancing fuel start acc :
  overlap < size -> 0 <= start ->
  (Z.to_nat (jslen text - start) < fuel)%nat ->
  exists res, chunkLoop fuel text size overlap start acc = Some res.
Proof.
  intros Hov. revert start acc.
  induction fuel as [|fuel IH]; intros start acc Hstart Hfuel; [lia|].
  simpl. destruct (Z.ltb_spec start (jslen text)); [|by eexists].
  destruct (start + size >=? jslen text); [by eexists|].
  apply IH; lia.
Qed.

(** With an overlap that is not smaller than the size the window never
    advances, and no number of iterations ends the loop. *)
Lemma chunkLoop_never_ends :
  0 < jslen text -> jslen text > size -> size <= overlap ->
  forall (fuel : nat) (start : Z) (acc : list jsstring),
    start <= 0 -> chunkLoop fuel text size overlap start acc = None.
Proof.
  intros Hne Hlong Hbad fuel.
  induction fuel as [|fuel IH]; intros start acc Hstart; [done|].
  simpl. destruct (Z.ltb_spec start (jslen text)); [|lia].
  destruct (Z.geb_spec (start + size) (jslen text)); [lia|].
  apply IH. lia.
Qed.

(** When one iteration for each code unit of the text and one more do not
    end the loop, no number of iterations does. *)
Lemma chunkText_decided :
  chunkText (S (length text)) text size overlap = None ->
  forall fuel : nat, chunkText fuel text size overlap = None.
Proof.
  unfold chunkText. destruct (Z.eqb_spec (jslen text) 0) as [|Hne]; [done|].
  destruct (Z.leb_spec (jslen text) size) as [|Hlong]; [done|].
  destruct (Z.lt_ge_cases overlap size) as [Hov|Hov].
  - destruct (chunkLoop_advancing (S (length text)) 0 []) as [res Hres];
      [done|done|unfold jslen; lia|]. by rewrite Hres.
  - intros _ fuel. apply chunkLoop_never_ends; unfold jslen in *; lia.
Qed.

End ChunkerFacts.

(** C7. For every text, every [size > 0] and every [0 <= overlap < size],
    [chunkText] terminates with a finite list of chunks: one result is
    returned by every run allowed more iterations than the text has code
    units. *)
Theorem chunkText_terminates (text : jsstring) (size overlap : Z) :
  0 < size -> 0 <= overlap < size ->
  exists chunks : list jsstring,
    forall fuel : nat, (length text < fuel)%nat ->
      chunkText fuel text size overlap = Some chunks.
Proof.
  intros Hsize Hov. unfold chunkText.
  destruct (jslen text =? 0); [by eexists|].
  destruct (jslen text <=? size); [by eexists|].
  destruct (chunkLoop_total text size overlap (S (length text)) 0 [])
    as [res Hres]; [done|done|done|unfold jslen; lia|].
  exists res. intros fuel Hfuel.
  eapply chunkLoop_mono; [exact Hres|lia].
Qed.

Lemma chunkText_terminates_witness :
  exists chunks : list jsstring,
    forall fuel : nat, (length (js "abcdefghij") < fuel)%nat ->
      chunkText fuel (js "abcdefghij") 4 1 = Some chunks.
Proof. apply chunkText_terminates; lia. Defined.

(** C4. For a text longer than [size], with [size > 0] and
    [0 <= overlap < size], any two consecutive chunks share exactly
    [overlap] code units: the last [overlap] code units of [chunks[i]] are
    the first [overlap] code units of [chunks[i+1]]. This holds for every
    consecutive pair, the one ending in the final chunk included. *)
Theorem chunkText_overlap (fuel : nat) (text : jsstring) (size overlap : Z)
    (chunks : list jsstring) (i : nat) (a b : jsstring) :
  jslen text > size -> 0 < size -> 0 <= overlap < size ->
  chunkText fuel text size overlap = Some chunks ->
  chunks !! i = Some a -> chunks !! S i = Some b ->
  drop (length a - Z.to_nat overlap) a = take (Z.to_nat overlap) b.
Proof.
  intros Hlong Hsize Hov. unfold chunkText.
  destruct (Z.eqb_spec (jslen text) 0); [lia|].
  destruct (Z.leb_spec (jslen text) size); [lia|].
  intros Hrun Ha Hb.
  apply chunkLoop_windows in Hrun as (new & -> & Hnew). simpl in Ha, Hb.
  pose proof (lookup_lt_Some _ _ _ Hb) as Hlen.
  apply Hnew in Ha as [-> Hend]. apply Hnew in Hb as [-> _].
  specialize (Hend Hlen).
  set (p := 0 + Z.of_nat i * (size - overlap)) in *.
  assert (Hp : 0 <= p) by (unfold p; nia).
  replace (0 + Z.of_nat (S i) * (size - overlap)) with (p + (size - overlap))
    by (unfold p; lia).
  rewrite !slice_nonneg by lia. unfold jslen in *.
  rewrite length_take, length_drop.
  rewrite skipn_firstn_comm, drop_drop, take_take.
  f_equal; [lia|]. f_equal. lia.
Qed.

Lemma chunkText_overlap_witness :
  drop (length (js "abcd") - Z.to_nat 1) (js "abcd") = take (Z.to_nat 1) (js "defg").
Proof.
  apply (chunkText_overlap 10 (js "abcdefghij") 4 1
           [js "abcd"; js "defg"; js "ghij"] 0);
    try reflexivity; cbn; lia.
Defined.

(** ** The context packer *)

Lemma totalLength_app (xs ys : list jsstring) :
  totalLength (xs ++ ys) = totalLength xs + totalLength ys.
Proof. induction xs as [|x xs IH]; simpl; [done|]. rewrite IH. lia. Qed.

Lemma totalLength_nonneg (xs : list jsstring) : 0 <= totalLength xs.
Proof. induction xs as [|x xs IH]; simpl; unfold jslen; lia. Qed.

(** The loop selects a prefix of the matches and keeps the running total
    equal to the length of what it selected; it stops at the first match
    that does not fit. *)
Lemma packLoop_prefix (matches : list QueryMatch) (maxChars : Z) (st : PackState) :
  ps_totalChars st = totalLength (ps_chunks st) ->
  ps_totalChars st <= maxChars ->
  exists k : nat,
    ps_chunks (packLoop matches maxChars st)
    = ps_chunks st ++ map matchText (take k matches)
    /\ totalLength (ps_chunks (packLoop matches maxChars st)) <= maxChars
    /\ forall m, matches !! k = Some m ->
         totalLength (ps_chunks (packLoop matches maxChars st)) + jslen (matchText m)
         > maxChars.
Proof.
  revert st. induction matches as [|m rest IH]; intros st Htot Hle.
  - exists 0%nat. simpl. rewrite app_nil_r. split; [done|]. split; [lia|done].
  - simpl. fold (matchText m).
    destruct (Z.gtb_spec (ps_totalChars st + jslen (matchText m)) maxChars) as [Hov|Hfit].
    + exists 0%nat. simpl. rewrite app_nil_r. split; [done|]. split; [lia|].
      intros m' [= <-]. lia.
    + match goal with |- context [packLoop rest maxChars ?st'] =>
        destruct (IH st') as (k & Hchunks & Hbound & Hstop) end.
      * simpl. rewrite totalLength_app. simpl. lia.
      * simpl. lia.
      * exists (S k). split; [|split; [exact Hbound|exact Hstop]].
        rewrite Hchunks. simpl. by rewrite <- app_assoc.
Qed.

(** C2. For every list of matches and every [maxChars > 0], [packContext]
    selects the texts of a prefix of the matches, joined by the separator;
    their total length, separators not counted, is at most [maxChars]; every
    match of the prefix fitted when it was reached; and the first match left
    out is one that would have pushed the total over [maxChars]. Nothing
    after it is selected, whatever its size. *)
Theorem packContext_budget (matches : list QueryMatch) (maxChars : Z) :
  0 < maxChars ->
  exists k : nat,
    let selected := map matchText (take k matches) in
    ps_chunks (packLoop matches maxChars packInit) = selected
    /\ context (packContext matches maxChars) = joinWith separator selected
    /\ totalLength selected <= maxChars
    /\ (forall j m, (j < k)%nat -> matches !! j = Some m ->
          totalLength (map matchText (take j matches)) + jslen (matchText m)
          <= maxChars)
    /\ (forall m, matches !! k = Some m ->
          totalLength selected + jslen (matchText m) > maxChars).
Proof.
  intros Hmax.
  destruct (packLoop_prefix matches maxChars packInit) as (k & Hchunks & Hbound & Hstop);
    [done|simpl; lia|].
  simpl in Hchunks. exists k. simpl. unfold packContext. simpl.
  rewrite Hchunks in *. repeat split; try done.
  intros j m Hj Hm.
  assert (Hsplit : take k matches = take j matches ++ m :: drop (S j) (take k matches)).
  { rewrite <- (take_drop j (take k matches)) at 1.
    rewrite take_take, Nat.min_l by lia. f_equal.
    apply drop_S. rewrite lookup_take_lt by lia. done. }
  rewrite Hsplit, map_app, totalLength_app in Hbound. simpl in Hbound.
  pose proof (totalLength_nonneg (map matchText (drop (S j) (take k matches)))).
  lia.
Qed.

Lemma packContext_budget_witness :
  exists k : nat,
    let matches :=
      [ {| qm_id := js "1"; qm_score := 1;
           qm_metadata := {| md_text := js "abcd"; md_source := js "a.txt" |} |};
        {| qm_id := js "2"; qm_score := 1;
           qm_metadata := {| md_text := js "efghij"; md_source := js "b.txt" |} |};
        {| qm_id := js "3"; qm_score := 1;
           qm_metadata := {| md_text := js "k"; md_source := js "c.txt" |} |} ] in
    let selected := map matchText (take k matches) in
    ps_chunks (packLoop matches 5 packInit) = selected
    /\ context (packContext matches 5) = joinWith separator selected
    /\ totalLength selected <= 5
    /\ (forall j m, (j < k)%nat -> matches !! j = Some m ->
          totalLength (map matchText (take j matches)) + jslen (matchText m) <= 5)
    /\ (forall m, matches !! k = Some m ->
          totalLength selected + jslen (matchText m) > 5).
Proof. apply packContext_budget. lia. Defined.

(** ** The ask orchestrator *)

Lemma trimStart_blank (s : jsstring) : isBlank s -> trimStart s = [].
Proof. induction 1 as [|c s Hc _ IH]; simpl; [done|]. by rewrite Hc. Qed.

Lemma trim_blank (s : jsstring) : isBlank s -> trim s = [].
Proof. intros Hs. unfold trim, trimEnd. by rewrite (trimStart_blank s Hs). Qed.

Section AskFacts.
Context {World : Type} {P : Platform World}.
Variables (aiModel ns : jsstring) (topK maxChars : Z) (threshold : Q).

(** When the packed context is blank, [ask] answers after the embedding and
    the query calls, without a third call. *)
Lemma askWith_blank (question : jsstring) (s : state World)
    (vectors : list (list Q)) (w1 w2 : World) (matches : list QueryMatch) :
  createOpenAIEmbed [question] (world s) = (Ok vectors, w1) ->
  createPineconeQuery (queryArgsOf ns topK threshold vectors) w1 = (Ok matches, w2) ->
  trim (context (packContext matches maxChars)) = [] ->
  askWith aiModel ns topK maxChars threshold question s
  = (Ok {| ar_text := unknownAnswer; ar_sources := [] |},
     {| world := w2;
        trace := trace s ++ [EEmbed [question] (Ok vectors);
                             EQuery (queryArgsOf ns topK threshold vectors) (Ok matches)] |}).
Proof.
  intros Hembed Hquery Hblank.
  unfold askWith, bind, call. rewrite Hembed. cbn [world trace].
  fold (queryArgsOf ns topK threshold vectors). rewrite Hquery. cbn [world trace].
  rewrite Hblank. cbn [jslen length]. rewrite orb_true_r. unfold ret.
  by rewrite <- app_assoc.
Qed.

End AskFacts.

(** C3. Whenever the vector query resolves with no matches, [ask] resolves
    with the fixed answer and no sources, having called the embedding and
    the query collaborators and nothing else: the chat collaborator is not
    invoked. *)
Theorem ask_no_matches {World : Type} {P : Platform World}
    (aiModel ns : jsstring) (topK maxChars : Z) (threshold : Q)
    (question : jsstring) (s : state World)
    (vectors : list (list Q)) (w1 w2 : World) :
  createOpenAIEmbed [question] (world s) = (Ok vectors, w1) ->
  createPineconeQuery (queryArgsOf ns topK threshold vectors) w1 = (Ok [], w2) ->
  exists s' : state World,
    askWith aiModel ns topK maxChars threshold question s
    = (Ok {| ar_text := js "I don't know based on the uploaded files.";
             ar_sources := [] |}, s')
    /\ world s' = w2
    /\ trace s' = trace s ++ [EEmbed [question] (Ok vectors);
                              EQuery (queryArgsOf ns topK threshold vectors) (Ok [])]
    /\ filter (fun e => isChat e = true) (trace s')
       = filter (fun e => isChat e = true) (trace s).
Proof.
  intros Hembed Hquery. eexists. split.
  - eapply askWith_blank; [exact Hembed|exact Hquery|reflexivity].
  - simpl. split; [done|]. split; [done|].
    rewrite filter_app. simpl. by rewrite app_nil_r.
Qed.

Lemma ask_no_matches_witness :
  exists s' : state nat,
    askWith (P := scripted noMatchesScript) (js "gpt-4o-mini") (js "ns") 8 8000 0
      (js "When?") (start 0)
    = (Ok {| ar_text := js "I don't know based on the uploaded files.";
             ar_sources := [] |}, s')
    /\ world s' = 2%nat
    /\ trace s' = trace (start 0) ++
         [EEmbed [js "When?"] (Ok [[1%Q]]);
          EQuery (queryArgsOf (js "ns") 8 0 [[1%Q]]) (Ok [])]
    /\ filter (fun e => isChat e = true) (trace s')
       = filter (fun e => isChat e = true) (trace (start 0)).
Proof.
  apply (ask_no_matches (P := scripted noMatchesScript) _ _ _ _ _ _ _ _ 1%nat);
    reflexivity.
Defined.

(** Against C10 as stated. Two selected matches whose stored texts are both
    empty: the separator between them makes the packed context non-blank,
    so the chat collaborator is called and both source labels are
    returned. *)
Lemma ask_blank_matches_counterexample :
  let matches := [mkMatch [] (js "a.txt"); mkMatch [] (js "b.txt")] in
  let selected := ps_chunks (packLoop matches 8000 packInit) in
  let run := askWith (P := scripted blankPairScript) (js "gpt-4o-mini") (js "ns")
               8 8000 0 (js "When?") (start 0) in
  selected = [[]; []]
  /\ Forall isBlank selected
  /\ fst run = Ok {| ar_text := js "answer";
                     ar_sources := [js "a.txt"; js "b.txt"] |}
  /\ fst run <> Ok {| ar_text := js "I don't know based on the uploaded files.";
                      ar_sources := [] |}
  /\ filter (fun e => isChat e = true) (trace (snd run))
     = [EChat {| ca_model := js "gpt-4o-mini";
                 ca_system := buildSystemPrompt ([10; 10] ++ js "---" ++ [10; 10]);
                 ca_user := js "When?" |} (Ok (js "answer"))].
Proof.
  assert (Hrun : fst (askWith (P := scripted blankPairScript) (js "gpt-4o-mini")
                        (js "ns") 8 8000 0 (js "When?") (start 0))
                 = Ok {| ar_text := js "answer";
                         ar_sources := [js "a.txt"; js "b.txt"] |})
    by (vm_compute; reflexivity).
  cbv zeta. split; [vm_compute; reflexivity|].
  split; [repeat constructor|].
  split; [exact Hrun|].
  split; [rewrite Hrun; discriminate|].
  vm_compute. reflexivity.
Qed.

(** C10, as the code has it. Whenever the packed context text is empty or
    consists only of white space, [ask] resolves with the fixed answer and no
    sources, without calling the chat collaborator, even when the query
    returned matches: the source labels the packer collected are dropped. In
    particular this is so when at most one match is selected and its stored
    text is empty or white space only. *)
Theorem ask_blank_context {World : Type} {P : Platform World}
    (aiModel ns : jsstring) (topK maxChars : Z) (threshold : Q)
    (question : jsstring) (s : state World)
    (vectors : list (list Q)) (w1 w2 : World) (matches : list QueryMatch) :
  createOpenAIEmbed [question] (world s) = (Ok vectors, w1) ->
  createPineconeQuery (queryArgsOf ns topK threshold vectors) w1 = (Ok matches, w2) ->
  isBlank (context (packContext matches maxChars))
  \/ ((length (ps_chunks (packLoop matches maxChars packInit)) <= 1)%nat
      /\ Forall isBlank (ps_chunks (packLoop matches maxChars packInit))) ->
  exists s' : state World,
    askWith aiModel ns topK maxChars threshold question s
    = (Ok {| ar_text := js "I don't know based on the uploaded files.";
             ar_sources := [] |}, s')
    /\ world s' = w2
    /\ trace s' = trace s ++ [EEmbed [question] (Ok vectors);
                              EQuery (queryArgsOf ns topK threshold vectors)
                                (Ok matches)]
    /\ filter (fun e => isChat e = true) (trace s')
       = filter (fun e => isChat e = true) (trace s).
Proof.
  intros Hembed Hquery Hblank.
  assert (Hctx : isBlank (context (packContext matches maxChars))).
  { destruct Hblank as [Hctx|[Hlen Hall]]; [done|].
    unfold packContext. simpl.
    destruct (ps_chunks (packLoop matches maxChars packInit)) as [|c [|c' rest]];
      simpl in *; [by constructor| |lia].
    by inversion Hall. }
  eexists. split.
  - eapply askWith_blank; [exact Hembed|exact Hquery|by apply trim_blank].
  - simpl. split; [done|]. split; [done|].
    rewrite filter_app. simpl. by rewrite app_nil_r.
Qed.

Lemma ask_blank_context_witness :
  sources (packContext [mkMatch (js "  ") (js "a.txt")] 8000) = [js "a.txt"]
  /\ exists s' : state nat,
    askWith (P := scripted blankMatchScript) (js "gpt-4o-mini") (js "ns") 8 8000 0
      (js "When?") (start 0)
    = (Ok {| ar_text := js "I don't know based on the uploaded files.";
             ar_sources := [] |}, s')
    /\ world s' = 2%nat
    /\ trace s' = trace (start 0) ++
         [EEmbed [js "When?"] (Ok [[1%Q]]);
          EQuery (queryArgsOf (js "ns") 8 0 [[1%Q]])
            (Ok [mkMatch (js "  ") (js "a.txt")])]
    /\ filter (fun e => isChat e = true) (trace s')
       = filter (fun e => isChat e = true) (trace (start 0)).
Proof.
  split; [vm_compute; reflexivity|].
  apply (ask_blank_context (P := scripted blankMatchScript) _ _ _ _ _ _ _ _ 1%nat);
    [reflexivity|reflexivity|].
  right. split; [vm_compute; lia|]. vm_compute. repeat constructor.
Defined.

(** ** Option normalization *)

Lemma normalizeOptions_missing (opts : CreateContextWindowOptions) :
  isFalsyString (indexName opts) = true \/ data opts = ManyPaths [] ->
  normalizeOptions opts = Throw (JsError (js "indexName is required"))
  \/ normalizeOptions opts = Throw (JsError (js "at least one data path is required")).
Proof.
  intros [Hname|Hdata]; unfold normalizeOptions.
  - rewrite Hname. by left.
  - rewrite Hdata. destruct (isFalsyString (indexName opts)); simpl; [by left|by right].
Qed.

(** Against C1 as stated. The field the code requires is [indexName]; the
    field [namespace] is never read. Options without [namespace] are
    accepted when they have [indexName]: the index is provisioned, the file
    is read and embedded and its records are stored. Options with
    [namespace] only are refused for their missing [indexName]. The
    refusal is not thrown at the call, which returns a rejected promise.
    Options without [data] pass the validation: the index is provisioned
    before [stat] rejects the undefined path. *)
Lemma createContextWindow_namespace_counterexample :
  let accepted := createContextWindow (P := scripted bookScript) 5
                    optionsWithoutNamespace (start 0) in
  let refused := asyncFunction (createContextWindow (P := scripted bookScript) 5
                                  optionsWithNamespaceOnly) (start 0) in
  let dataless := createContextWindow (P := scripted bookScript) 5
                    optionsWithoutDataField (start 0) in
  co_namespace optionsWithoutNamespace = None
  /\ (exists cw, fst accepted = Ok cw)
  /\ map eventName (trace (snd accepted))
     = [js "ensurePineconeIndex"; js "stat"; js "readAsText"; js "embed"; js "upsert"]
  /\ co_namespace optionsWithNamespaceOnly = Some (js "my-book")
  /\ refused = (Returns (Throw (JsError (js "indexName is required"))), start 0)
  /\ (forall e, fst refused <> Raises e)
  /\ fst dataless = Throw invalidPathError
  /\ trace (snd dataless)
     = [EEnsureIndex 1536 (Ok tt); EStat None (Throw invalidPathError)].
Proof.
  cbv zeta. split; [reflexivity|].
  split; [eexists; vm_compute; reflexivity|].
  split; [vm_compute; reflexivity|].
  split; [reflexivity|].
  split; [vm_compute; reflexivity|].
  split; [intros e; vm_compute; discriminate|].
  split; vm_compute; reflexivity.
Qed.

(** C1, as the code has it. When the options lack [indexName], or have it
    empty, or give an empty array of data paths, the promise that
    [createContextWindow] returns is rejected with a configuration error,
    and the world and the trace are as they were: no embedding, index,
    extraction or upsert collaborator has been called. *)
Theorem createContextWindow_config_error {World : Type} {P : Platform World}
    (fuel : nat) (opts : CreateContextWindowOptions) (s : state World) :
  isFalsyString (indexName opts) = true \/ data opts = ManyPaths [] ->
  exists e : jserror,
    createContextWindow fuel opts s = (Throw e, s)
    /\ asyncFunction (createContextWindow fuel opts) s = (Returns (Throw e), s)
    /\ (e = JsError (js "indexName is required")
        \/ e = JsError (js "at least one data path is required")).
Proof.
  intros Hbad. unfold asyncFunction, createContextWindow, bind, liftOutcome.
  destruct (normalizeOptions_missing opts Hbad) as [He|He]; rewrite He;
    eexists; (split; [reflexivity|]); (split; [reflexivity|]); [by left|by right].
Qed.

Lemma createContextWindow_config_error_witness :
  (exists e : jserror,
     createContextWindow (P := scripted noMatchesScript) 5 optionsWithoutName (start 0)
     = (Throw e, start 0)
     /\ asyncFunction (createContextWindow (P := scripted noMatchesScript) 5
                         optionsWithoutName) (start 0)
        = (Returns (Throw e), start 0)
     /\ (e = JsError (js "indexName is required")
         \/ e = JsError (js "at least one data path is required")))
  /\ (exists e : jserror,
     createContextWindow (P := scripted noMatchesScript) 5 optionsWithoutData (start 0)
     = (Throw e, start 0)
     /\ asyncFunction (createContextWindow (P := scripted noMatchesScript) 5
                         optionsWithoutData) (start 0)
        = (Returns (Throw e), start 0)
     /\ (e = JsError (js "indexName is required")
         \/ e = JsError (js "at least one data path is required"))).
Proof.
  split; apply createContextWindow_config_error; [left|right]; reflexivity.
Defined.



(** ** The registry *)

(** C8. [getCtxWindow] is total: on a name that is not registered it returns
    the window [createContextWindowWithoutIngestion] builds for it and
    registers it, so that [hasCtxWindow] is true afterwards and no other
    entry changes; that window can be asked, and answers with the fixed
    unknown answer when the store has no match; on a registered name
    [getCtxWindow] returns the registered window and leaves the registry as
    it was. *)
Theorem getCtxWindow_connects {World : Type} {P : Platform World}
    (name : jsstring) (options : option GetContextWindowOptions)
    (registry : gmap jsstring (ContextWindow World)) :
  (registry !! name = None ->
     exists cw registry',
       getCtxWindow name options registry = (cw, registry')
       /\ cw = createContextWindowWithoutIngestion name options
       /\ registry' !! name = Some cw
       /\ hasCtxWindow name registry' = true
       /\ (forall other, other <> name -> registry' !! other = registry !! other)
       /\ (forall question s vectors w1 w2,
             createOpenAIEmbed [question] (world s) = (Ok vectors, w1) ->
             createPineconeQuery
               (queryArgsOf (orString (optChain options gco_namespace) name)
                  (orNumber (optChain options gco_topK) 8)
                  (orScore (optChain options gco_scoreThreshold) 0) vectors) w1
             = (Ok [], w2) ->
             fst (ask cw question s)
             = Ok {| ar_text := js "I don't know based on the uploaded files.";
                     ar_sources := [] |}))
  /\ (forall cw, registry !! name = Some cw ->
        getCtxWindow name options registry = (cw, registry)
        /\ hasCtxWindow name registry = true).
Proof.
  split.
  - intros Hnone. unfold getCtxWindow. rewrite Hnone.
    eexists _, _. split; [done|]. split; [done|].
    split; [by rewrite lookup_insert_eq|]. split; [|split].
    + unfold hasCtxWindow. rewrite lookup_insert_eq. by apply bool_decide_eq_true_2.
    + intros other Hother. by rewrite lookup_insert_ne.
    + intros question s vectors w1 w2 Hembed Hquery.
      unfold createContextWindowWithoutIngestion. cbn [ask].
      by rewrite (askWith_blank _ _ _ _ _ _ _ _ _ _ _ Hembed Hquery eq_refl).
  - intros cw Hsome. unfold getCtxWindow, hasCtxWindow. rewrite Hsome.
    split; [done|]. by apply bool_decide_eq_true_2.
Qed.

Lemma getCtxWindow_connects_witness :
  hasCtxWindow (js "ns")
    (snd (getCtxWindow (P := scripted noMatchesScript) (js "ns") None ∅)) = true.
Proof.
  destruct (getCtxWindow_connects (P := scripted noMatchesScript) (js "ns") None ∅)
    as [Hnew _].
  destruct (Hnew (lookup_empty _)) as (cw & reg' & Hget & _ & _ & Hhas & _).
  rewrite Hget. exact Hhas.
Defined.

(** ** Traces of the ingestion *)

Section TraceFacts.
Context {World : Type} {P : Platform World}.

Lemma emits_ret {A} ok (a : A) : emits (World := World) ok (ret a).
Proof. intros s r s' [= <- <-]. exists []. by rewrite app_nil_r. Qed.

Lemma emits_throw {A} ok e : emits (World := World) ok (throw (A := A) e).
Proof. intros s r s' [= <- <-]. exists []. by rewrite app_nil_r. Qed.

Lemma emits_diverge {A} ok : emits (World := World) ok (diverge (A := A)).
Proof. intros s r s' [= <- <-]. exists []. by rewrite app_nil_r. Qed.

Lemma emits_call {A} (ok : event -> Prop) (ev : outcome A -> event) (h : Async World A) :
  (forall r, ok (ev r)) -> emits ok (call ev h).
Proof.
  intros Hok s r s'. unfold call. destruct (h (world s)) as [r0 w].
  intros [= <- <-]. exists [ev r0]. simpl. split; [done|]. by constructor.
Qed.

Lemma emits_bind {A B} ok (m : M World A) (k : A -> M World B) :
  emits ok m -> (forall a, emits ok (k a)) -> emits ok (bind m k).
Proof.
  intros Hm Hk s r s'. unfold bind. destruct (m s) as [r1 s1] eqn:Hrun.
  apply Hm in Hrun as (evs1 & Htr1 & Hok1).
  destruct r1 as [a|e|].
  - intros Hrun2. apply Hk in Hrun2 as (evs2 & Htr2 & Hok2).
    exists (evs1 ++ evs2). rewrite Htr2, Htr1, <- app_assoc.
    split; [done|]. by apply Forall_app.
  - intros [= <- <-]. by exists evs1.
  - intros [= <- <-]. by exists evs1.
Qed.

Lemma emits_tryCatch {A} ok (body : M World A) (handler : jserror -> M World A) :
  emits ok body -> (forall e, emits ok (handler e)) -> emits ok (tryCatch body handler).
Proof.
  intros Hm Hk s r s'. unfold tryCatch. destruct (body s) as [r1 s1] eqn:Hrun.
  apply Hm in Hrun as (evs1 & Htr1 & Hok1).
  destruct r1 as [a|e|].
  - intros [= <- <-]. by exists evs1.
  - intros Hrun2. apply Hk in Hrun2 as (evs2 & Htr2 & Hok2).
    exists (evs1 ++ evs2). rewrite Htr2, Htr1, <- app_assoc.
    split; [done|]. by apply Forall_app.
  - intros [= <- <-]. by exists evs1.
Qed.

Lemma emits_forEachM {A S} ok (body : S -> A -> M World S) (xs : list A) (acc : S) :
  (forall acc x, emits ok (body acc x)) -> emits ok (forEachM body xs acc).
Proof.
  intros Hbody. revert acc. induction xs as [|x xs IH]; intros acc; simpl.
  - apply emits_ret.
  - apply emits_bind; [apply Hbody|apply IH].
Qed.

Lemma emits_failsOn {A} (ok' ok bad : event -> Prop) (m : M World A) :
  emits ok' m -> (forall e, ok' e -> ok e /\ ~ bad e) -> failsOn ok bad m.
Proof.
  intros Hm Himp s r s' Hrun. apply Hm in Hrun as (evs & Htr & Hok).
  exists evs. split; [done|]. split.
  - eapply Forall_impl; [exact Hok|]. intros e He. by apply Himp.
  - intros Hbad. apply Exists_exists in Hbad as (e & Hin & Hbad).
    rewrite Forall_forall in Hok. destruct (Himp e (Hok e Hin)) as [_ Hnot]. done.
Qed.

Lemma failsOn_bind {A B} ok bad (m : M World A) (k : A -> M World B) :
  failsOn ok bad m -> (forall a, failsOn ok bad (k a)) -> failsOn ok bad (bind m k).
Proof.
  intros Hm Hk s r s'. unfold bind. destruct (m s) as [r1 s1] eqn:Hrun.
  apply Hm in Hrun as (evs1 & Htr1 & Hok1 & Hbad1).
  destruct r1 as [a|e|].
  - intros Hrun2. apply Hk in Hrun2 as (evs2 & Htr2 & Hok2 & Hbad2).
    exists (evs1 ++ evs2). rewrite Htr2, Htr1, <- app_assoc.
    split; [done|]. split; [by apply Forall_app|].
    intros [Hb|Hb]%Exists_app; [|by apply Hbad2].
    by destruct (Hbad1 Hb).
  - intros [= <- <-]. exists evs1. split; [done|]. split; [done|]. by eexists.
  - intros [= <- <-]. exists evs1. split; [done|]. split; [done|].
    intros Hb. by destruct (Hbad1 Hb).
Qed.

Lemma failsOn_forEachM {A S} ok bad (body : S -> A -> M World S) (xs : list A) (acc : S) :
  (forall acc x, failsOn ok bad (body acc x)) -> failsOn ok bad (forEachM body xs acc).
Proof.
  intros Hbody. revert acc. induction xs as [|x xs IH]; intros acc; simpl.
  - eapply emits_failsOn; [apply (emits_ret (fun _ => False))|done].
  - apply failsOn_bind; [apply Hbody|apply IH].
Qed.

End TraceFacts.

Section IngestFacts.
Context {World : Type} {P : Platform World}.

Lemma guards_failsOn {A} ok bad (m : M World A) : failsOn ok bad m -> guards ok bad m.
Proof.
  intros Hm s r s' Hrun. apply Hm in Hrun as (evs & Htr & Hok & Hbad).
  exists evs. split; [done|]. intros Hb. split; [by apply Hbad|done].
Qed.

Lemma guards_call_clean {A} (ok bad : event -> Prop) (ev : outcome A -> event)
    (h : Async World A) :
  (forall r, ~ bad (ev r)) -> guards ok bad (call ev h).
Proof.
  intros Hclean s r s'. unfold call. destruct (h (world s)) as [r0 w].
  intros [= <- <-]. exists [ev r0]. simpl. split; [done|].
  intros Hb. apply Exists_cons in Hb as [Hb|Hb]; [by destruct (Hclean r0)|].
  by apply Exists_nil in Hb.
Qed.

Lemma guards_bind {A B} ok bad (m : M World A) (k : A -> M World B) :
  failsOn ok bad m -> (forall a, guards ok bad (k a)) -> guards ok bad (bind m k).
Proof.
  intros Hm Hk s r s'. unfold bind. destruct (m s) as [r1 s1] eqn:Hrun.
  apply Hm in Hrun as (evs1 & Htr1 & Hok1 & Hbad1).
  destruct r1 as [a|e|].
  - intros Hrun2. apply Hk in Hrun2 as (evs2 & Htr2 & Hbad2).
    exists (evs1 ++ evs2). rewrite Htr2, Htr1, <- app_assoc. split; [done|].
    intros [Hb|Hb]%Exists_app; [by destruct (Hbad1 Hb)|].
    destruct (Hbad2 Hb) as [Herr Hok2]. split; [done|]. by apply Forall_app.
  - intros [= <- <-]. exists evs1. split; [done|]. intros _. split; [by eexists|done].
  - intros [= <- <-]. exists evs1. split; [done|].
    intros Hb. by destruct (Hbad1 Hb).
Qed.

Lemma emits_collectFiles (fuel : nat) (paths : list (option jsstring)) :
  emits (fun e => isFileSystem e = true) (collectFiles fuel paths).
Proof.
  revert paths. induction fuel as [|fuel IH]; intros paths; simpl.
  - apply emits_diverge.
  - apply emits_forEachM. intros files [path|].
    2:{ apply emits_bind; [by apply emits_call|]. intros stats. apply emits_ret. }
    apply emits_bind; [by apply emits_call|]. intros stats.
    destruct (st_isFile stats).
    { destruct (isSupportedFile path); apply emits_ret. }
    destruct (st_isDirectory stats); [|apply emits_ret].
    apply emits_bind; [by apply emits_call|]. intros entries.
    apply emits_forEachM. intros files' entry.
    destruct (de_isDirectory entry).
    { apply emits_bind; [apply IH|]. intros subFiles. apply emits_ret. }
    destruct (de_isFile entry && isSupportedFile _); apply emits_ret.
Qed.

Lemma emits_processFile (size overlap : Z)
    (allRecords : list VectorRecord) (filepath : jsstring) :
  emits (fun e => isRead e = true) (processFile size overlap allRecords filepath).
Proof.
  unfold processFile. apply emits_tryCatch; [|intros e; apply emits_ret].
  apply emits_bind; [by apply emits_call|]. intros text.
  destruct (_ || _); [apply emits_ret|].
  apply emits_bind; [|intros chunks; apply emits_ret].
  intros s r s' [= <- <-]. exists []. by rewrite app_nil_r.
Qed.

(** A batch whose embedding call rejects makes the loop body reject. *)
Lemma failsOn_embedBatch (embed : EmbedFn World) (allRecords : list VectorRecord)
    (i : nat) :
  failsOn (fun e => isUpsert e = false) (fun e => isFailedEmbed e = true)
    (embedBatch embed allRecords i).
Proof.
  intros s r s'. unfold embedBatch, tryCatch, bind, call, ret, throw.
  destruct (embed _ (world s)) as [[embeddings|e|] w]; intros [= <- <-]; simpl;
    eexists [_]; (split; [done|]); (split; [by repeat constructor|]).
  - intros Hb. apply Exists_cons in Hb as [Hb|Hb]; [done|]. by apply Exists_nil in Hb.
  - intros _. by eexists.
  - intros Hb. apply Exists_cons in Hb as [Hb|Hb]; [done|]. by apply Exists_nil in Hb.
Qed.

End IngestFacts.

(** C5. In every run of [ingestPaths], if some batch call to the embedding
    collaborator rejects, the run rejects with an error and the upsert
    collaborator is not called during it: no record reaches the store. *)
Theorem ingest_embedding_failure {World : Type} {P : Platform World}
    (fuel : nat) (options : IngestOptions World)
    (s : state World) (r : outcome unit) (s' : state World) :
  ingestPaths fuel options s = (r, s') ->
  exists evs : list event,
    trace s' = trace s ++ evs
    /\ (Exists (fun e => isFailedEmbed e = true) evs ->
        (exists err, r = Throw err) /\ Forall (fun e => isUpsert e = false) evs).
Proof.
  revert s r s'.
  change (guards (fun e => isUpsert e = false) (fun e => isFailedEmbed e = true)
            (ingestPaths fuel options)).
  unfold ingestPaths.
  apply guards_bind.
  { eapply emits_failsOn; [apply emits_collectFiles|]. by intros []. }
  intros files. destruct (length files =? 0)%nat.
  { apply guards_failsOn. eapply emits_failsOn; [apply (emits_ret (fun _ => False))|done]. }
  apply guards_bind.
  { eapply emits_failsOn.
    - apply emits_forEachM. intros acc x. apply emits_processFile.
    - by intros []. }
  intros allRecords. destruct (length allRecords =? 0)%nat.
  { apply guards_failsOn. eapply emits_failsOn; [apply (emits_ret (fun _ => False))|done]. }
  apply guards_bind.
  { apply failsOn_forEachM. intros acc x. apply failsOn_embedBatch. }
  intros embedded. by apply guards_call_clean.
Qed.

Lemma ingest_embedding_failure_witness :
  let run := ingestPaths (P := scripted failingEmbedScript) 5
               (scriptedIngest failingEmbedScript [js "a.txt"]) (start 0) in
  Exists (fun e => isFailedEmbed e = true) (trace (snd run))
  /\ (exists err, fst run = Throw err)
  /\ Forall (fun e => isUpsert e = false) (trace (snd run)).
Proof.
  cbv zeta.
  destruct (ingest_embedding_failure (P := scripted failingEmbedScript) 5
              (scriptedIngest failingEmbedScript [js "a.txt"]) (start 0) _ _
              (surjective_pairing _)) as (evs & Htr & Hfail).
  simpl in Htr. rewrite <- Htr in Hfail.
  assert (Hex : Exists (fun e => isFailedEmbed e = true)
                  (trace (snd (ingestPaths (P := scripted failingEmbedScript) 5
                     (scriptedIngest failingEmbedScript [js "a.txt"]) (start 0))))).
  { vm_compute.
    solve [repeat first [apply Exists_cons_hd; reflexivity | apply Exists_cons_tl]]. }
  split; [exact Hex|]. exact (Hfail Hex).
Defined.

(** ** Fingerprints *)

Lemma hexWord_length (x : Z) : length (Sha1.hexWord x) = 8%nat.
Proof. unfold Sha1.hexWord. by rewrite length_map. Qed.

Lemma hexWord_digits (x : Z) : Forall isHexDigit (Sha1.hexWord x).
Proof.
  unfold Sha1.hexWord. apply Forall_forall. intros c Hc.
  apply list_elem_of_fmap in Hc as (k & -> & _).
  pose proof (Z.mod_pos_bound (Z.shiftr x (4 * Z.of_nat k)) 16 ltac:(lia)) as Hd.
  unfold Sha1.hexDigit, isHexDigit.
  destruct (Z.ltb_spec (Z.shiftr x (4 * Z.of_nat k) mod 16) 10); lia.
Qed.

Lemma stableHash_length (input : jsstring) : length (stableHash input) = 40%nat.
Proof.
  unfold stableHash, Sha1.hex. by rewrite !length_app, !hexWord_length.
Qed.

Lemma stableHash_digits (input : jsstring) : Forall isHexDigit (stableHash input).
Proof.
  unfold stableHash, Sha1.hex. repeat apply Forall_app_2; apply hexWord_digits.
Qed.

Lemma chunkText_agree (fuel1 fuel2 : nat) (text : jsstring) (size overlap : Z)
    (chunks1 chunks2 : list jsstring) :
  chunkText fuel1 text size overlap = Some chunks1 ->
  chunkText fuel2 text size overlap = Some chunks2 ->
  chunks1 = chunks2.
Proof.
  unfold chunkText. destruct (jslen text =? 0); [congruence|].
  destruct (jslen text <=? size); [congruence|].
  intros H1 H2.
  apply (chunkLoop_mono _ _ _ _ (Nat.max fuel1 fuel2)) in H1; [|lia].
  apply (chunkLoop_mono _ _ _ _ (Nat.max fuel1 fuel2)) in H2; [|lia].
  congruence.
Qed.

Lemma readIds_functional (size overlap : Z) (read : jsstring * outcome jsstring)
    (ids1 ids2 : list jsstring) :
  readIds size overlap read ids1 -> readIds size overlap read ids2 -> ids1 = ids2.
Proof.
  destruct read as [path [text|e|]]; simpl; [|congruence..].
  destruct (_ || _); [congruence|].
  intros [(f1 & c1 & H1 & ->)|[Hnone1 ->]] [(f2 & c2 & H2 & ->)|[Hnone2 ->]].
  - by rewrite (chunkText_agree _ _ _ _ _ _ _ H1 H2).
  - by rewrite Hnone2 in H1.
  - by rewrite Hnone1 in H2.
  - done.
Qed.

Lemma readIds_all_functional (size overlap : Z)
    (reads : list (jsstring * outcome jsstring)) (idss1 idss2 : list (list jsstring)) :
  Forall2 (readIds size overlap) reads idss1 ->
  Forall2 (readIds size overlap) reads idss2 ->
  idss1 = idss2.
Proof.
  intros H1. revert idss2. induction H1 as [|read ids reads idss Hr _ IH]; intros idss2 H2.
  - by inversion H2.
  - inversion H2 as [|? ids' ? idss' Hr' H2']; subst.
    f_equal; [by eapply readIds_functional|by apply IH].
Qed.

Lemma readsOf_none (evs : list event) :
  Forall (fun e => isRead e = false) evs -> readsOf evs = [].
Proof.
  induction 1 as [|e evs He _ IH]; [done|].
  destruct e; simpl in He; try discriminate; exact IH.
Qed.

Lemma upsertedIds_none (evs : list event) :
  Forall (fun e => isUpsert e = false) evs -> upsertedIds evs = [].
Proof.
  induction 1 as [|e evs He _ IH]; [done|].
  destruct e; simpl in He; try discriminate; exact IH.
Qed.

Section FingerprintFacts.
Context {World : Type} {P : Platform World}.

Lemma processFile_ids (size overlap : Z)
    (acc acc' : list VectorRecord) (filepath : jsstring) (s s' : state World) :
  processFile size overlap acc filepath s = (Ok acc', s') ->
  exists res ids,
    trace s' = trace s ++ [EReadAsText filepath res]
    /\ readIds size overlap (filepath, res) ids
    /\ map vr_id acc' = map vr_id acc ++ ids.
Proof.
  unfold processFile, tryCatch, bind, call, ret, liftOutcome, chunkTextRun.
  destruct (readAsText filepath (world s)) as [[text|e|] w]; simpl.
  - destruct ((jslen text =? 0) || (jslen (trim text) =? 0)) eqn:Hblank.
    + intros [= <- <-]. exists (Ok text), []. simpl. rewrite Hblank.
      by rewrite app_nil_r.
    + destruct (chunkText (S (length text)) text size overlap) as [chunks|] eqn:Hchunks.
      * intros [= <- <-]. exists (Ok text), (imap (chunkId filepath) chunks).
        simpl. rewrite Hblank. split; [done|]. split; [left; by eexists _, _|].
        rewrite map_app. f_equal. apply fmap_imap.
      * intros [= <- <-]. exists (Ok text), []. simpl. rewrite Hblank.
        split; [done|]. split; [|by rewrite app_nil_r].
        right. split; [|done]. by apply chunkText_decided.
  - intros [= <- <-]. exists (Throw e), []. by rewrite app_nil_r.
  - done.
Qed.

Lemma processLoop_ids (size overlap : Z) (files : list jsstring)
    (acc acc' : list VectorRecord) (s s' : state World) :
  forEachM (processFile size overlap) files acc s = (Ok acc', s') ->
  exists evs idss,
    trace s' = trace s ++ evs
    /\ Forall (fun e => isRead e = true) evs
    /\ Forall2 (readIds size overlap) (readsOf evs) idss
    /\ map vr_id acc' = map vr_id acc ++ concat idss.
Proof.
  revert acc s. induction files as [|file files IH]; intros acc s; simpl.
  - intros [= <- <-]. exists [], []. simpl. rewrite !app_nil_r. by repeat constructor.
  - unfold bind at 1.
    destruct (processFile size overlap acc file s) as [[acc1|e|] s1] eqn:Hfile;
      [|done..].
    apply processFile_ids in Hfile as (res & ids & Htr1 & Hids & Hacc1).
    intros Hrest. apply IH in Hrest as (evs & idss & Htr & Hreads & Hall & Hacc').
    exists (EReadAsText file res :: evs), (ids :: idss).
    rewrite Htr, Htr1, <- app_assoc. split; [done|].
    split; [by constructor|]. split; [by constructor|].
    rewrite Hacc', Hacc1, <- app_assoc. done.
Qed.

Lemma setValues_keeps_ids (recs : list VectorRecord) (i : nat)
    (embeddings : list (list Q)) (js : list nat) :
  map vr_id (foldl (fun recs j => alter (setValues (embeddings !! j)) (i + j)%nat recs)
               recs js)
  = map vr_id recs.
Proof.
  revert recs. induction js as [|j js IH]; intros recs; simpl; [done|].
  rewrite IH. rewrite (list_fmap_alter vr_id _ id); [|by apply Forall_true].
  apply list_alter_id. done.
Qed.

Lemma embedBatch_ids (embed : EmbedFn World) (recs recs' : list VectorRecord)
    (i : nat) (s s' : state World) :
  embedBatch embed recs i s = (Ok recs', s') ->
  map vr_id recs' = map vr_id recs
  /\ exists evs, trace s' = trace s ++ evs
       /\ Forall (fun e => isEmbed e = true) evs.
Proof.
  unfold embedBatch, tryCatch, bind, call, ret, throw.
  destruct (embed _ (world s)) as [[embeddings|e|] w]; simpl; [|done..].
  intros [= <- <-]. split; [apply setValues_keeps_ids|].
  eexists [_]. simpl. split; [done|]. by repeat constructor.
Qed.

Lemma embedLoop_ids (embed : EmbedFn World) (starts : list nat)
    (recs recs' : list VectorRecord) (s s' : state World) :
  forEachM (embedBatch embed) starts recs s = (Ok recs', s') ->
  map vr_id recs' = map vr_id recs
  /\ exists evs, trace s' = trace s ++ evs
       /\ Forall (fun e => isEmbed e = true) evs.
Proof.
  revert recs s. induction starts as [|i starts IH]; intros recs s; simpl.
  - intros [= <- <-]. split; [done|]. exists []. by rewrite app_nil_r.
  - unfold bind at 1.
    destruct (embedBatch embed recs i s) as [[recs1|e|] s1] eqn:Hbatch; [|done..].
    apply embedBatch_ids in Hbatch as (Hids1 & evs1 & Htr1 & Hev1).
    intros Hrest. apply IH in Hrest as (Hids & evs & Htr & Hev).
    split; [congruence|]. exists (evs1 ++ evs).
    rewrite Htr, Htr1, <- app_assoc. split; [done|]. by apply Forall_app.
Qed.

(** What a successful run hands to the store is determined by what it read:
    the chunk ids of the files read, in order, in one upsert call. *)
Lemma ingestPaths_ids (fuel : nat) (options : IngestOptions World)
    (s s' : state World) :
  ingestPaths fuel options s = (Ok tt, s') ->
  exists evs idss,
    trace s' = trace s ++ evs
    /\ Forall2 (readIds (io_chunkSize options) (io_chunkOverlap options))
         (readsOf evs) idss
    /\ upsertedIds evs = handedOver idss.
Proof.
  unfold ingestPaths. unfold bind at 1.
  destruct (collectFiles fuel (inputs options) s) as [[files|e|] s1] eqn:Hwalk; [|done..].
  apply emits_collectFiles in Hwalk as (evs1 & Htr1 & Hfs).
  assert (Hreads1 : readsOf evs1 = []).
  { apply readsOf_none. eapply Forall_impl; [exact Hfs|]. by intros []. }
  assert (Hups1 : upsertedIds evs1 = []).
  { apply upsertedIds_none. eapply Forall_impl; [exact Hfs|]. by intros []. }
  destruct (length files =? 0)%nat.
  { intros [= <-]. exists evs1, []. rewrite Hreads1, Hups1. by repeat constructor. }
  unfold bind at 1.
  destruct (forEachM _ files [] s1) as [[allRecords|e|] s2] eqn:Hloop; [|done..].
  apply processLoop_ids in Hloop as (evs2 & idss & Htr2 & Hrd & Hall & Hids).
  simpl in Hids.
  assert (Hups2 : upsertedIds evs2 = []).
  { apply upsertedIds_none. eapply Forall_impl; [exact Hrd|]. by intros []. }
  destruct (length allRecords =? 0)%nat eqn:Hempty.
  { intros [= <-]. exists (evs1 ++ evs2), idss.
    rewrite Htr2, Htr1, <- app_assoc. split; [done|].
    unfold readsOf, upsertedIds in *. rewrite !omap_app, Hreads1, Hups1, Hups2.
    split; [done|]. unfold handedOver. rewrite <- Hids.
    apply Nat.eqb_eq in Hempty. by destruct allRecords. }
  unfold bind at 1.
  destruct (forEachM _ _ allRecords s2) as [[embedded|e|] s3] eqn:Hbatches; [|done..].
  apply embedLoop_ids in Hbatches as (Hkeep & evs3 & Htr3 & Hemb).
  assert (Hreads3 : readsOf evs3 = []).
  { apply readsOf_none. eapply Forall_impl; [exact Hemb|]. by intros []. }
  assert (Hups3 : upsertedIds evs3 = []).
  { apply upsertedIds_none. eapply Forall_impl; [exact Hemb|]. by intros []. }
  unfold call. destruct (upsert options embedded _ (world s3)) as [r w].
  intros [= -> <-]. simpl.
  exists (evs1 ++ evs2 ++ evs3 ++ [EUpsert embedded (io_namespace options) (Ok tt)]), idss.
  rewrite Htr3, Htr2, Htr1, <- !app_assoc. split; [done|].
  unfold readsOf, upsertedIds in *.
  rewrite !omap_app, Hreads1, Hreads3, Hups1, Hups2, Hups3. simpl.
  rewrite app_nil_r. split; [done|].
  unfold handedOver. rewrite <- Hids, Hkeep.
  apply Nat.eqb_neq in Hempty. by destruct allRecords.
Qed.

End FingerprintFacts.

(** Against C6 as stated. The id of chunk 0 of [a.txt] with text [hello] is
    the digest of [a.txt#0:hello], not of the bare concatenation
    [a.txt0hello]. *)
Lemma chunkId_plain_concatenation_counterexample :
  chunkId (js "a.txt") 0 (js "hello") = js "ef03670c43798b757f4fb564821e2fc779512bf1"
  /\ stableHash (js "a.txt" ++ decimal 0 ++ preview (js "hello"))
     = js "c1c21870a5b6fe5f68deb2051217613c8ac73f2c"
  /\ vr_id (makeRecord (js "a.txt") (js "a.txt") 0 (js "hello"))
     <> stableHash (js "a.txt" ++ decimal 0 ++ preview (js "hello")).
Proof.
  assert (H1 : chunkId (js "a.txt") 0 (js "hello")
               = js "ef03670c43798b757f4fb564821e2fc779512bf1")
    by (vm_compute; reflexivity).
  assert (H2 : stableHash (js "a.txt" ++ decimal 0 ++ preview (js "hello"))
               = js "c1c21870a5b6fe5f68deb2051217613c8ac73f2c")
    by (vm_compute; reflexivity).
  split; [exact H1|]. split; [exact H2|].
  simpl vr_id. rewrite H1, H2. vm_compute. discriminate.
Qed.

(** C6, as the code has it. The id given to chunk [i] of a file is the
    40-character lower-case hexadecimal SHA-1 digest of the UTF-8 encoding of
    the file path, [#], the decimal index, [:] and the first 64 code units of
    the chunk with every run of white space replaced by one space. A run
    that resolves hands to the upsert collaborator exactly the ids of the
    chunks of the files it read, so two runs with the same chunking options
    that read the same files with the same contents hand over the same
    sequence of ids, whatever the embeddings and the state of the world. *)
Theorem ingest_ids_stable {World : Type} {P : Platform World} :
  (forall (filepath source : jsstring) (i : nat) (chunk : jsstring),
     let id := vr_id (makeRecord filepath source i chunk) in
     id = Sha1.hex (Sha1.digest (utf8
            (filepath ++ js "#" ++ decimal i ++ js ":"
               ++ replaceWhitespaceRuns false (slice chunk 0 64))))
     /\ length id = 40%nat
     /\ Forall isHexDigit id)
  /\ (forall (fuel : nat) (options : IngestOptions World) (s s' : state World)
        (evs : list event),
        ingestPaths fuel options s = (Ok tt, s') ->
        trace s' = trace s ++ evs ->
        exists idss : list (list jsstring),
          Forall2 (readIds (io_chunkSize options) (io_chunkOverlap options))
            (readsOf evs) idss
          /\ upsertedIds evs = handedOver idss)
  /\ (forall (fuel1 fuel2 : nat) (options1 options2 : IngestOptions World)
        (s1 s1' s2 s2' : state World) (evs1 evs2 : list event),
        io_chunkSize options1 = io_chunkSize options2 ->
        io_chunkOverlap options1 = io_chunkOverlap options2 ->
        ingestPaths fuel1 options1 s1 = (Ok tt, s1') ->
        ingestPaths fuel2 options2 s2 = (Ok tt, s2') ->
        trace s1' = trace s1 ++ evs1 ->
        trace s2' = trace s2 ++ evs2 ->
        readsOf evs1 = readsOf evs2 ->
        upsertedIds evs1 = upsertedIds evs2).
Proof.
  assert (Hchar : forall (fuel : nat) (options : IngestOptions World)
            (s s' : state World) (evs : list event),
            ingestPaths fuel options s = (Ok tt, s') ->
            trace s' = trace s ++ evs ->
            exists idss : list (list jsstring),
              Forall2 (readIds (io_chunkSize options) (io_chunkOverlap options))
                (readsOf evs) idss
              /\ upsertedIds evs = handedOver idss).
  { intros fuel options s s' evs Hrun Htr.
    apply ingestPaths_ids in Hrun as (evs' & idss & Htr' & Hall & Hups).
    rewrite Htr in Htr'. apply app_inv_head in Htr' as ->. by exists idss. }
  split; [|split; [exact Hchar|]].
  - intros filepath source i chunk. cbv zeta.
    change (vr_id (makeRecord filepath source i chunk)) with (chunkId filepath i chunk).
    unfold chunkId. split; [reflexivity|].
    split; [apply stableHash_length|apply stableHash_digits].
  - intros fuel1 fuel2 options1 options2 s1 s1' s2 s2' evs1 evs2
      Hsize Hoverlap Hrun1 Hrun2 Htr1 Htr2 Hreads.
    destruct (Hchar _ _ _ _ _ Hrun1 Htr1) as (idss1 & Hall1 & ->).
    destruct (Hchar _ _ _ _ _ Hrun2 Htr2) as (idss2 & Hall2 & ->).
    rewrite Hsize, Hoverlap, Hreads in Hall1.
    by rewrite (readIds_all_functional _ _ _ _ _ Hall1 Hall2).
Qed.

Lemma ingest_ids_stable_witness :
  upsertedIds (trace (snd firstRun)) = upsertedIds (trace (snd secondRun))
  /\ upsertedIds (trace (snd firstRun))
     = [[chunkId (js "a.txt") 0 (js "America was foun");
         chunkId (js "a.txt") 1 (js "founded in 1776.")]].
Proof.
  split; [|vm_compute; reflexivity].
  destruct (ingest_ids_stable (P := scripted bookScript)) as (_ & _ & Hstable).
  apply (Hstable 50%nat 60%nat firstOptions secondOptions
           (start 0) (snd firstRun) (start 7) (snd secondRun));
    try reflexivity; vm_compute; reflexivity.
Defined.

(** * Further properties *)

(** ** The chunker, continued *)

Lemma slice_window (text : jsstring) (size start : Z) :
  0 < size -> 0 <= start ->
  slice text start (start + size)
  = take (Z.to_nat size) (drop (Z.to_nat start) text).
Proof.
  intros Hsize Hstart. rewrite slice_nonneg by lia. unfold jslen.
  destruct (Z.le_gt_cases (Z.of_nat (length text)) start) as [Hout|Hin].
  - rewrite !drop_ge by lia. by rewrite !take_nil.
  - rewrite (Z.min_l start) by lia.
    destruct (Z.le_gt_cases (start + size) (Z.of_nat (length text))) as [Hfit|Hend].
    + f_equal. lia.
    + rewrite (Z.min_r (start + size)) by lia.
      rewrite !take_ge; [done|rewrite length_drop; lia..].
Qed.

Section ChunkerShape.
Variables (text : jsstring) (size overlap : Z).
Hypothesis Hsize : 0 < size.
Hypothesis Hoverlap : 0 <= overlap < size.

(** The windows the loop appends tile the rest of the text: the first one
    followed by what each later one adds beyond the overlap is the text from
    [start] on. Every window is non-empty and at most [size] long. *)
Lemma chunkLoop_tiles fuel start acc res :
  0 <= start < jslen text ->
  chunkLoop fuel text size overlap start acc = Some res ->
  exists c rest,
    res = acc ++ c :: rest
    /\ c = take (Z.to_nat size) (drop (Z.to_nat start) text)
    /\ c ++ concat (map (drop (Z.to_nat overlap)) rest) = drop (Z.to_nat start) text
    /\ Forall (fun w => (1 <= length w <= Z.to_nat size)%nat) (c :: rest).
Proof.
  revert start acc res. induction fuel as [|fuel IH]; intros start acc res Hstart; [done|].
  simpl. destruct (Z.ltb_spec start (jslen text)) as [_|]; [|lia].
  rewrite slice_window by lia.
  assert (Hlen : (1 <= length (take (Z.to_nat size) (drop (Z.to_nat start) text))
                  <= Z.to_nat size)%nat).
  { rewrite length_take, length_drop. unfold jslen in *. lia. }
  destruct (Z.geb_spec (start + size) (jslen text)) as [Hend|Hmore].
  - intros [= <-]. eexists _, []. split; [done|]. split; [done|]. simpl.
    rewrite app_nil_r. split; [|by constructor].
    apply take_ge. rewrite length_drop. unfold jslen in *. lia.
  - intros Hrun. apply IH in Hrun as (c' & rest' & -> & Hc' & Htile & Hall); [|lia].
    eexists _, (c' :: rest'). split; [by rewrite <- app_assoc|]. split; [done|].
    split; [|constructor; [exact Hlen|exact Hall]].
    simpl. rewrite <- drop_app_le.
    + rewrite Htile, drop_drop.
      replace (Z.to_nat (start + (size - overlap)) + Z.to_nat overlap)%nat
        with (Z.to_nat start + Z.to_nat size)%nat by lia.
      rewrite <- drop_drop. apply take_drop.
    + rewrite Hc', length_take, length_drop. unfold jslen in *. lia.
Qed.

End ChunkerShape.

(** X1. Under the chunker's contract the chunks cover the text without gaps:
    the first chunk followed by every later chunk without its first [overlap]
    code units is the text itself. *)
Theorem chunkText_reassembles (fuel : nat) (text : jsstring) (size overlap : Z)
    (chunks : list jsstring) :
  0 < size -> 0 <= overlap < size ->
  chunkText fuel text size overlap = Some chunks ->
  match chunks with
  | [] => text = []
  | c :: rest => c ++ concat (map (drop (Z.to_nat overlap)) rest) = text
  end.
Proof.
  intros Hsize Hov. unfold chunkText, jslen.
  destruct (Z.eqb_spec (Z.of_nat (length text)) 0) as [Hempty|Hne].
  { intros [= <-]. destruct text; [done|simpl in Hempty; lia]. }
  destruct (Z.leb_spec (Z.of_nat (length text)) size).
  { intros [= <-]. simpl. by rewrite app_nil_r. }
  intros Hrun.
  apply chunkLoop_tiles in Hrun as (c & rest & -> & _ & Htile & _);
    [done|done|done|unfold jslen; lia].
Qed.

Lemma chunkText_reassembles_witness :
  js "abcd" ++ concat (map (drop (Z.to_nat 1)) [js "defg"; js "ghij"]) = js "abcdefghij".
Proof.
  apply (chunkText_reassembles 10 (js "abcdefghij") 4 1
           [js "abcd"; js "defg"; js "ghij"]); [lia|lia|reflexivity].
Defined.

(** X2. Under the chunker's contract every chunk of a non-empty text is
    non-empty and at most [size] code units long, and every chunk but the
    last is exactly [size] long. *)
Theorem chunkText_sizes (fuel : nat) (text : jsstring) (size overlap : Z)
    (chunks : list jsstring) :
  0 < size -> 0 <= overlap < size ->
  chunkText fuel text size overlap = Some chunks ->
  Forall (fun c => (1 <= length c <= Z.to_nat size)%nat) chunks
  /\ (forall (i : nat) (c : jsstring),
        chunks !! i = Some c -> (S i < length chunks)%nat ->
        length c = Z.to_nat size).
Proof.
  intros Hsize Hov. unfold chunkText.
  destruct (Z.eqb_spec (jslen text) 0) as [Hempty|Hne].
  { intros [= <-]. split; [constructor|]. by intros i c. }
  destruct (Z.leb_spec (jslen text) size).
  { intros [= <-]. split.
    - repeat constructor; unfold jslen in *; lia.
    - intros i c _ Hi. simpl in Hi. lia. }
  intros Hrun. split.
  - apply chunkLoop_tiles in Hrun as (c & rest & -> & _ & _ & Hall);
      [done|done|done|unfold jslen in *; lia].
  - intros i c Hc Hi.
    apply chunkLoop_windows in Hrun as (new & -> & Hnew). simpl in *.
    apply Hnew in Hc as [-> Hend]. specialize (Hend Hi).
    rewrite slice_window by nia.
    rewrite length_take, length_drop. unfold jslen in *. nia.
Qed.

Lemma chunkText_sizes_witness :
  Forall (fun c => (1 <= length c <= Z.to_nat 4)%nat) [js "abcd"; js "defg"; js "ghij"]
  /\ (forall (i : nat) (c : jsstring),
        [js "abcd"; js "defg"; js "ghij"] !! i = Some c ->
        (S i < length [js "abcd"; js "defg"; js "ghij"])%nat ->
        length c = Z.to_nat 4).
Proof.
  apply (chunkText_sizes 10 (js "abcdefghij") 4 1); [lia|lia|reflexivity].
Defined.

(** X3. [chunkText] does not check its options. When the overlap is not
    smaller than the size the window never advances: on a text longer than
    [size] no number of iterations ends the loop, and the call ends with
    the [RangeError: Invalid array length] that [chunks.push] throws. *)
Theorem chunkText_runaway (text : jsstring) (size overlap : Z) :
  0 < jslen text -> jslen text > size -> size <= overlap ->
  (forall fuel : nat, chunkText fuel text size overlap = None)
  /\ chunkTextRun text size overlap
     = Throw (JsThrown true (js "Invalid array length")
                (js "RangeError: Invalid array length")).
Proof.
  intros Hne Hlong Hbad.
  assert (Hnone : forall fuel : nat, chunkText fuel text size overlap = None).
  { intros fuel. unfold chunkText.
    destruct (Z.eqb_spec (jslen text) 0); [lia|].
    destruct (Z.leb_spec (jslen text) size); [lia|].
    by apply chunkLoop_never_ends. }
  split; [exact Hnone|]. unfold chunkTextRun. by rewrite Hnone.
Qed.

Lemma chunkText_runaway_witness :
  chunkText 1000 (js "abcdefghij") 4 4 = None
  /\ chunkTextRun (js "abcdefghij") 4 4
     = Throw (JsThrown true (js "Invalid array length")
                (js "RangeError: Invalid array length")).
Proof.
  destruct (chunkText_runaway (js "abcdefghij") 4 4) as [Hnone Hrun];
    [reflexivity|reflexivity|lia|].
  split; [apply Hnone|exact Hrun].
Defined.

(** ** The context packer, continued *)

Lemma firstSeen_snoc (l : list jsstring) (x : jsstring) :
  firstSeen (l ++ [x]) = if decide (x ∈ l) then firstSeen l else firstSeen l ++ [x].
Proof.
  unfold firstSeen. rewrite reverse_snoc. simpl.
  destruct (decide_rel elem_of x (reverse l)) as [Hin|Hout];
    destruct (decide (x ∈ l)) as [Hin'|Hout'].
  - done.
  - rewrite elem_of_reverse in Hin. by destruct Hout'.
  - destruct Hout. by rewrite elem_of_reverse.
  - by rewrite reverse_cons.
Qed.

Lemma elem_of_firstSeen (l : list jsstring) (x : jsstring) : x ∈ firstSeen l <-> x ∈ l.
Proof. unfold firstSeen. by rewrite elem_of_reverse, elem_of_remove_dups, elem_of_reverse. Qed.

Lemma NoDup_firstSeen (l : list jsstring) : NoDup (firstSeen l).
Proof. unfold firstSeen. rewrite reverse_Permutation. apply NoDup_remove_dups. Qed.

(** The loop keeps the list of sources equal to the first-seen sources of
    the matches it selected, and the set of seen sources equal to that
    list. *)
Lemma packLoop_sources (matches : list QueryMatch) (maxChars : Z) (st : PackState)
    (seen : list jsstring) :
  ps_sources st = firstSeen seen ->
  (forall x, x ∈ ps_seenSources st <-> x ∈ seen) ->
  exists k : nat,
    ps_chunks (packLoop matches maxChars st)
    = ps_chunks st ++ map matchText (take k matches)
    /\ ps_sources (packLoop matches maxChars st)
       = firstSeen (seen ++ map matchSource (take k matches)).
Proof.
  revert st seen. induction matches as [|m rest IH]; intros st seen Hsrc Hseen.
  - exists 0%nat. simpl. by rewrite !app_nil_r.
  - simpl. destruct (_ >? _).
    { exists 0%nat. simpl. by rewrite !app_nil_r. }
    fold (matchSource m). fold (matchText m).
    match goal with |- context [packLoop rest maxChars ?st'] =>
      destruct (IH st' (seen ++ [matchSource m])) as (k & Hchunks & Hsources) end.
    + simpl. rewrite firstSeen_snoc, Hsrc.
      destruct (decide (matchSource m ∈ seen)) as [Hin|Hout].
      * rewrite bool_decide_eq_true_2; [done|by apply Hseen].
      * rewrite bool_decide_eq_false_2; [done|]. intros Hin. by apply Hout, Hseen.
    + simpl. intros x. rewrite elem_of_app, list_elem_of_singleton.
      destruct (bool_decide (matchSource m ∈ ps_seenSources st)) eqn:Hdec.
      * apply bool_decide_eq_true_1 in Hdec. rewrite Hseen. split; [tauto|].
        intros [Hx| ->]; [done|by apply Hseen].
      * rewrite elem_of_union, elem_of_singleton, Hseen. tauto.
    + exists (S k). simpl. rewrite Hchunks, Hsources. simpl.
      by rewrite <- !app_assoc.
Qed.

(** X4. The sources [packContext] returns are the sources of the matches it
    selected, each listed once, in the order in which they first appear. *)
Theorem packContext_sources_first_seen (matches : list QueryMatch) (maxChars : Z) :
  exists k : nat,
    ps_chunks (packLoop matches maxChars packInit) = map matchText (take k matches)
    /\ sources (packContext matches maxChars)
       = firstSeen (map matchSource (take k matches))
    /\ NoDup (sources (packContext matches maxChars))
    /\ (forall s : jsstring,
          s ∈ sources (packContext matches maxChars)
          <-> exists m, m ∈ take k matches /\ matchSource m = s).
Proof.
  destruct (packLoop_sources matches maxChars packInit []) as (k & Hchunks & Hsources).
  { done. }
  { intros x. simpl. split; [by intros ?%elem_of_empty|by intros ?%elem_of_nil]. }
  exists k. simpl in *. unfold packContext. simpl. rewrite Hsources.
  split; [done|]. split; [done|]. split; [apply NoDup_firstSeen|].
  intros s. rewrite elem_of_firstSeen, list_elem_of_fmap. split.
  - intros (m & -> & Hm). by exists m.
  - intros (m & Hm & <-). by exists m.
Qed.

Lemma joinWith_length (sep : jsstring) (parts : list jsstring) :
  jslen (joinWith sep parts)
  = totalLength parts + jslen sep * Z.max 0 (jslen parts - 1).
Proof.
  induction parts as [|p [|q rest] IH].
  - unfold jslen. simpl. lia.
  - simpl. unfold jslen. simpl. lia.
  - change (joinWith sep (p :: q :: rest)) with (p ++ sep ++ joinWith sep (q :: rest)).
    unfold jslen in *. rewrite !length_app, !Nat2Z.inj_add, IH.
    simpl totalLength. simpl length. unfold jslen. lia.
Qed.

(** X5. The packed context is the selected texts plus seven code units for
    each separator between them, so with [n] selected texts it can be up to
    [7 * (n - 1)] code units longer than [maxChars]. *)
Theorem packContext_length (matches : list QueryMatch) (maxChars : Z) :
  0 < maxChars ->
  let selected := ps_chunks (packLoop matches maxChars packInit) in
  jslen (context (packContext matches maxChars))
  = totalLength selected + 7 * Z.max 0 (jslen selected - 1)
  /\ jslen (context (packContext matches maxChars))
     <= maxChars + 7 * Z.max 0 (jslen selected - 1).
Proof.
  intros Hmax. cbv zeta. unfold packContext. cbn [context].
  rewrite joinWith_length. change (jslen separator) with 7.
  split; [done|].
  destruct (packLoop_prefix matches maxChars packInit) as (k & _ & Hbound & _);
    [done|simpl; lia|]. lia.
Qed.

Lemma packContext_length_witness :
  let matches := [mkMatch (js "abcd") (js "a.txt"); mkMatch (js "efgh") (js "b.txt")] in
  jslen (context (packContext matches 8)) = 15
  /\ jslen (context (packContext matches 8)) <= 8 + 7 * 1.
Proof.
  exact (packContext_length
           [mkMatch (js "abcd") (js "a.txt"); mkMatch (js "efgh") (js "b.txt")] 8
           eq_refl).
Defined.

(** ** Option normalization, continued *)

(** X6. [normalizeOptions] succeeds exactly when the name is a non-empty
    string and the data is not the empty array; a single path given as a
    string is always accepted, and nothing else is validated. *)
Theorem normalizeOptions_ok_iff (opts : CreateContextWindowOptions) :
  (exists config, normalizeOptions opts = Ok config)
  <-> (exists name, indexName opts = Some name /\ name <> [])
      /\ data opts <> ManyPaths [].
Proof.
  unfold normalizeOptions. split.
  - intros [config Hok].
    destruct (indexName opts) as [[|c name]|]; simpl in Hok; try done.
    split; [by eexists|]. intros Hdata. rewrite Hdata in Hok. done.
  - intros [(name & Hname & Hne) Hdata]. rewrite Hname.
    destruct name as [|c name]; [done|]. simpl.
    destruct (data opts) as [path|[|path paths]|]; simpl; try done; by eexists.
Qed.



(** ** The ask orchestrator, continued *)

(** X8. [ask] calls the embedding collaborator with the question, then,
    if that resolved, the query collaborator with the first vector and the
    configured limits, then, if that resolved too and unless it answers
    without the model, the chat collaborator with the prompt built from the
    packed context: between one and three calls, in this order. It rejects
    exactly when the last call it made rejected, with that call's error
    unchanged. *)
Theorem ask_rejects_with_last_error {World : Type} {P : Platform World}
    (aiModel ns : jsstring) (topK maxChars : Z) (threshold : Q)
    (question : jsstring) (s s' : state World) (r : outcome AskResult) :
  askWith aiModel ns topK maxChars threshold question s = (r, s') ->
  exists evs : list event,
    trace s' = trace s ++ evs
    /\ (1 <= length evs <= 3)%nat
    /\ (forall e : jserror,
          r = Throw e <-> exists ev, last evs = Some ev /\ eventError ev = Some e)
    /\ ((exists embedded,
           evs = [EEmbed [question] embedded] /\ forall vectors, embedded <> Ok vectors)
        \/ (exists vectors found,
              evs = [EEmbed [question] (Ok vectors);
                     EQuery (queryArgsOf ns topK threshold vectors) found]
              /\ forall matches, found = Ok matches ->
                   r = Ok {| ar_text := js "I don't know based on the uploaded files.";
                             ar_sources := [] |})
        \/ (exists vectors matches answered,
              evs = [EEmbed [question] (Ok vectors);
                     EQuery (queryArgsOf ns topK threshold vectors) (Ok matches);
                     EChat {| ca_model := aiModel;
                              ca_system :=
                                buildSystemPrompt (context (packContext matches maxChars));
                              ca_user := question |} answered])).
Proof.
  unfold askWith, bind, call, ret.
  destruct (createOpenAIEmbed [question] (world s)) as [[vectors|e1|] w1]; cbn [world trace].
  2,3: intros [= <- <-]; eexists [_]; cbn [trace]; split; [done|];
       (split; [simpl; lia|]); split;
       [intros e; simpl; split;
        [intros [= ->]; by eexists
        |intros (ev & [= <-] & Herr); simpl in Herr; congruence]
       |left; eexists; split; [reflexivity|done]].
  fold (queryArgsOf ns topK threshold vectors).
  destruct (createPineconeQuery _ w1) as [[matches|e2|] w2]; cbn [world trace].
  2,3: intros [= <- <-]; eexists [_; _]; cbn [trace]; rewrite <- app_assoc;
       split; [done|]; (split; [simpl; lia|]); split;
       [intros e; simpl; split;
        [intros [= ->]; by eexists
        |intros (ev & [= <-] & Herr); simpl in Herr; congruence]
       |right; left; eexists _, _; split; [reflexivity|done]].
  destruct (_ || _).
  { intros [= <- <-]. eexists [_; _]. cbn [trace]. rewrite <- app_assoc.
    split; [done|]. split; [simpl; lia|]. split.
    - intros e. simpl. split; [done|]. intros (ev & [= <-] & Herr). done.
    - right; left. eexists _, _. split; [reflexivity|]. done. }
  match goal with |- context [createOpenAIChat ?a ?w] =>
    destruct (createOpenAIChat a w) as [[answer|e3|] w3] end; cbn [world trace];
    intros [= <- <-]; eexists [_; _; _]; cbn [trace]; rewrite <- !app_assoc;
    (split; [done|]); (split; [simpl; lia|]);
    (split; [|right; right; eexists _, _, _; reflexivity]);
    intros e; simpl; split;
    try done; try (intros [= ->]; by eexists);
    intros (ev & [= <-] & Herr); simpl in Herr; congruence.
Qed.

Lemma ask_rejects_with_last_error_witness :
  let run := askWith (P := scripted rejectingQueryScript) (js "gpt-4o-mini") (js "ns")
               8 8000 0 (js "When?") (start 0) in
  exists evs : list event,
    trace (snd run) = trace (start 0) ++ evs
    /\ (1 <= length evs <= 3)%nat
    /\ (forall e : jserror,
          fst run = Throw e <-> exists ev, last evs = Some ev /\ eventError ev = Some e)
    /\ ((exists embedded,
           evs = [EEmbed [js "When?"] embedded] /\ forall vectors, embedded <> Ok vectors)
        \/ (exists vectors found,
              evs = [EEmbed [js "When?"] (Ok vectors);
                     EQuery (queryArgsOf (js "ns") 8 0 vectors) found]
              /\ forall matches, found = Ok matches ->
                   fst run
                   = Ok {| ar_text := js "I don't know based on the uploaded files.";
                           ar_sources := [] |})
        \/ (exists vectors matches answered,
              evs = [EEmbed [js "When?"] (Ok vectors);
                     EQuery (queryArgsOf (js "ns") 8 0 vectors) (Ok matches);
                     EChat {| ca_model := js "gpt-4o-mini";
                              ca_system :=
                                buildSystemPrompt (context (packContext matches 8000));
                              ca_user := js "When?" |} answered])).
Proof.
  apply (ask_rejects_with_last_error (P := scripted rejectingQueryScript)
           (js "gpt-4o-mini") (js "ns") 8 8000 0 (js "When?") (start 0)).
  apply surjective_pairing.
Defined.

(** X9. When the packed context is not blank, [ask] calls the chat
    collaborator once, with the configured model, the question as user text
    and a system prompt that ends with the packed context, and returns its
    answer unchanged together with the packed sources. *)
Theorem ask_answers_from_context {World : Type} {P : Platform World}
    (aiModel ns : jsstring) (topK maxChars : Z) (threshold : Q)
    (question : jsstring) (s : state World)
    (vectors : list (list Q)) (w1 w2 w3 : World) (matches : list QueryMatch)
    (answer : jsstring) :
  let packed := packContext matches maxChars in
  let cargs := {| ca_model := aiModel; ca_system := buildSystemPrompt (context packed);
                  ca_user := question |} in
  createOpenAIEmbed [question] (world s) = (Ok vectors, w1) ->
  createPineconeQuery (queryArgsOf ns topK threshold vectors) w1 = (Ok matches, w2) ->
  trim (context packed) <> [] ->
  createOpenAIChat cargs w2 = (Ok answer, w3) ->
  askWith aiModel ns topK maxChars threshold question s
  = (Ok {| ar_text := answer; ar_sources := sources packed |},
     {| world := w3;
        trace := trace s ++ [EEmbed [question] (Ok vectors);
                             EQuery (queryArgsOf ns topK threshold vectors) (Ok matches);
                             EChat cargs (Ok answer)] |})
  /\ (exists preamble, ca_system cargs = preamble ++ context packed).
Proof.
  intros packed cargs Hembed Hquery Hblank Hchat. subst packed cargs. split.
  - assert (Hcond : (jslen (context (packContext matches maxChars)) =? 0)
                    || (jslen (trim (context (packContext matches maxChars))) =? 0)
                    = false).
    { apply orb_false_intro; apply Z.eqb_neq; unfold jslen.
      - destruct (context (packContext matches maxChars)); [done|simpl; lia].
      - destruct (trim (context (packContext matches maxChars))); [done|simpl; lia]. }
    unfold askWith, bind, call, ret. rewrite Hembed. cbn [world trace].
    fold (queryArgsOf ns topK threshold vectors). rewrite Hquery. cbn [world trace].
    rewrite Hcond. cbn [world trace]. rewrite Hchat. cbn [world trace].
    by rewrite <- !app_assoc.
  - unfold buildSystemPrompt. cbn [ca_system].
    eexists. rewrite !app_assoc. reflexivity.
Qed.

Lemma ask_answers_from_context_witness :
  fst (askWith (P := scripted answeringScript) (js "gpt-4o-mini") (js "ns") 8 8000 0
         (js "When?") (start 0))
  = Ok {| ar_text := js "In 1776 [a.txt]"; ar_sources := [js "a.txt"] |}.
Proof.
  destruct (ask_answers_from_context (P := scripted answeringScript)
              (js "gpt-4o-mini") (js "ns") 8 8000 0 (js "When?") (start 0)
              [[1%Q]] 1%nat 2%nat 3%nat
              [mkMatch (js "America was founded in 1776.") (js "a.txt");
               mkMatch (js "It has fifty states.") (js "a.txt")]
              (js "In 1776 [a.txt]") eq_refl eq_refl) as [Hrun _].
  - vm_compute. discriminate.
  - reflexivity.
  - rewrite Hrun. vm_compute. reflexivity.
Defined.

(** ** The ingestion, continued *)

Section RejectionFacts.
Context {World : Type} {P : Platform World}.

Lemma last_app_nonempty {A} (l k : list A) : k <> [] -> last (l ++ k) = last k.
Proof.
  intros Hk. destruct (last k) as [x|] eqn:Hlast.
  - apply last_Some in Hlast as [k' ->]. rewrite app_assoc. apply last_snoc.
  - apply last_None in Hlast. done.
Qed.

Lemma rejectsExactly_quiet {A} errOf (r : outcome A) :
  (forall err, r <> Throw err) ->
  rejectsExactly (World := World) errOf (liftOutcome r).
Proof.
  intros Hr s r' s' [= <- <-]. exists []. rewrite app_nil_r. split; [done|].
  intros err. split; [by intros ?%Hr|]. by intros (ev & ? & _).
Qed.

Lemma rejectsExactly_call {A} errOf (ev : outcome A -> event) (h : Async World A) :
  (forall r, errOf (ev r) = outcomeError r) ->
  rejectsExactly errOf (call ev h).
Proof.
  intros Hev s r s'. unfold call. destruct (h (world s)) as [r0 w].
  intros [= <- <-]. exists [ev r0]. split; [done|]. intros err. simpl.
  split.
  - intros ->. eexists. split; [done|]. by rewrite Hev.
  - intros (ev' & [= <-] & Herr). rewrite Hev in Herr. destruct r0; simpl in Herr; congruence.
Qed.

Lemma rejectsExactly_bind {A B} errOf (m : M World A) (k : A -> M World B) :
  rejectsExactly errOf m -> (forall a, rejectsExactly errOf (k a)) ->
  rejectsExactly errOf (bind m k).
Proof.
  intros Hm Hk s r s'. unfold bind. destruct (m s) as [r1 s1] eqn:Hrun.
  apply Hm in Hrun as (evs1 & Htr1 & Hiff1).
  destruct r1 as [a|e|].
  - intros Hrun2. apply Hk in Hrun2 as (evs2 & Htr2 & Hiff2).
    exists (evs1 ++ evs2). rewrite Htr2, Htr1, <- app_assoc. split; [done|].
    intros err. rewrite Hiff2. destruct evs2 as [|ev2 evs2].
    + rewrite app_nil_r. split; [by intros (ev & ? & _)|].
      intros Hlast. by apply Hiff1 in Hlast.
    + by rewrite last_app_nonempty.
  - intros [= <- <-]. exists evs1. split; [done|]. intros err. rewrite <- Hiff1.
    split; congruence.
  - intros [= <- <-]. exists evs1. split; [done|]. intros err. rewrite <- Hiff1.
    split; congruence.
Qed.

Lemma rejectsExactly_forEachM {A S} errOf (body : S -> A -> M World S)
    (xs : list A) (acc : S) :
  (forall acc x, rejectsExactly errOf (body acc x)) ->
  rejectsExactly errOf (forEachM body xs acc).
Proof.
  intros Hbody. revert acc. induction xs as [|x xs IH]; intros acc; simpl.
  - by apply (rejectsExactly_quiet errOf (Ok acc)).
  - apply rejectsExactly_bind; [apply Hbody|apply IH].
Qed.

Lemma rejectsExactly_collectFiles (fuel : nat) (paths : list (option jsstring)) :
  rejectsExactly ingestError (collectFiles fuel paths).
Proof.
  revert paths. induction fuel as [|fuel IH]; intros paths; simpl.
  - by apply (rejectsExactly_quiet ingestError Diverge).
  - apply rejectsExactly_forEachM. intros files [path|].
    2:{ apply rejectsExactly_bind; [apply rejectsExactly_call; by intros []|].
        intros stats. by apply (rejectsExactly_quiet ingestError (Ok _)). }
    apply rejectsExactly_bind; [apply rejectsExactly_call; by intros []|]. intros stats.
    destruct (st_isFile stats).
    { destruct (isSupportedFile path); by apply (rejectsExactly_quiet ingestError (Ok _)). }
    destruct (st_isDirectory stats);
      [|by apply (rejectsExactly_quiet ingestError (Ok _))].
    apply rejectsExactly_bind; [apply rejectsExactly_call; by intros []|]. intros entries.
    apply rejectsExactly_forEachM. intros files' entry.
    destruct (de_isDirectory entry).
    { apply rejectsExactly_bind; [apply IH|]. intros subFiles.
      by apply (rejectsExactly_quiet ingestError (Ok _)). }
    destruct (de_isFile entry && isSupportedFile _);
      by apply (rejectsExactly_quiet ingestError (Ok _)).
Qed.

(** Reading one file never rejects, whatever the extractor did. *)
Lemma rejectsExactly_processFile (size overlap : Z)
    (allRecords : list VectorRecord) (filepath : jsstring) :
  rejectsExactly ingestError (processFile size overlap allRecords filepath).
Proof.
  intros s r s'. unfold processFile, tryCatch, bind, call, ret, liftOutcome.
  destruct (readAsText filepath (world s)) as [[text|e|] w]; simpl.
  - destruct (_ || _); [|destruct (chunkTextRun _ _ _)];
      intros [= <- <-]; eexists [_]; (split; [done|]); intros err; simpl;
      (split; [done|]); by intros (ev & [= <-] & ?).
  - intros [= <- <-]. eexists [_]. split; [done|]. intros err. simpl.
    split; [done|]. by intros (ev & [= <-] & ?).
  - intros [= <- <-]. eexists [_]. split; [done|]. intros err. simpl.
    split; [done|]. by intros (ev & [= <-] & ?).
Qed.

Lemma rejectsExactly_embedBatch (embed : EmbedFn World)
    (allRecords : list VectorRecord) (i : nat) :
  rejectsExactly ingestError (embedBatch embed allRecords i).
Proof.
  intros s r s'. unfold embedBatch, tryCatch, bind, call, ret, throw.
  destruct (embed _ (world s)) as [[embeddings|e|] w]; intros [= <- <-]; simpl;
    eexists [_]; (split; [done|]); intros err; simpl.
  - split; [done|]. by intros (ev & [= <-] & ?).
  - split.
    + intros [= <-]. by eexists.
    + intros (ev & [= <-] & [= <-]). done.
  - split; [done|]. by intros (ev & [= <-] & ?).
Qed.

End RejectionFacts.

(** X10. [ingestPaths] rejects exactly when the last call it made is a
    rejected [stat], [readdir], embedding or [upsert] call. The error of a
    [stat], [readdir] or [upsert] call is passed on unchanged, that of an
    embedding call is wrapped in [Embedding batch failed: ...]. A rejected
    [readAsText] is never the cause: the file is skipped. *)
Theorem ingest_rejects_exactly {World : Type} {P : Platform World}
    (fuel : nat) (options : IngestOptions World)
    (s s' : state World) (r : outcome unit) :
  ingestPaths fuel options s = (r, s') ->
  exists evs : list event,
    trace s' = trace s ++ evs
    /\ forall err : jserror,
         r = Throw err <-> exists ev, last evs = Some ev /\ ingestError ev = Some err.
Proof.
  revert s r s'. change (rejectsExactly ingestError (ingestPaths fuel options)).
  unfold ingestPaths.
  apply rejectsExactly_bind; [apply rejectsExactly_collectFiles|]. intros files.
  destruct (length files =? 0)%nat; [by apply (rejectsExactly_quiet ingestError (Ok tt))|].
  apply rejectsExactly_bind.
  { apply rejectsExactly_forEachM. intros acc x. apply rejectsExactly_processFile. }
  intros allRecords.
  destruct (length allRecords =? 0)%nat;
    [by apply (rejectsExactly_quiet ingestError (Ok tt))|].
  apply rejectsExactly_bind.
  { apply rejectsExactly_forEachM. intros acc x. apply rejectsExactly_embedBatch. }
  intros embedded. apply rejectsExactly_call. by intros [].
Qed.

Lemma ingest_rejects_exactly_witness :
  fst missingPathRun = Ok tt
  /\ Exists (fun e => e = EReadAsText (js "b.txt") (Throw (JsError (js "ENOENT"))))
       (trace (snd missingPathRun))
  /\ exists evs : list event,
       trace (snd missingPathRun) = trace (start 0) ++ evs
       /\ forall err : jserror,
            fst missingPathRun = Throw err
            <-> exists ev, last evs = Some ev /\ ingestError ev = Some err.
Proof.
  split; [vm_compute; reflexivity|]. split.
  - vm_compute.
    solve [repeat first [apply Exists_cons_hd; reflexivity | apply Exists_cons_tl]].
  - apply (ingest_rejects_exactly (P := scripted missingPathScript) 50
             missingPathOptions (start 0)).
    apply surjective_pairing.
Defined.

Section WalkFacts.
Context {World : Type} {P : Platform World}.

(** A property of the accumulator that every iteration keeps holds of the
    result of the loop. *)
Lemma forEachM_invariant {A S} (I : S -> Prop) (body : S -> A -> M World S)
    (xs : list A) (acc acc' : S) (s s' : state World) :
  (forall acc x s acc' s', I acc -> body acc x s = (Ok acc', s') -> I acc') ->
  I acc ->
  forEachM body xs acc s = (Ok acc', s') ->
  I acc'.
Proof.
  intros Hbody. revert acc s. induction xs as [|x xs IH]; intros acc s Hacc; simpl.
  - by intros [= <- <-].
  - unfold bind. destruct (body acc x s) as [[acc1|e|] s1] eqn:Hstep; [|done..].
    apply IH. by eapply Hbody.
Qed.

Lemma collectFiles_keeps_supported (fuel : nat) (paths : list (option jsstring))
    (files : list jsstring) (s s' : state World) :
  collectFiles fuel paths s = (Ok files, s') ->
  Forall (fun f => isSupportedFile f = true) files.
Proof.
  revert paths files s s'. induction fuel as [|fuel IH]; intros paths files s s'; [done|].
  simpl. apply forEachM_invariant; [|constructor].
  clear files s s'. intros files [path|] s files' s' Hfiles; unfold bind, call, ret;
    [|done].
  destruct (stat path (world s)) as [[stats|e|] w]; [|done..]. cbn [world trace].
  destruct (st_isFile stats).
  { destruct (isSupportedFile path) eqn:Hsup; intros [= <- <-]; [|done].
    apply Forall_app. by repeat constructor. }
  destruct (st_isDirectory stats); [|by intros [= <- <-]]. cbn [world trace].
  destruct (readdir path w) as [[entries|e|] w']; [|done..].
  apply forEachM_invariant; [|done].
  intros files1 entry s1 files2 s2 Hfiles1.
  destruct (de_isDirectory entry).
  { unfold bind, ret.
    destruct (collectFiles fuel _ s1) as [[subFiles|e|] s3] eqn:Hsub; [|done..].
    intros [= <- <-]. apply Forall_app. split; [done|]. by eapply IH. }
  destruct (de_isFile entry && isSupportedFile _) eqn:Hsup; intros [= <- <-]; [|done].
  apply andb_prop in Hsup as [_ Hsup]. apply Forall_app. by repeat constructor.
Qed.

End WalkFacts.

Section SupportedFacts.
Context {World : Type} {P : Platform World}.

Lemma emits_weaken {A} (ok ok' : event -> Prop) (m : M World A) :
  emits ok m -> (forall e, ok e -> ok' e) -> emits ok' m.
Proof.
  intros Hm Himp s r s' Hrun. apply Hm in Hrun as (evs & Htr & Hok).
  exists evs. split; [done|]. by eapply Forall_impl.
Qed.

Lemma emits_bind_result {A B} ok (Q : A -> Prop) (m : M World A) (k : A -> M World B) :
  (forall s a s', m s = (Ok a, s') -> Q a) ->
  emits ok m -> (forall a, Q a -> emits ok (k a)) -> emits ok (bind m k).
Proof.
  intros HQ Hm Hk s r s'. unfold bind. destruct (m s) as [r1 s1] eqn:Hrun.
  pose proof (Hm _ _ _ Hrun) as (evs1 & Htr1 & Hok1).
  destruct r1 as [a|e|].
  - intros Hrun2. apply (Hk a (HQ _ _ _ Hrun)) in Hrun2 as (evs2 & Htr2 & Hok2).
    exists (evs1 ++ evs2). rewrite Htr2, Htr1, <- app_assoc.
    split; [done|]. by apply Forall_app.
  - intros [= <- <-]. by exists evs1.
  - intros [= <- <-]. by exists evs1.
Qed.

Lemma emits_processFile_path (size overlap : Z)
    (allRecords : list VectorRecord) (filepath : jsstring) :
  emits (fun e => exists res, e = EReadAsText filepath res)
    (processFile size overlap allRecords filepath).
Proof.
  unfold processFile. apply emits_tryCatch; [|intros e; apply emits_ret].
  apply emits_bind; [apply emits_call; by eexists|]. intros text.
  destruct (_ || _); [apply emits_ret|].
  apply emits_bind; [|intros chunks; apply emits_ret].
  intros s r s' [= <- <-]. exists []. by rewrite app_nil_r.
Qed.

Lemma emits_processLoop_supported (size overlap : Z)
    (files : list jsstring) (acc : list VectorRecord) :
  Forall (fun f => isSupportedFile f = true) files ->
  emits readsSupported (forEachM (processFile size overlap) files acc).
Proof.
  intros Hfiles. revert acc. induction Hfiles as [|file files Hfile _ IH]; intros acc; simpl.
  - apply emits_ret.
  - apply emits_bind; [|apply IH].
    eapply emits_weaken; [apply emits_processFile_path|].
    intros e [res ->] path res' [= <- _]. done.
Qed.

Lemma emits_embedBatch (embed : EmbedFn World) (allRecords : list VectorRecord) (i : nat) :
  emits (fun e => isEmbed e = true) (embedBatch embed allRecords i).
Proof.
  unfold embedBatch. apply emits_tryCatch; [|intros e; apply emits_throw].
  apply emits_bind; [by apply emits_call|]. intros embeddings. apply emits_ret.
Qed.

End SupportedFacts.

Lemma emits_ingestPaths {World : Type} {P : Platform World}
    (fuel : nat) (options : IngestOptions World) :
  emits readsSupported (ingestPaths fuel options).
Proof.
  unfold ingestPaths.
  apply (emits_bind_result _ (Forall (fun f => isSupportedFile f = true))).
  { intros s0 files s0'. apply collectFiles_keeps_supported. }
  { eapply emits_weaken; [apply emits_collectFiles|]. by intros []. }
  intros files Hfiles. destruct (length files =? 0)%nat; [apply emits_ret|].
  apply emits_bind; [by apply emits_processLoop_supported|]. intros allRecords.
  destruct (length allRecords =? 0)%nat; [apply emits_ret|].
  apply emits_bind.
  { apply emits_forEachM. intros acc x.
    eapply emits_weaken; [apply emits_embedBatch|]. by intros []. }
  intros embedded. apply emits_call. by intros res path res'.
Qed.

(** X11. The directory walk returns supported files only, so [ingestPaths]
    never hands the extractor a file whose extension is not [.txt], [.md]
    or [.pdf]. *)
Theorem ingest_reads_supported_only {World : Type} {P : Platform World}
    (fuel : nat) (options : IngestOptions World)
    (s s' : state World) (r : outcome unit) :
  ingestPaths fuel options s = (r, s') ->
  exists evs : list event,
    trace s' = trace s ++ evs
    /\ forall path res, EReadAsText path res ∈ evs -> isSupportedFile path = true.
Proof.
  intros Hrun.
  apply emits_ingestPaths in Hrun as (evs & Htr & Hok). exists evs. split; [done|].
  intros path res Hin. rewrite Forall_forall in Hok. by eapply Hok.
Qed.

Lemma ingest_reads_supported_only_witness :
  readsOf (trace (snd treeRun))
  = [(js "docs/a.txt", Throw (JsError (js "ENOENT")));
     (js "docs/sub/b.md", Throw (JsError (js "ENOENT")))]
  /\ exists evs : list event,
       trace (snd treeRun) = trace (start 0) ++ evs
       /\ forall path res,
            EReadAsText path res ∈ evs ->
            isSupportedFile (P := scripted treeScript) path = true.
Proof.
  split; [vm_compute; reflexivity|].
  apply (ingest_reads_supported_only (P := scripted treeScript) 5 treeOptions (start 0)
           (snd treeRun) (fst treeRun)).
  symmetry. apply surjective_pairing.
Defined.

(** X12. Nothing checks that the overlap is smaller than the chunk size.
    With [overlap >= size], a file that is read, is not blank and is longer
    than [size] makes the chunker fail; the failure is caught with the read
    failures, so the file is skipped: it adds no record, nothing is
    rejected, and the loop goes on with the next file. *)
Theorem processFile_skips_runaway {World : Type} {P : Platform World}
    (size overlap : Z) (allRecords : list VectorRecord)
    (filepath text : jsstring) (s : state World) (w : World) :
  readAsText filepath (world s) = (Ok text, w) ->
  trim text <> [] -> jslen text > size -> size <= overlap ->
  processFile size overlap allRecords filepath s
  = (Ok allRecords,
     {| world := w; trace := trace s ++ [EReadAsText filepath (Ok text)] |}).
Proof.
  intros Hread Hblank Hlong Hbad.
  assert (Hne : 0 < jslen text).
  { unfold jslen. destruct text; [done|simpl; lia]. }
  unfold processFile, tryCatch, bind, call, ret, liftOutcome.
  rewrite Hread. cbn [world trace].
  replace ((jslen text =? 0) || (jslen (trim text) =? 0)) with false.
  - unfold chunkTextRun, chunkText.
    destruct (Z.eqb_spec (jslen text) 0); [lia|].
    destruct (Z.leb_spec (jslen text) size); [lia|].
    by rewrite (chunkLoop_never_ends text size overlap Hne Hlong Hbad).
  - symmetry. apply orb_false_intro; apply Z.eqb_neq; unfold jslen in *; [lia|].
    destruct (trim text); [done|simpl; lia].
Qed.

Lemma processFile_skips_runaway_witness :
  processFile (P := scripted stuckScript) 4 4 [] (js "a.txt") (start 0)
  = (Ok [],
     {| world := 1%nat;
        trace := trace (start 0) ++ [EReadAsText (js "a.txt") (Ok (js "abcdefghij"))] |}).
Proof.
  apply (processFile_skips_runaway (P := scripted stuckScript) 4 4 [] (js "a.txt")
           (js "abcdefghij") (start 0) 1%nat);
    [reflexivity|vm_compute; discriminate|reflexivity|lia].
Defined.

Section BatchFacts.
Context {World : Type} {P : Platform World}.

Lemma slice_batch {A} (l : list A) (i : nat) :
  slice l (Z.of_nat i) (Z.of_nat i + Z.of_nat batchSize) = take batchSize (drop i l).
Proof.
  rewrite slice_nonneg by lia. unfold jslen, batchSize.
  destruct (Nat.le_gt_cases (length l) i) as [Hout|Hin].
  - rewrite !drop_ge by lia. by rewrite !take_nil.
  - rewrite (Z.min_l (Z.of_nat i)) by lia. rewrite Nat2Z.id.
    destruct (Nat.le_gt_cases (i + 100) (length l)) as [Hfit|Hend].
    + f_equal. lia.
    + rewrite !take_ge; [done|rewrite length_drop; lia..].
Qed.

(** Assigning the values of a batch, seen from one index. *)
Lemma assign_lookup (f : nat -> VectorRecord -> VectorRecord) (i : nat)
    (b a : nat) (recs : list VectorRecord) (k : nat) :
  foldl (fun recs j => alter (f j) (i + j)%nat recs) recs (seq a b) !! k
  = if decide (i + a <= k < i + a + b)%nat then f (k - i)%nat <$> recs !! k
    else recs !! k.
Proof.
  revert a recs. induction b as [|b IH]; intros a recs; simpl.
  - destruct (decide _); [lia|done].
  - rewrite IH, list_lookup_alter.
    destruct (decide (i + S a <= k < i + S a + b)%nat),
      (decide (i + a = k)%nat), (decide (i + a <= k < i + a + S b)%nat); try lia; try done.
    subst k. by replace (i + a - i)%nat with a by lia.
Qed.

Lemma assign_keeps {B} (g : VectorRecord -> B) (recs : list VectorRecord) (i : nat)
    (embeddings : list (list Q)) (js : list nat) :
  (forall v r, g (setValues v r) = g r) ->
  map g (foldl (fun recs j => alter (setValues (embeddings !! j)) (i + j)%nat recs) recs js)
  = map g recs.
Proof.
  intros Hg. revert recs. induction js as [|j js IH]; intros recs; simpl; [done|].
  rewrite IH. rewrite (list_fmap_alter g _ id); [|by apply Forall_true].
  apply list_alter_id. done.
Qed.

(** One resolved batch: the call made, and the record found afterwards at
    each index. *)
Lemma embedBatch_resolved (embed : EmbedFn World) (recs recs' : list VectorRecord)
    (i : nat) (s s' : state World) :
  embedBatch embed recs i s = (Ok recs', s') ->
  exists reply,
    trace s' = trace s ++ [EEmbed (take batchSize (drop i (map recordText recs))) (Ok reply)]
    /\ map vr_metadata recs' = map vr_metadata recs
    /\ forall k,
         recs' !! k
         = if decide (i <= k < i + batchSize)%nat
           then setValues (reply !! (k - i)%nat) <$> recs !! k
           else recs !! k.
Proof.
  unfold embedBatch, tryCatch, bind, call, ret, throw.
  destruct (embed _ (world s)) as [[reply|e|] w]; simpl; [|done..].
  intros [= <- <-]. exists reply. simpl. split; [|split].
  - rewrite slice_batch. unfold recordText. by rewrite fmap_take, fmap_drop.
  - by apply assign_keeps.
  - intros k. rewrite (assign_lookup (fun j => setValues (reply !! j))).
    rewrite slice_batch, length_take, length_drop. unfold batchSize.
    destruct (decide (i + 0 <= k < i + 0 + 100 `min` (length recs - i))%nat),
      (decide (i <= k < i + 100)%nat); try lia; try done.
    rewrite lookup_ge_None_2 by lia. done.
Qed.

(** The loop over batches [a], [a + 1], ..., when it resolves. *)
Lemma embedLoop_resolved (embed : EmbedFn World) (cnt a : nat)
    (recs recs' : list VectorRecord) (s s' : state World) :
  forEachM (embedBatch embed) (map (fun j => j * batchSize)%nat (seq a cnt)) recs s
  = (Ok recs', s') ->
  exists evs,
    trace s' = trace s ++ evs
    /\ Forall (fun e => isEmbed e = true) evs
    /\ length (embedReplies evs) = cnt
    /\ embeddedTexts evs
       = map (fun j => take batchSize (drop (j * batchSize) (map recordText recs)))
           (seq a cnt)
    /\ map vr_metadata recs' = map vr_metadata recs
    /\ forall j i, (i < batchSize)%nat ->
         recs' !! (j * batchSize + i)%nat
         = match (if decide (a <= j)%nat then embedReplies evs !! (j - a)%nat else None) with
           | Some reply => setValues (reply !! i) <$> recs !! (j * batchSize + i)%nat
           | None => recs !! (j * batchSize + i)%nat
           end.
Proof.
  revert a recs s. induction cnt as [|cnt IH]; intros a recs s; simpl.
  - intros [= <- <-]. exists []. rewrite app_nil_r. repeat split; try done.
    intros j i Hi. by destruct (decide _).
  - unfold bind at 1.
    destruct (embedBatch embed recs (a * batchSize) s) as [[recs1|e|] s1] eqn:Hbatch;
      [|done..].
    apply embedBatch_resolved in Hbatch as (reply & Htr1 & Hmeta1 & Hlook1).
    intros Hrest. apply IH in Hrest as (evs & Htr & Hemb & Hlen & Htexts & Hmeta & Hlook).
    eexists (_ :: evs). rewrite Htr, Htr1, <- app_assoc.
    split; [done|]. split; [by constructor|].
    split; [simpl; by rewrite Hlen|].
    assert (Htext1 : map recordText recs1 = map recordText recs).
    { pose proof (f_equal (map md_text) Hmeta1) as Htext.
      rewrite <- !list_fmap_compose in Htext. exact Htext. }
    split. { simpl. by rewrite Htexts, Htext1. }
    split; [congruence|].
    intros j i Hi. rewrite (Hlook j i Hi). simpl.
    destruct (decide (S a <= j)%nat) as [Hgt|Hle].
    + rewrite decide_True by lia.
      replace (j - a)%nat with (S (j - S a)) by lia. simpl.
      rewrite Hlook1, decide_False by (unfold batchSize in *; lia). done.
    + rewrite Hlook1. destruct (decide (a <= j)%nat) as [Hge|Hlt].
      * assert (j = a) as -> by lia. rewrite Nat.sub_diag. simpl.
        rewrite decide_True by (unfold batchSize in *; lia).
        by replace (a * batchSize + i - a * batchSize)%nat with i by lia.
      * rewrite decide_False by (unfold batchSize in *; lia). done.
Qed.

End BatchFacts.

Lemma omap_none {A B} (f : A -> option B) (l : list A) :
  Forall (fun x => f x = None) l -> omap f l = [].
Proof. induction 1 as [|x l Hx _ IH]; simpl; [done|]. by rewrite Hx. Qed.

Lemma batches_partition {A} (T : list A) (cnt : nat) :
  concat (map (fun j => take batchSize (drop (j * batchSize) T)) (seq 0 cnt))
  = take (cnt * batchSize) T.
Proof.
  induction cnt as [|cnt IH]; [done|].
  rewrite seq_S, map_app, concat_app, IH. simpl. rewrite app_nil_r.
  rewrite take_take_drop. f_equal. unfold batchSize. lia.
Qed.

Lemma batchStarts_count (n : nat) :
  (n <= (n + batchSize - 1) / batchSize * batchSize)%nat
  /\ (forall j, j < (n + batchSize - 1) / batchSize -> j * batchSize < n)%nat.
Proof.
  unfold batchSize.
  pose proof (Nat.div_mod_eq (n + 100 - 1) 100) as Hdiv.
  pose proof (Nat.mod_upper_bound (n + 100 - 1) 100 ltac:(lia)) as Hmod.
  split; [lia|]. intros j Hj. lia.
Qed.

Section IngestBatches.
Context {World : Type} {P : Platform World}.

(** A run that resolves either found nothing to store and called neither
    the embedding nor the upsert collaborator, or embedded the records batch
    by batch and handed them over in one upsert call. *)
Lemma ingestPaths_resolved (fuel : nat) (options : IngestOptions World)
    (s s' : state World) :
  ingestPaths fuel options s = (Ok tt, s') ->
  exists evs,
    trace s' = trace s ++ evs
    /\ ((embeddedTexts evs = [] /\ embedReplies evs = [] /\ upsertedRecords evs = [])
        \/ exists recs recs',
             recs <> []
             /\ upsertedRecords evs = [recs']
             /\ length (embedReplies evs) = ((length recs + batchSize - 1) / batchSize)%nat
             /\ embeddedTexts evs
                = map (fun j => take batchSize (drop (j * batchSize) (map recordText recs)))
                    (seq 0 ((length recs + batchSize - 1) / batchSize))
             /\ map vr_metadata recs' = map vr_metadata recs
             /\ forall j i rec, (i < batchSize)%nat ->
                  recs' !! (j * batchSize + i)%nat = Some rec ->
                  exists reply, embedReplies evs !! j = Some reply
                                /\ vr_values rec = reply !! i).
Proof.
  unfold ingestPaths. unfold bind at 1.
  destruct (collectFiles fuel (inputs options) s) as [[files|e|] s1] eqn:Hwalk; [|done..].
  apply emits_collectFiles in Hwalk as (evs1 & Htr1 & Hfs).
  assert (H1 : embeddedTexts evs1 = [] /\ embedReplies evs1 = []
               /\ upsertedRecords evs1 = []).
  { repeat split; apply omap_none; (eapply Forall_impl; [exact Hfs|]); by intros []. }
  destruct H1 as (Ht1 & Hr1 & Hu1).
  destruct (length files =? 0)%nat.
  { intros [= <-]. exists evs1. split; [done|]. by left. }
  unfold bind at 1.
  destruct (forEachM _ files [] s1) as [[allRecords|e|] s2] eqn:Hloop; [|done..].
  assert (Hreads : emits (fun e => isRead e = true)
                     (forEachM (processFile (io_chunkSize options)
                                  (io_chunkOverlap options)) files [])).
  { apply emits_forEachM. intros acc x. apply emits_processFile. }
  apply Hreads in Hloop as (evs2 & Htr2 & Hrd).
  assert (H2 : embeddedTexts evs2 = [] /\ embedReplies evs2 = []
               /\ upsertedRecords evs2 = []).
  { repeat split; apply omap_none; (eapply Forall_impl; [exact Hrd|]); by intros []. }
  destruct H2 as (Ht2 & Hr2 & Hu2).
  destruct (length allRecords =? 0)%nat eqn:Hempty.
  { intros [= <-]. exists (evs1 ++ evs2). rewrite Htr2, Htr1, <- app_assoc.
    split; [done|]. left. unfold embeddedTexts, embedReplies, upsertedRecords in *.
    by rewrite !omap_app, Ht1, Ht2, Hr1, Hr2, Hu1, Hu2. }
  apply Nat.eqb_neq in Hempty.
  unfold bind at 1.
  destruct (forEachM _ _ allRecords s2) as [[embedded|e|] s3] eqn:Hbatches; [|done..].
  apply embedLoop_resolved in Hbatches
    as (evs3 & Htr3 & Hemb & Hlen & Htexts & Hmeta & Hlook).
  assert (Hu3 : upsertedRecords evs3 = []).
  { apply omap_none. eapply Forall_impl; [exact Hemb|]. by intros []. }
  unfold call. destruct (upsert options embedded _ (world s3)) as [r w].
  intros [= -> <-]. simpl.
  exists (evs1 ++ evs2 ++ evs3 ++ [EUpsert embedded (io_namespace options) (Ok tt)]).
  rewrite Htr3, Htr2, Htr1, <- !app_assoc. split; [done|].
  right. exists allRecords, embedded.
  assert (Heq : embeddedTexts (evs1 ++ evs2 ++ evs3 ++
                  [EUpsert embedded (io_namespace options) (Ok tt)]) = embeddedTexts evs3
                /\ embedReplies (evs1 ++ evs2 ++ evs3 ++
                  [EUpsert embedded (io_namespace options) (Ok tt)]) = embedReplies evs3
                /\ upsertedRecords (evs1 ++ evs2 ++ evs3 ++
                  [EUpsert embedded (io_namespace options) (Ok tt)]) = [embedded]).
  { unfold embeddedTexts, embedReplies, upsertedRecords in *.
    rewrite !omap_app, Ht1, Ht2, Hr1, Hr2, Hu1, Hu2, Hu3. simpl.
    by rewrite !app_nil_r. }
  destruct Heq as (-> & -> & ->).
  split; [by destruct allRecords|]. split; [done|]. split; [done|].
  split; [done|]. split; [done|].
  intros j i rec Hi Hrec. rewrite (Hlook j i Hi), decide_True, Nat.sub_0_r in Hrec by lia.
  destruct (embedReplies evs3 !! j) as [reply|] eqn:Hreply.
  - exists reply. split; [done|].
    destruct (allRecords !! (j * batchSize + i)%nat) as [r0|]; [|done].
    by injection Hrec as <-.
  - apply lookup_ge_None in Hreply. rewrite Hlen in Hreply.
    destruct (batchStarts_count (length allRecords)) as [Hcover _].
    apply lookup_lt_Some in Hrec. unfold batchSize in *. nia.
Qed.

End IngestBatches.

(** X13. In a run that resolves, every embedding call carries between 1
    and 100 texts, the texts of all the calls taken together are the texts of
    the records handed to the store, in the same order, and there is at most
    one upsert call, never with an empty list. When nothing was found to
    store, neither collaborator is called. *)
Theorem ingest_batches {World : Type} {P : Platform World}
    (fuel : nat) (options : IngestOptions World)
    (s s' : state World) (evs : list event) :
  ingestPaths fuel options s = (Ok tt, s') ->
  trace s' = trace s ++ evs ->
  Forall (fun texts => (1 <= length texts <= 100)%nat) (embeddedTexts evs)
  /\ concat (embeddedTexts evs) = concat (map (map recordText) (upsertedRecords evs))
  /\ (length (upsertedRecords evs) <= 1)%nat
  /\ Forall (fun records => records <> []) (upsertedRecords evs).
Proof.
  intros Hrun Htr. apply ingestPaths_resolved in Hrun as (evs' & Htr' & Hcases).
  rewrite Htr in Htr'. apply app_inv_head in Htr' as <-.
  destruct Hcases as [(-> & _ & ->)|(recs & recs' & Hne & -> & _ & -> & Hmeta & _)].
  { simpl. split; [constructor|]. split; [done|]. split; [lia|constructor]. }
  destruct (batchStarts_count (length recs)) as [Hcover Hstart].
  assert (Htext : map recordText recs' = map recordText recs).
  { pose proof (f_equal (map md_text) Hmeta) as Htext.
    rewrite <- !list_fmap_compose in Htext. exact Htext. }
  split; [|split; [|split]].
  - apply Forall_forall. intros texts Hin.
    apply list_elem_of_fmap in Hin as (j & -> & Hj).
    apply elem_of_seq in Hj. specialize (Hstart j ltac:(lia)).
    rewrite length_take, length_drop, length_map. unfold batchSize in *. lia.
  - rewrite batches_partition. cbn [map concat]. rewrite app_nil_r, Htext.
    apply take_ge. rewrite length_map. unfold batchSize in *. lia.
  - simpl. lia.
  - repeat constructor. intros ->. apply Hne.
    apply (f_equal length) in Hmeta. rewrite !length_map in Hmeta.
    by destruct recs.
Qed.

(** X14. In a run that resolves, the record at position [i] of batch [j]
    is handed to the store with the vector at position [i] of the reply to
    embedding call [j]; when that reply is too short the record is handed
    over with no vector at all. *)
Theorem ingest_assigns_by_position {World : Type} {P : Platform World}
    (fuel : nat) (options : IngestOptions World)
    (s s' : state World) (evs : list event)
    (records : list VectorRecord) (j i : nat) (rec : VectorRecord) :
  ingestPaths fuel options s = (Ok tt, s') ->
  trace s' = trace s ++ evs ->
  records ∈ upsertedRecords evs ->
  (i < 100)%nat ->
  records !! (j * 100 + i)%nat = Some rec ->
  exists reply : list (list Q),
    embedReplies evs !! j = Some reply /\ vr_values rec = reply !! i.
Proof.
  intros Hrun Htr Hin Hi Hrec.
  apply ingestPaths_resolved in Hrun as (evs' & Htr' & Hcases).
  rewrite Htr in Htr'. apply app_inv_head in Htr' as <-.
  destruct Hcases as [(_ & _ & Hnone)|(recs & recs' & _ & Hups & _ & _ & _ & Hlook)].
  { rewrite Hnone in Hin. by apply elem_of_nil in Hin. }
  rewrite Hups in Hin. apply list_elem_of_singleton in Hin as ->.
  by apply (Hlook j i rec).
Qed.

Lemma ingest_batches_witness :
  embeddedTexts (trace (snd firstRun)) = [[js "America was foun"; js "founded in 1776."]]
  /\ Forall (fun texts => (1 <= length texts <= 100)%nat)
       (embeddedTexts (trace (snd firstRun)))
  /\ concat (embeddedTexts (trace (snd firstRun)))
     = concat (map (map recordText) (upsertedRecords (trace (snd firstRun))))
  /\ (length (upsertedRecords (trace (snd firstRun))) <= 1)%nat
  /\ Forall (fun records => records <> []) (upsertedRecords (trace (snd firstRun))).
Proof.
  split; [vm_compute; reflexivity|].
  apply (ingest_batches (P := scripted bookScript) 50 firstOptions (start 0)
           (snd firstRun) (trace (snd firstRun)));
    [vm_compute; reflexivity|reflexivity].
Defined.

Lemma ingest_assigns_by_position_witness :
  let records := default [] (head (upsertedRecords (trace (snd shortReplyRun)))) in
  let rec := default (makeRecord [] [] 0 []) (records !! 1%nat) in
  length records = 2%nat
  /\ vr_values rec = None
  /\ exists reply : list (list Q),
       embedReplies (trace (snd shortReplyRun)) !! 0%nat = Some reply
       /\ vr_values rec = reply !! 1%nat.
Proof.
  cbv zeta. split; [vm_compute; reflexivity|]. split; [vm_compute; reflexivity|].
  apply (ingest_assigns_by_position (P := scripted shortReplyScript) 50
           shortReplyOptions (start 0) (snd shortReplyRun) (trace (snd shortReplyRun))
           (default [] (head (upsertedRecords (trace (snd shortReplyRun))))) 0 1).
  - vm_compute. reflexivity.
  - reflexivity.
  - assert (Hups : upsertedRecords (trace (snd shortReplyRun))
                   = [default [] (head (upsertedRecords (trace (snd shortReplyRun))))])
      by (vm_compute; reflexivity).
    rewrite Hups at 2. apply list_elem_of_singleton. reflexivity.
  - lia.
  - vm_compute. reflexivity.
Defined.

Lemma ingest_trace_extends {World : Type} {P : Platform World}
    (fuel : nat) (options : IngestOptions World)
    (s s' : state World) (r : outcome unit) :
  ingestPaths fuel options s = (r, s') -> exists evs, trace s' = trace s ++ evs.
Proof.
  intros Hrun. apply emits_ingestPaths in Hrun as (evs & Htr & _).
  by exists evs.
Qed.

(** ** The registry, continued *)

Section RegistryFacts.
Context {World : Type} {P : Platform World}.

(** X15. [deleteCtxWindow] tells whether the name was registered; after it
    the name is not registered, every other entry is as before, and
    [getCtxWindow] on the name connects a new window instead of returning
    the deleted one. After [clearCtxWindows] the name is not registered
    either. *)
Theorem deleteCtxWindow_removes (name : jsstring)
    (options : option GetContextWindowOptions)
    (registry : gmap jsstring (ContextWindow World)) :
  let '(removed, registry') := deleteCtxWindow name registry in
  removed = hasCtxWindow name registry
  /\ hasCtxWindow name registry' = false
  /\ (forall other, other <> name ->
        hasCtxWindow other registry' = hasCtxWindow other registry
        /\ registry' !! other = registry !! other)
  /\ fst (getCtxWindow name options registry')
     = createContextWindowWithoutIngestion name options
  /\ hasCtxWindow name (clearCtxWindows registry) = false.
Proof.
  unfold deleteCtxWindow, hasCtxWindow, getCtxWindow, clearCtxWindows. simpl.
  rewrite lookup_delete_eq, lookup_empty. split; [done|]. split.
  { apply bool_decide_eq_false_2. by intros [? ?]. }
  split; [|split; [done|]].
  - intros other Hother. by rewrite lookup_delete_ne.
  - apply bool_decide_eq_false_2. by intros [? ?].
Qed.

(** X16. [getCtxWindow] is idempotent: a second call on the same name
    returns the window of the first call and leaves the registry as the
    first call left it, whatever options the second call is given. *)
Theorem getCtxWindow_twice (name : jsstring)
    (options1 options2 : option GetContextWindowOptions)
    (registry : gmap jsstring (ContextWindow World)) :
  let '(cw1, registry1) := getCtxWindow name options1 registry in
  getCtxWindow name options2 registry1 = (cw1, registry1).
Proof.
  unfold getCtxWindow. destruct (registry !! name) as [cw|] eqn:Hreg.
  - by rewrite Hreg.
  - by rewrite lookup_insert_eq.
Qed.

(** X17. [createContextWindow] provisions the index before anything else:
    with valid options its first call is [ensurePineconeIndex(1536)], and
    when that call does not resolve nothing is walked, read, embedded or
    stored and the failure is returned unchanged. A window it returns asks
    with the normalized configuration. *)
Theorem createContextWindow_index_first (fuel : nat)
    (opts : CreateContextWindowOptions) (config : NormalizedOptions)
    (s s' : state World) (r : outcome (ContextWindow World)) :
  normalizeOptions opts = Ok config ->
  createContextWindow fuel opts s = (r, s') ->
  exists res rest,
    trace s' = trace s ++ EEnsureIndex 1536 res :: rest
    /\ (forall e, res = Throw e -> rest = [] /\ r = Throw e)
    /\ (res = Diverge -> rest = [] /\ r = Diverge)
    /\ (forall cw, r = Ok cw ->
          res = Ok tt
          /\ cw = {| ask := askWith (aiModel config) (namespace config) (topK config)
                             (maxContextChars config) (scoreThreshold config) |}).
Proof.
  intros Hconfig. unfold createContextWindow, bind at 1, liftOutcome. rewrite Hconfig.
  unfold bind at 1, call at 1.
  destruct (ensurePineconeIndex 1536 (world s)) as [[[]|e|] w].
  - unfold bind.
    match goal with |- context [ingestPaths fuel ?o ?st] =>
      destruct (ingestPaths fuel o st) as [[[]|e|] s2] eqn:Hingest end;
      intros [= <- <-].
    all: match goal with H : ingestPaths _ _ _ = _ |- _ =>
           destruct (ingest_trace_extends _ _ _ _ _ H) as [rest Hrest] end.
    all: exists (Ok tt), rest; cbn [trace] in *; rewrite Hrest, <- app_assoc;
         (split; [done|]); (split; [done|]); (split; [done|]).
    + by intros cw [= <-].
    + done.
    + done.
  - intros [= <- <-]. exists (Throw e), []. cbn [trace]. split; [done|].
    split; [by intros e' [= <-]|]. split; done.
  - intros [= <- <-]. exists Diverge, []. cbn [trace]. split; [done|].
    split; [done|]. split; done.
Qed.

(** X18. When [createCtxWindow] resolves, the window it returns is
    registered under [opts.indexName], the name [createContextWindow]
    required, replacing any window registered under it before and leaving
    every other entry as it was, so [hasCtxWindow] is true of that name and
    [getCtxWindow] returns that very window. *)
Theorem createCtxWindow_registers (fuel : nat) (opts : CreateContextWindowOptions)
    (options : option GetContextWindowOptions)
    (registry registry' : gmap jsstring (ContextWindow World))
    (cw : ContextWindow World) (s s' : state World) :
  createCtxWindow fuel opts registry s = (Ok (cw, registry'), s') ->
  exists name,
    indexName opts = Some name /\ name <> []
    /\ createContextWindow fuel opts s = (Ok cw, s')
    /\ registry' = <[name := cw]> registry
    /\ hasCtxWindow name registry' = true
    /\ getCtxWindow name options registry' = (cw, registry').
Proof.
  unfold createCtxWindow, bind, ret.
  destruct (createContextWindow fuel opts s) as [[cw0|e|] s0] eqn:Hcreate; [|done..].
  intros [= <- <- <-].
  assert (Hname : exists name, indexName opts = Some name /\ name <> []).
  { unfold createContextWindow, bind at 1, liftOutcome in Hcreate.
    destruct (normalizeOptions opts) as [config|e|] eqn:Hconfig; [|done..].
    unfold normalizeOptions in Hconfig.
    destruct (indexName opts) as [[|c name]|]; simpl in Hconfig; try done.
    by eexists. }
  destruct Hname as (name & Hname & Hne). exists name. rewrite Hname. simpl.
  split; [done|]. split; [done|]. split; [done|]. split; [done|].
  unfold hasCtxWindow, getCtxWindow. rewrite lookup_insert_eq.
  split; [by apply bool_decide_eq_true_2|done].
Qed.

End RegistryFacts.

Lemma createContextWindow_index_first_witness :
  exists res rest,
    trace (snd bookWindowRun) = trace (start 0) ++ EEnsureIndex 1536 res :: rest
    /\ (forall e, res = Throw e -> rest = [] /\ fst bookWindowRun = Throw e)
    /\ (res = Diverge -> rest = [] /\ fst bookWindowRun = Diverge)
    /\ (forall cw, fst bookWindowRun = Ok cw ->
          res = Ok tt
          /\ cw = {| ask := askWith (P := scripted bookScript) (js "gpt-4o-mini")
                             (js "my-book") 8 8000 0 |}).
Proof.
  apply (createContextWindow_index_first (P := scripted bookScript) 50 bookOptions
           _ (start 0) (snd bookWindowRun) (fst bookWindowRun) eq_refl).
  apply surjective_pairing.
Defined.

Lemma createCtxWindow_registers_witness :
  exists cw registry',
    fst bookRegistryRun = Ok (cw, registry')
    /\ hasCtxWindow (js "my-book") registry' = true
    /\ getCtxWindow (P := scripted bookScript) (js "my-book") None registry'
       = (cw, registry').
Proof.
  destruct (fst bookRegistryRun) as [[cw registry']|e|] eqn:Hrun;
    [|exfalso; vm_compute in Hrun; discriminate..].
  exists cw, registry'. split; [done|].
  destruct (createCtxWindow_registers (P := scripted bookScript) 50 bookOptions None
              ∅ registry' cw (start 0) (snd bookRegistryRun))
    as (name & Hname & _ & _ & _ & Hhas & Hget).
  - rewrite <- Hrun. apply surjective_pairing.
  - injection Hname as <-. by split.
Defined.

(** * The adapters *)

(** ** The Pinecone query adapter *)

Section QueryAdapterFacts.
Context {W : Type} {K : Sdk W} (env : Env).

(** X19. With a client and a configuration, the query adapter makes one
    query of the configured index, with the metadata included. When the
    query resolves, the adapter resolves with the matches of the response
    that have a score and whose score is at least the threshold, all of
    them and in the order of the response, each with its id and its score
    and with the empty string for a text or a source the response lacks.
    When the query rejects, the adapter rejects with that error behind
    [Pinecone query failed: ]. *)
Theorem pineconeQuery_filters (args : QueryArgs) (client : jsstring)
    (config : PineconeConfig) (st st1 : NodeWorld W)
    (found : outcome (option (list RawMatch))) (w : W) :
  Pinecone.getClient env st = (Ok client, st1) ->
  Pinecone.getPineconeConfig env = Ok config ->
  indexQuery client (pc_indexName config) (qa_namespace args) (qa_vector args)
    (qa_topK args) (nw_inner st1) = (found, w) ->
  nw_calls (snd (Pinecone.createPineconeQuery env args st))
  = nw_calls st
      ++ [SIndexQuery client (pc_indexName config) (qa_namespace args)
            (qa_vector args) (qa_topK args) true]
  /\ nw_inner (snd (Pinecone.createPineconeQuery env args st)) = w
  /\ match found with
     | Ok response =>
         exists matches : list QueryMatch,
           fst (Pinecone.createPineconeQuery env args st) = Ok matches
           /\ matches
              = map Pinecone.toQueryMatch
                  (filter (fun m => Pinecone.scoreAtLeast (qa_scoreThreshold args) m = true)
                     (default [] response))
           /\ Forall (fun m => (qa_scoreThreshold args <= qm_score m)%Q) matches
           /\ (forall (m : RawMatch) (score : Q),
                 m ∈ default [] response -> rw_score m = Some score ->
                 (qa_scoreThreshold args <= score)%Q ->
                 {| qm_id := rw_id m; qm_score := score;
                    qm_metadata :=
                      {| md_text := orString (optChain (rw_metadata m) rm_text) [];
                         md_source := orString (optChain (rw_metadata m) rm_source) [] |} |}
                 ∈ matches)
           /\ map qm_id matches `sublist_of` map rw_id (default [] response)
     | Throw cause =>
         fst (Pinecone.createPineconeQuery env args st)
         = Throw (JsError (js "Pinecone query failed: " ++ errorToString cause))
     | Diverge => fst (Pinecone.createPineconeQuery env args st) = Diverge
     end.
Proof.
  intros Hclient Hconfig Hquery.
  assert (Hcalls : nw_calls st1 = nw_calls st).
  { unfold Pinecone.getClient in Hclient.
    destruct (nw_pineconeClient st); [by injection Hclient as _ <-|].
    rewrite Hconfig in Hclient. by injection Hclient as _ <-. }
  unfold Pinecone.createPineconeQuery, andThen, catch, fromOutcome, resolve, reject.
  rewrite Hclient, Hconfig. unfold sdk. rewrite Hquery.
  destruct found as [response|cause|]; cbn [fst snd nw_calls nw_inner]; rewrite Hcalls;
    (split; [done|]); (split; [done|]); [|done..].
  eexists. split; [reflexivity|]. split; [done|]. split; [|split].
  - apply Forall_fmap, Forall_forall. intros m Hm.
    apply list_elem_of_filter in Hm as [Hscore _].
    unfold Pinecone.scoreAtLeast in Hscore. unfold Pinecone.toQueryMatch. simpl.
    destruct (rw_score m) as [score|]; [|done]. simpl. by apply Qle_bool_iff.
  - intros m score Hm Hscore Hle. apply list_elem_of_fmap. exists m. split.
    + unfold Pinecone.toQueryMatch. by rewrite Hscore.
    + apply list_elem_of_filter. split; [|done].
      unfold Pinecone.scoreAtLeast. rewrite Hscore. by apply Qle_bool_iff.
  - rewrite <- (list_fmap_compose Pinecone.toQueryMatch qm_id).
    apply (fmap_sublist rw_id), sublist_filter.
Qed.

End QueryAdapterFacts.

Lemma pineconeQuery_filters_witness :
  let run := Pinecone.createPineconeQuery (K := scriptedSdk quietSdk) fullEnv
               thresholdArgs (fresh 0) in
  fst run = Ok [ {| qm_id := js "1"; qm_score := 9 # 10;
                    qm_metadata := {| md_text := js "kept"; md_source := [] |} |};
                 {| qm_id := js "4"; qm_score := 1 # 2;
                    qm_metadata := {| md_text := []; md_source := [] |} |} ]
  /\ nw_calls (snd run)
     = [SIndexQuery (js "pc-test") (js "context-window") (js "ns") (Some [1%Q]) 8 true]
  /\ nw_inner (snd run) = 1%nat.
Proof.
  cbv zeta.
  destruct (pineconeQuery_filters (K := scriptedSdk quietSdk) fullEnv thresholdArgs
              (js "pc-test")
              {| pc_apiKey := js "pc-test"; pc_indexName := js "context-window";
                 pc_environment := js "us-east-1" |}
              (fresh 0)
              {| nw_inner := 0%nat; nw_openaiClient := None;
                 nw_pineconeClient := Some (js "pc-test"); nw_calls := [] |}
              (ss_matches quietSdk) 1%nat)
    as (Hcalls & Hinner & matches & Hrun & Hmatches & _);
    [reflexivity|reflexivity|reflexivity|].
  split; [rewrite Hrun, Hmatches; vm_compute; reflexivity|].
  split; [exact Hcalls|exact Hinner].
Defined.

(** ** The Pinecone upsert adapter *)

Section UpsertAdapterFacts.
Context {W : Type} {K : Sdk W}.



End UpsertAdapterFacts.


(** ** Making sure the index exists *)

Section EnsureIndexFacts.
Context {W : Type} {K : Sdk W}.






End EnsureIndexFacts.



(** ** Reading files *)

Section ReaderFacts.
Context {W : Type} {K : Sdk W}.

Lemma supported_cases (filepath : jsstring) :
  let ext := stringToLowerCase (pathExtname filepath) in
  Readers.isSupportedFile filepath
  = bool_decide (ext = js ".txt") || bool_decide (ext = js ".md")
    || bool_decide (ext = js ".pdf").
Proof.
  cbv zeta. unfold Readers.isSupportedFile.
  rewrite <- !bool_decide_or. apply bool_decide_ext.
  rewrite !elem_of_cons, elem_of_nil. tauto.
Qed.

(** X23. A file whose extension is not supported is never opened:
    [readAsText] rejects with [Unsupported file type: <ext>. Supported types:
    .txt, .md, .pdf], not wrapped in the read-failure message, and makes no
    call. *)
Theorem readAsText_unsupported (filepath : jsstring) (st : NodeWorld W) :
  Readers.isSupportedFile filepath = false ->
  Readers.readAsText filepath st
  = (Throw (JsError (js "Unsupported file type: "
                       ++ stringToLowerCase (pathExtname filepath)
                       ++ js ". Supported types: .txt, .md, .pdf")), st).
Proof.
  intros Hunsupported. rewrite supported_cases in Hunsupported. cbv zeta in Hunsupported.
  apply orb_false_iff in Hunsupported as [Htm Hpdf].
  unfold Readers.readAsText. cbv zeta. rewrite Htm, Hpdf.
  unfold catch, reject, Readers.unsupportedError. reflexivity.
Qed.

(** X24. A supported file is read with one [readFile] call: as utf-8 text
    for [.txt] and [.md], as a buffer handed to the PDF parser for [.pdf].
    [readAsText] resolves with the text the read (or the parser) gave. When
    the read or the parser throws, it rejects with [Failed to read file
    <path>: ] followed by that error as a string, except that an [Error]
    whose own message contains [Unsupported] is passed on as it is. *)
Theorem readAsText_supported (filepath : jsstring) (st st' : NodeWorld W)
    (r : outcome jsstring) :
  Readers.isSupportedFile filepath = true ->
  Readers.readAsText filepath st = (r, st') ->
  exists (calls : list sdkCall) (raw : outcome jsstring),
    nw_calls st' = nw_calls st ++ calls
    /\ (stringToLowerCase (pathExtname filepath) <> js ".pdf"
        /\ calls = [SReadFile filepath (Some (js "utf-8"))]
        /\ raw = fst (readFileText filepath (nw_inner st))
        \/ stringToLowerCase (pathExtname filepath) = js ".pdf"
           /\ match readFileBuffer filepath (nw_inner st) with
              | (Ok dataBuffer, w) =>
                  calls = [SReadFile filepath None; SPdf dataBuffer]
                  /\ raw = fst (pdf dataBuffer w)
              | (Throw cause, _) => calls = [SReadFile filepath None] /\ raw = Throw cause
              | (Diverge, _) => calls = [SReadFile filepath None] /\ raw = Diverge
              end)
    /\ match raw with
       | Ok text => r = Ok text
       | Throw cause =>
           r = Throw
                 (if instanceOfErr cause
                     && includes (js "Unsupported") (errorMessage cause)
                  then cause
                  else JsError (js "Failed to read file " ++ filepath ++ js ": "
                                  ++ errorToString cause))
       | Diverge => r = Diverge
       end.
Proof.
  intros Hsupported. rewrite supported_cases in Hsupported. cbv zeta in Hsupported.
  unfold Readers.readAsText. cbv zeta. unfold catch.
  destruct (bool_decide (_ = js ".txt") || bool_decide (_ = js ".md")) eqn:Htm.
  - assert (Hext : stringToLowerCase (pathExtname filepath) <> js ".pdf").
    { apply orb_true_iff in Htm as [Ht|Hm].
      - apply bool_decide_eq_true in Ht. rewrite Ht. done.
      - apply bool_decide_eq_true in Hm. rewrite Hm. done. }
    unfold sdk.
    destruct (readFileText filepath (nw_inner st)) as [[text|cause|] w].
    + intros [= <- <-]. exists [SReadFile filepath (Some (js "utf-8"))], (Ok text).
      cbn [nw_calls fst]. split; [done|]. split; [by left|]. done.
    + unfold reject.
      destruct (instanceOfErr cause && includes (js "Unsupported") (errorMessage cause))
        eqn:Hkeep; intros [= <- <-];
        exists [SReadFile filepath (Some (js "utf-8"))], (Throw cause);
        cbn [nw_calls fst]; (split; [done|]); (split; [by left|]); by rewrite Hkeep.
    + intros [= <- <-]. exists [SReadFile filepath (Some (js "utf-8"))], Diverge.
      cbn [nw_calls fst]. split; [done|]. split; [by left|]. done.
  - simpl in Hsupported. rewrite Hsupported.
    apply bool_decide_eq_true in Hsupported.
    unfold andThen, sdk.
    destruct (readFileBuffer filepath (nw_inner st)) as [[dataBuffer|cause|] w].
    + cbn [nw_inner nw_calls nw_openaiClient nw_pineconeClient].
      destruct (pdf dataBuffer w) as [[text|cause|] w2].
      * intros [= <- <-]. exists [SReadFile filepath None; SPdf dataBuffer], (Ok text).
        cbn [nw_calls fst]. rewrite <- app_assoc. split; [done|].
        split; [by right|]. done.
      * unfold reject.
        destruct (instanceOfErr cause && includes (js "Unsupported") (errorMessage cause))
          eqn:Hkeep; intros [= <- <-];
          exists [SReadFile filepath None; SPdf dataBuffer], (Throw cause);
          cbn [nw_calls fst]; rewrite <- app_assoc; (split; [done|]);
          (split; [by right|]); by rewrite Hkeep.
      * intros [= <- <-]. exists [SReadFile filepath None; SPdf dataBuffer], Diverge.
        cbn [nw_calls fst]. rewrite <- app_assoc. split; [done|].
        split; [by right|]. done.
    + unfold reject.
      destruct (instanceOfErr cause && includes (js "Unsupported") (errorMessage cause))
        eqn:Hkeep; intros [= <- <-];
        exists [SReadFile filepath None], (Throw cause);
        cbn [nw_calls]; (split; [done|]); (split; [by right|]); by rewrite Hkeep.
    + intros [= <- <-]. exists [SReadFile filepath None], Diverge.
      cbn [nw_calls]. split; [done|]. split; [by right|]. done.
Qed.

End ReaderFacts.

Lemma readAsText_unsupported_witness :
  Readers.isSupportedFile (K := scriptedSdk quietSdk) (js "logo.png") = false
  /\ Readers.readAsText (K := scriptedSdk quietSdk) (js "logo.png") (fresh 0)
     = (Throw (JsError (js "Unsupported file type: .png. Supported types: .txt, .md, .pdf")),
        fresh 0).
Proof.
  split; [reflexivity|].
  apply (readAsText_unsupported (K := scriptedSdk quietSdk) (js "logo.png") (fresh 0)).
  reflexivity.
Defined.

Lemma readAsText_supported_witness :
  let run := Readers.readAsText (K := scriptedSdk brokenPdf) (js "book.pdf") (fresh 0) in
  fst run
  = Throw (JsError (js "Failed to read file book.pdf: InvalidPDFException: Invalid PDF structure"))
  /\ nw_calls (snd run) = [SReadFile (js "book.pdf") None; SPdf [37; 80; 68; 70]]
  /\ exists (calls : list sdkCall) (raw : outcome jsstring),
       nw_calls (snd run) = nw_calls (fresh 0) ++ calls
       /\ (stringToLowerCase (Sdk := scriptedSdk brokenPdf)
             (pathExtname (Sdk := scriptedSdk brokenPdf) (js "book.pdf")) <> js ".pdf"
           /\ calls = [SReadFile (js "book.pdf") (Some (js "utf-8"))]
           /\ raw = fst (readFileText (Sdk := scriptedSdk brokenPdf) (js "book.pdf")
                           (nw_inner (fresh 0)))
           \/ stringToLowerCase (Sdk := scriptedSdk brokenPdf)
                (pathExtname (Sdk := scriptedSdk brokenPdf) (js "book.pdf")) = js ".pdf"
              /\ match readFileBuffer (Sdk := scriptedSdk brokenPdf) (js "book.pdf")
                         (nw_inner (fresh 0)) with
                 | (Ok dataBuffer, w) =>
                     calls = [SReadFile (js "book.pdf") None; SPdf dataBuffer]
                     /\ raw = fst (pdf (Sdk := scriptedSdk brokenPdf) dataBuffer w)
                 | (Throw cause, _) =>
                     calls = [SReadFile (js "book.pdf") None] /\ raw = Throw cause
                 | (Diverge, _) =>
                     calls = [SReadFile (js "book.pdf") None] /\ raw = Diverge
                 end)
       /\ match raw with
          | Ok text => fst run = Ok text
          | Throw cause =>
              fst run
              = Throw
                  (if instanceOfErr cause
                      && includes (js "Unsupported") (errorMessage cause)
                   then cause
                   else JsError (js "Failed to read file " ++ js "book.pdf" ++ js ": "
                                   ++ errorToString cause))
          | Diverge => fst run = Diverge
          end.
Proof.
  cbv zeta. split; [vm_compute; reflexivity|]. split; [vm_compute; reflexivity|].
  apply (readAsText_supported (K := scriptedSdk brokenPdf) (js "book.pdf") (fresh 0)).
  - reflexivity.
  - apply surjective_pairing.
Defined.

(** ** The library over the adapters *)

Section MissingKeys.
Context {W : Type} {K : Sdk W} (env : Env).

Lemma ensurePineconeIndex_needs_key (dimension : Z) (st : NodeWorld W) :
  isFalsyString (PINECONE_API_KEY env) = true ->
  Pinecone.ensurePineconeIndex env dimension st = (Throw pineconeKeyError, st).
Proof.
  intros Hkey. unfold Pinecone.ensurePineconeIndex, andThen, Pinecone.getClient.
  assert (Hconfig : Pinecone.getPineconeConfig env = Throw pineconeKeyError).
  { unfold Pinecone.getPineconeConfig. cbv zeta. by rewrite Hkey. }
  destruct (nw_pineconeClient st); unfold fromOutcome; by rewrite Hconfig.
Qed.

(** X25. Without a Pinecone API key (unset or empty) [createContextWindow]
    with valid options rejects with the message that asks for
    PINECONE_API_KEY, as it is and not wrapped: the only step taken is the
    index check, no file is looked at and no service is called. *)
Theorem createContextWindow_needs_pinecone_key (fuel : nat)
    (opts : CreateContextWindowOptions) (config : NormalizedOptions)
    (s : state (NodeWorld W)) :
  normalizeOptions opts = Ok config ->
  isFalsyString (PINECONE_API_KEY env) = true ->
  exists s',
    createContextWindow (P := nodePlatform env) fuel opts s
    = (Throw (JsError (js "PINECONE_API_KEY environment variable is required. Get your key from https://app.pinecone.io/")), s')
    /\ world s' = world s
    /\ trace s'
       = trace s
           ++ [EEnsureIndex 1536
                 (Throw (JsError (js "PINECONE_API_KEY environment variable is required. Get your key from https://app.pinecone.io/")))].
Proof.
  intros Hconfig Hkey. unfold createContextWindow, bind, liftOutcome. rewrite Hconfig.
  unfold call. cbn [ensurePineconeIndex nodePlatform].
  rewrite (ensurePineconeIndex_needs_key _ _ Hkey).
  eexists. split; [reflexivity|]. split; reflexivity.
Qed.

(** X26. Without an OpenAI API key and before any client was made, [ask]
    rejects with the message that asks for OPENAI_API_KEY, not wrapped in
    the embedding-failure message: the question is not sent anywhere, and
    neither the store nor the chat model is reached. *)
Theorem ask_needs_openai_key (aiModel namespace : jsstring) (topK maxContextChars : Z)
    (scoreThreshold : Q) (question : jsstring) (s : state (NodeWorld W)) :
  isFalsyString (OPENAI_API_KEY env) = true ->
  nw_openaiClient (world s) = None ->
  exists s',
    askWith (P := nodePlatform env) aiModel namespace topK maxContextChars
      scoreThreshold question s
    = (Throw (JsError (js "OPENAI_API_KEY environment variable is required. Get your key from https://platform.openai.com/api-keys")), s')
    /\ world s' = world s
    /\ trace s'
       = trace s
           ++ [EEmbed [question]
                 (Throw (JsError (js "OPENAI_API_KEY environment variable is required. Get your key from https://platform.openai.com/api-keys")))].
Proof.
  intros Hkey Hclient. unfold askWith, bind, call.
  cbn [createOpenAIEmbed nodePlatform].
  unfold OpenAI.createOpenAIEmbed. cbn [length Nat.eqb].
  unfold andThen, OpenAI.getClient. rewrite Hclient.
  unfold OpenAI.getOpenAIKey. rewrite Hkey.
  eexists. split; [reflexivity|]. split; reflexivity.
Qed.

End MissingKeys.

Lemma createContextWindow_needs_pinecone_key_witness :
  exists s',
    createContextWindow (P := nodePlatform (K := scriptedSdk quietSdk) openaiOnlyEnv)
      50 bookOptions (freshState 0)
    = (Throw (JsError (js "PINECONE_API_KEY environment variable is required. Get your key from https://app.pinecone.io/")), s')
    /\ world s' = world (freshState 0)
    /\ trace s'
       = trace (freshState 0)
           ++ [EEnsureIndex 1536
                 (Throw (JsError (js "PINECONE_API_KEY environment variable is required. Get your key from https://app.pinecone.io/")))].
Proof.
  destruct (normalizeOptions bookOptions) as [config| |] eqn:Hconfig;
    [|vm_compute in Hconfig; discriminate Hconfig..].
  apply (createContextWindow_needs_pinecone_key (K := scriptedSdk quietSdk)
           openaiOnlyEnv 50 bookOptions config (freshState 0)).
  - exact Hconfig.
  - reflexivity.
Defined.

Lemma ask_needs_openai_key_witness :
  exists s',
    askWith (P := nodePlatform (K := scriptedSdk quietSdk) emptyEnv)
      (js "gpt-4o-mini") (js "my-book") 8 8000 0 (js "Who wrote it?") (freshState 0)
    = (Throw (JsError (js "OPENAI_API_KEY environment variable is required. Get your key from https://platform.openai.com/api-keys")), s')
    /\ world s' = world (freshState 0)
    /\ trace s'
       = trace (freshState 0)
           ++ [EEmbed [js "Who wrote it?"]
                 (Throw (JsError (js "OPENAI_API_KEY environment variable is required. Get your key from https://platform.openai.com/api-keys")))].
Proof.
  apply (ask_needs_openai_key (K := scriptedSdk quietSdk) emptyEnv (js "gpt-4o-mini")
           (js "my-book") 8 8000 0 (js "Who wrote it?") (freshState 0)).
  - reflexivity.
  - reflexivity.
Defined.

(** ** The errors a caller can see *)

Section RejectionShapes.
Context {World : Type} {P : Platform World}.

Lemma rejectsOnly_ret {A} Q (a : A) : rejectsOnly (World := World) Q (ret a).
Proof. intros s e s' H. discriminate H. Qed.

Lemma rejectsOnly_diverge {A} Q : rejectsOnly (World := World) Q (diverge (A := A)).
Proof. intros s e s' H. discriminate H. Qed.

Lemma rejectsOnly_call {A} (Q : jserror -> Prop) (ev : outcome A -> event)
    (h : Async World A) :
  (forall w e w', h w = (Throw e, w') -> Q e) -> rejectsOnly Q (call ev h).
Proof.
  intros Hh s e s'. unfold call. destruct (h (world s)) as [r w] eqn:Hrun.
  intros [= -> <-]. by eapply Hh.
Qed.

Lemma rejectsOnly_bind {A B} Q (m : M World A) (k : A -> M World B) :
  rejectsOnly Q m -> (forall a, rejectsOnly Q (k a)) -> rejectsOnly Q (bind m k).
Proof.
  intros Hm Hk s e s'. unfold bind. destruct (m s) as [[a|e1|] s1] eqn:Hrun.
  - apply Hk.
  - intros [= <- <-]. by eapply Hm.
  - done.
Qed.

Lemma rejectsOnly_forEachM {A S} Q (body : S -> A -> M World S) (xs : list A) (acc : S) :
  (forall acc x, rejectsOnly Q (body acc x)) -> rejectsOnly Q (forEachM body xs acc).
Proof.
  intros Hbody. revert acc. induction xs as [|x xs IH]; intros acc; simpl.
  - apply rejectsOnly_ret.
  - apply rejectsOnly_bind; [apply Hbody|apply IH].
Qed.

Lemma rejectsOnly_weaken {A} (Q Q' : jserror -> Prop) (m : M World A) :
  rejectsOnly Q m -> (forall e, Q e -> Q' e) -> rejectsOnly Q' m.
Proof. intros Hm Himp s e s' Hrun. eapply Himp, Hm, Hrun. Qed.

Lemma rejectsOnly_collectFiles (Q : jserror -> Prop) (fuel : nat)
    (paths : list (option jsstring)) :
  Q invalidPathError ->
  (forall path w e w', stat path w = (Throw e, w') -> Q e) ->
  (forall path w e w', readdir path w = (Throw e, w') -> Q e) ->
  rejectsOnly Q (collectFiles fuel paths).
Proof.
  intros Hinvalid Hstat Hreaddir. revert paths.
  induction fuel as [|fuel IH]; intros paths; simpl.
  - apply rejectsOnly_diverge.
  - apply rejectsOnly_forEachM. intros files [path|].
    2:{ apply rejectsOnly_bind; [|intros stats; apply rejectsOnly_ret].
        apply rejectsOnly_call. by intros w e w' [= <- _]. }
    apply rejectsOnly_bind; [apply rejectsOnly_call, Hstat|]. intros stats.
    destruct (st_isFile stats).
    { destruct (isSupportedFile path); apply rejectsOnly_ret. }
    destruct (st_isDirectory stats); [|apply rejectsOnly_ret].
    apply rejectsOnly_bind; [apply rejectsOnly_call, Hreaddir|]. intros entries.
    apply rejectsOnly_forEachM. intros files' entry.
    destruct (de_isDirectory entry).
    { apply rejectsOnly_bind; [apply IH|]. intros subFiles. apply rejectsOnly_ret. }
    destruct (de_isFile entry && isSupportedFile _); apply rejectsOnly_ret.
Qed.

Lemma rejectsOnly_processFile (Q : jserror -> Prop) (size overlap : Z)
    (allRecords : list VectorRecord) (filepath : jsstring) :
  rejectsOnly Q (processFile size overlap allRecords filepath).
Proof.
  intros s e s'. unfold processFile, tryCatch.
  match goal with |- context [bind ?m ?k s] => destruct (bind m k s) as [[a|e1|] s1] end;
    done.
Qed.

Lemma rejectsOnly_embedBatch (Q : jserror -> Prop) (embed : EmbedFn World)
    (allRecords : list VectorRecord) (i : nat) :
  (forall texts w e w', embed texts w = (Throw e, w') -> Q e) ->
  rejectsOnly
    (fun err => exists e, Q e
                  /\ err = JsError (js "Embedding batch failed: " ++ errorToString e))
    (embedBatch embed allRecords i).
Proof.
  intros Hembed s err s'. unfold embedBatch, tryCatch, bind, call, ret, throw. cbv zeta.
  destruct (embed _ (world s)) as [[embeddings|e|] w] eqn:Hrun; [done| |done].
  intros [= <- <-]. exists e. split; [by eapply Hembed|done].
Qed.

Lemma rejectsOnly_ingestPaths (Qfs Qembed Qupsert : jserror -> Prop) (fuel : nat)
    (options : IngestOptions World) :
  Qfs invalidPathError ->
  (forall path w e w', stat path w = (Throw e, w') -> Qfs e) ->
  (forall path w e w', readdir path w = (Throw e, w') -> Qfs e) ->
  (forall texts w e w', embed options texts w = (Throw e, w') -> Qembed e) ->
  (forall records ns w e w', upsert options records ns w = (Throw e, w') -> Qupsert e) ->
  rejectsOnly
    (fun err =>
       Qfs err
       \/ (exists e, Qembed e
             /\ err = JsError (js "Embedding batch failed: " ++ errorToString e))
       \/ Qupsert err)
    (ingestPaths fuel options).
Proof.
  intros Hinvalid Hstat Hreaddir Hembed Hupsert. unfold ingestPaths.
  apply rejectsOnly_bind.
  { eapply rejectsOnly_weaken; [by apply (rejectsOnly_collectFiles Qfs)|].
    intros e He. by left. }
  intros files. destruct (length files =? 0)%nat; [apply rejectsOnly_ret|].
  apply rejectsOnly_bind.
  { apply rejectsOnly_forEachM. intros acc x. apply rejectsOnly_processFile. }
  intros allRecords. destruct (length allRecords =? 0)%nat; [apply rejectsOnly_ret|].
  apply rejectsOnly_bind.
  { apply rejectsOnly_forEachM. intros acc i.
    eapply rejectsOnly_weaken; [by apply (rejectsOnly_embedBatch Qembed)|].
    intros e He. right. by left. }
  intros embedded. apply rejectsOnly_call. intros w e w' Hrun.
  right. right. by eapply Hupsert.
Qed.

End RejectionShapes.

Section AdapterRejections.
Context {W : Type} {K : Sdk W} (env : Env).

Lemma catch_wrapped {A} (prefix : jsstring) (body : Async (NodeWorld W) A)
    (st st' : NodeWorld W) (e : jserror) :
  catch body (fun error => reject (JsError (prefix ++ errorToString error))) st
  = (Throw e, st') ->
  wrapped prefix e.
Proof.
  unfold catch, reject. destruct (body st) as [[a|cause|] st1]; [done| |done].
  intros [= <- <-]. by exists cause.
Qed.

Lemma pineconeConfig_rejection (e : jserror) :
  Pinecone.getPineconeConfig env = Throw e -> e = pineconeKeyError.
Proof.
  unfold Pinecone.getPineconeConfig. cbv zeta.
  destruct (isFalsyString (PINECONE_API_KEY env)); [|done]. by intros [= <-].
Qed.

Lemma pineconeClient_rejection (st st' : NodeWorld W) (e : jserror) :
  Pinecone.getClient env st = (Throw e, st') -> e = pineconeKeyError.
Proof.
  unfold Pinecone.getClient. destruct (nw_pineconeClient st); [done|].
  destruct (Pinecone.getPineconeConfig env) as [config|e0|] eqn:Hconfig; [done| |done].
  intros [= <- <-]. by apply pineconeConfig_rejection.
Qed.

Lemma openaiClient_rejection (st st' : NodeWorld W) (e : jserror) :
  OpenAI.getClient env st = (Throw e, st') -> e = openaiKeyError.
Proof.
  unfold OpenAI.getClient. destruct (nw_openaiClient st); [done|].
  unfold OpenAI.getOpenAIKey.
  destruct (isFalsyString (OPENAI_API_KEY env)); [|done]. by intros [= <- <-].
Qed.

Lemma embed_rejection (model : jsstring) (texts : list jsstring)
    (st st' : NodeWorld W) (e : jserror) :
  OpenAI.createOpenAIEmbed env model texts st = (Throw e, st') ->
  e = openaiKeyError \/ wrapped (js "OpenAI embedding failed: ") e.
Proof.
  unfold OpenAI.createOpenAIEmbed. destruct (length texts =? 0)%nat; [done|].
  unfold andThen.
  destruct (OpenAI.getClient env st) as [[client|e0|] st1] eqn:Hclient; [| |done].
  - intros Hrun. right. by eapply catch_wrapped.
  - intros [= <- <-]. left. by eapply openaiClient_rejection.
Qed.

Lemma chat_rejection (args : ChatArgs) (st st' : NodeWorld W) (e : jserror) :
  OpenAI.createOpenAIChat env args st = (Throw e, st') ->
  e = openaiKeyError \/ wrapped (js "OpenAI chat completion failed: ") e.
Proof.
  unfold OpenAI.createOpenAIChat. unfold andThen at 1.
  destruct (OpenAI.getClient env st) as [[client|e0|] st1] eqn:Hclient; [| |done].
  - intros Hrun. right. by eapply catch_wrapped.
  - intros [= <- <-]. left. by eapply openaiClient_rejection.
Qed.

Lemma query_rejection (args : QueryArgs) (st st' : NodeWorld W) (e : jserror) :
  Pinecone.createPineconeQuery env args st = (Throw e, st') ->
  e = pineconeKeyError \/ wrapped (js "Pinecone query failed: ") e.
Proof.
  unfold Pinecone.createPineconeQuery. unfold andThen at 1.
  destruct (Pinecone.getClient env st) as [[client|e0|] st1] eqn:Hclient; [| |done].
  - unfold andThen at 1, fromOutcome.
    destruct (Pinecone.getPineconeConfig env) as [config|e0|] eqn:Hconfig; [| |done].
    + intros Hrun. right. by eapply catch_wrapped.
    + intros [= <- <-]. left. by apply pineconeConfig_rejection.
  - intros [= <- <-]. left. by eapply pineconeClient_rejection.
Qed.

Lemma upsert_rejection (records : list VectorRecord) (ns : jsstring)
    (st st' : NodeWorld W) (e : jserror) :
  Pinecone.createPineconeUpsert env records ns st = (Throw e, st') ->
  e = pineconeKeyError \/ wrapped (js "Pinecone upsert failed: ") e.
Proof.
  unfold Pinecone.createPineconeUpsert. destruct (length records =? 0)%nat; [done|].
  unfold andThen at 1.
  destruct (Pinecone.getClient env st) as [[client|e0|] st1] eqn:Hclient; [| |done].
  - unfold andThen at 1, fromOutcome.
    destruct (Pinecone.getPineconeConfig env) as [config|e0|] eqn:Hconfig; [| |done].
    + intros Hrun. right. by eapply catch_wrapped.
    + intros [= <- <-]. left. by apply pineconeConfig_rejection.
  - intros [= <- <-]. left. by eapply pineconeClient_rejection.
Qed.

Lemma ensure_rejection (dimension : Z) (st st' : NodeWorld W) (e : jserror) :
  Pinecone.ensurePineconeIndex env dimension st = (Throw e, st') ->
  e = pineconeKeyError \/ wrapped (js "Failed to ensure Pinecone index: ") e.
Proof.
  unfold Pinecone.ensurePineconeIndex. unfold andThen at 1.
  destruct (Pinecone.getClient env st) as [[client|e0|] st1] eqn:Hclient; [| |done].
  - unfold andThen at 1, fromOutcome.
    destruct (Pinecone.getPineconeConfig env) as [config|e0|] eqn:Hconfig; [| |done].
    + intros Hrun. right. by eapply catch_wrapped.
    + intros [= <- <-]. left. by apply pineconeConfig_rejection.
  - intros [= <- <-]. left. by eapply pineconeClient_rejection.
Qed.

(** X27. Every error [createContextWindow] rejects with on Node has one of
    these shapes: the configuration error of the options; the message that
    asks for PINECONE_API_KEY; an error behind [Failed to ensure Pinecone
    index: ]; an error of [stat] or [readdir], as the file system gave it;
    an embedding error (the message that asks for OPENAI_API_KEY, or an
    error behind [OpenAI embedding failed: ]) behind [Embedding batch
    failed: ]; an error behind [Pinecone upsert failed: ]. *)
Theorem createContextWindow_rejections (fuel : nat) (opts : CreateContextWindowOptions)
    (s s' : state (NodeWorld W)) (err : jserror) :
  createContextWindow (P := nodePlatform env) fuel opts s = (Throw err, s') ->
  normalizeOptions opts = Throw err
  \/ err = JsError (js "PINECONE_API_KEY environment variable is required. Get your key from https://app.pinecone.io/")
  \/ wrapped (js "Failed to ensure Pinecone index: ") err
  \/ fsError err
  \/ err = JsError (js "Embedding batch failed: Error: OPENAI_API_KEY environment variable is required. Get your key from https://platform.openai.com/api-keys")
  \/ wrapped (js "Embedding batch failed: Error: OpenAI embedding failed: ") err
  \/ wrapped (js "Pinecone upsert failed: ") err.
Proof.
  unfold createContextWindow. unfold bind at 1, liftOutcome.
  destruct (normalizeOptions opts) as [config|e0|]; [|by intros [= <- <-]; left|done].
  unfold bind at 1.
  match goal with |- context [call ?ev ?h s] =>
    destruct (call ev h s) as [[[]|e1|] s1] eqn:Hensure end; [| |done].
  2:{ intros [= <- <-]. revert Hensure. unfold call. cbn [ensurePineconeIndex nodePlatform].
      destruct (Pinecone.ensurePineconeIndex env 1536 (world s)) as [r w] eqn:Hrun.
      intros [= -> <-]. apply ensure_rejection in Hrun as [->|Hw]; [right; by left|].
      right; right; by left. }
  clear Hensure. unfold bind at 1.
  match goal with |- context [ingestPaths fuel ?o s1] =>
    destruct (ingestPaths fuel o s1) as [[[]|e2|] s2] eqn:Hingest end; [done| |done].
  intros [= <- <-].
  apply (rejectsOnly_ingestPaths (P := nodePlatform env) fsError
           (fun e => e = openaiKeyError \/ wrapped (js "OpenAI embedding failed: ") e)
           (fun e => e = pineconeKeyError \/ wrapped (js "Pinecone upsert failed: ") e))
    in Hingest.
  - destruct Hingest as [Hfs|[(e & He & ->)|[->|Hw]]].
    + do 3 right. by left.
    + destruct He as [->|[cause ->]].
      * do 4 right. left. reflexivity.
      * do 5 right. left. exists cause. reflexivity.
    + right. by left.
    + do 6 right. done.
  - right. by right.
  - intros path w e w'. cbn [stat nodePlatform]. unfold sdk.
    destruct (fsStat path (nw_inner w)) as [r w0] eqn:Hrun. intros [= -> _].
    left. by exists path, (nw_inner w), w0.
  - intros path w e w'. cbn [readdir nodePlatform]. unfold sdk.
    destruct (fsReaddir path (nw_inner w)) as [r w0] eqn:Hrun. intros [= -> _].
    right. left. by exists path, (nw_inner w), w0.
  - intros texts w e w'. cbn [embed createOpenAIEmbed nodePlatform]. apply embed_rejection.
  - intros records ns w e w'. cbn [upsert createPineconeUpsert nodePlatform].
    apply upsert_rejection.
Qed.

(** X28. Every error [ask] rejects with on Node is the message that asks
    for OPENAI_API_KEY or for PINECONE_API_KEY, or an error behind one of
    [OpenAI embedding failed: ], [Pinecone query failed: ] and
    [OpenAI chat completion failed: ]. *)
Theorem ask_rejections (aiModel namespace : jsstring) (topK maxContextChars : Z)
    (scoreThreshold : Q) (question : jsstring) (s s' : state (NodeWorld W))
    (err : jserror) :
  askWith (P := nodePlatform env) aiModel namespace topK maxContextChars scoreThreshold
    question s = (Throw err, s') ->
  err = JsError (js "OPENAI_API_KEY environment variable is required. Get your key from https://platform.openai.com/api-keys")
  \/ err = JsError (js "PINECONE_API_KEY environment variable is required. Get your key from https://app.pinecone.io/")
  \/ wrapped (js "OpenAI embedding failed: ") err
  \/ wrapped (js "Pinecone query failed: ") err
  \/ wrapped (js "OpenAI chat completion failed: ") err.
Proof.
  assert (Hshape : rejectsOnly
            (fun err =>
               (err = openaiKeyError \/ wrapped (js "OpenAI embedding failed: ") err)
               \/ (err = pineconeKeyError \/ wrapped (js "Pinecone query failed: ") err)
               \/ (err = openaiKeyError
                   \/ wrapped (js "OpenAI chat completion failed: ") err))
            (askWith (P := nodePlatform env) aiModel namespace topK maxContextChars
               scoreThreshold question)).
  { unfold askWith. apply rejectsOnly_bind.
    { apply rejectsOnly_call. intros w e w' Hrun. left.
      cbn [createOpenAIEmbed nodePlatform] in Hrun. eapply embed_rejection, Hrun. }
    intros vectors. cbv zeta. apply rejectsOnly_bind.
    { apply rejectsOnly_call. intros w e w' Hrun. right. left.
      cbn [createPineconeQuery nodePlatform] in Hrun. eapply query_rejection, Hrun. }
    intros matches. destruct (_ || _); [apply rejectsOnly_ret|].
    apply rejectsOnly_bind; [|intros answer; apply rejectsOnly_ret].
    apply rejectsOnly_call. intros w e w' Hrun. right. right.
    cbn [createOpenAIChat nodePlatform] in Hrun. eapply chat_rejection, Hrun. }
  intros Hrun. apply Hshape in Hrun as [[->|Hw]|[[->|Hw]|[->|Hw]]].
  - by left.
  - right; right; by left.
  - right; by left.
  - do 3 right. by left.
  - by left.
  - do 4 right. done.
Qed.

End AdapterRejections.

Lemma createContextWindow_rejections_witness :
  let run := createContextWindow (P := nodePlatform (K := scriptedSdk embedDown) fullEnv)
               50 bookOptions (freshState 0) in
  let err := JsError (js "Embedding batch failed: Error: OpenAI embedding failed: Error: 503") in
  fst run = Throw err
  /\ (normalizeOptions bookOptions = Throw err
      \/ err = JsError (js "PINECONE_API_KEY environment variable is required. Get your key from https://app.pinecone.io/")
      \/ wrapped (js "Failed to ensure Pinecone index: ") err
      \/ fsError (K := scriptedSdk embedDown) err
      \/ err = JsError (js "Embedding batch failed: Error: OPENAI_API_KEY environment variable is required. Get your key from https://platform.openai.com/api-keys")
      \/ wrapped (js "Embedding batch failed: Error: OpenAI embedding failed: ") err
      \/ wrapped (js "Pinecone upsert failed: ") err).
Proof.
  cbv zeta.
  assert (Hrun : fst (createContextWindow
                        (P := nodePlatform (K := scriptedSdk embedDown) fullEnv)
                        50 bookOptions (freshState 0))
                 = Throw (JsError (js "Embedding batch failed: Error: OpenAI embedding failed: Error: 503"))).
  { vm_compute. reflexivity. }
  split; [exact Hrun|].
  apply (createContextWindow_rejections (K := scriptedSdk embedDown) fullEnv 50
           bookOptions (freshState 0)
           (snd (createContextWindow
                   (P := nodePlatform (K := scriptedSdk embedDown) fullEnv)
                   50 bookOptions (freshState 0)))).
  rewrite <- Hrun. apply surjective_pairing.
Defined.

Lemma ask_rejections_witness :
  let run := askWith (P := nodePlatform (K := scriptedSdk chatDown) fullEnv)
               (js "gpt-4o-mini") (js "my-book") 8 8000 0 (js "Who wrote it?")
               (freshState 0) in
  fst run = Throw (JsError (js "OpenAI chat completion failed: Error: 503"))
  /\ (JsError (js "OpenAI chat completion failed: Error: 503")
      = JsError (js "OPENAI_API_KEY environment variable is required. Get your key from https://platform.openai.com/api-keys")
      \/ JsError (js "OpenAI chat completion failed: Error: 503")
         = JsError (js "PINECONE_API_KEY environment variable is required. Get your key from https://app.pinecone.io/")
      \/ wrapped (js "OpenAI embedding failed: ")
           (JsError (js "OpenAI chat completion failed: Error: 503"))
      \/ wrapped (js "Pinecone query failed: ")
           (JsError (js "OpenAI chat completion failed: Error: 503"))
      \/ wrapped (js "OpenAI chat completion failed: ")
           (JsError (js "OpenAI chat completion failed: Error: 503"))).
Proof.
  cbv zeta.
  assert (Hrun : fst (askWith (P := nodePlatform (K := scriptedSdk chatDown) fullEnv)
                        (js "gpt-4o-mini") (js "my-book") 8 8000 0 (js "Who wrote it?")
                        (freshState 0))
                 = Throw (JsError (js "OpenAI chat completion failed: Error: 503"))).
  { vm_compute. reflexivity. }
  split; [exact Hrun|].
  apply (ask_rejections (K := scriptedSdk chatDown) fullEnv (js "gpt-4o-mini")
           (js "my-book") 8 8000 0 (js "Who wrote it?") (freshState 0)
           (snd (askWith (P := nodePlatform (K := scriptedSdk chatDown) fullEnv)
                   (js "gpt-4o-mini") (js "my-book") 8 8000 0 (js "Who wrote it?")
                   (freshState 0)))).
  rewrite <- Hrun. apply surjective_pairing.
Defined.
